(** * OCS2 multiple-shooting SQP solver and term collections

    A shallow embedding of
    - [ocs2_core/misc/Collection.h] (the by-name registry of cost and
      constraint terms), and
    - [ocs2_sqp/src/MultipleShootingSolver.cpp] (constructor, iteration log,
      QP step extraction, primal-solution assembly, performance sweeps and
      the filter line search).

    [scalar_t] is modelled by exact rationals [Q]: the statements about the
    solver are about its control structure and its arithmetic in exact
    arithmetic; rounding, infinities and NaN of IEEE doubles are outside
    that model.  The acceptance test of the line search, which decides by
    comparisons of scalars alone, is embedded a second time over IEEE 754
    binary64 numbers (module [Double]).  Functions that the solver calls but that live in other
    translation units ([std::sqrt], the per-node transcription routines, the
    HPIPM interface, the interval helpers of the time discretisation) are
    the fields of the class [Collaborators]; every statement holds for all
    of its instances. *)

From Stdlib Require Import QArith Qabs ZArith Lia Lqa String.
From Stdlib Require SpecFloat.
From stdpp Require Import base option list gmap strings.

Local Open Scope Q_scope.

(** ** Outcomes of C++ calls *)

(** What a C++ exception carries: the standard exception classes that the
    embedded code throws. *)
Inductive exception : Type :=
| runtime_error (what : string)
| out_of_range
| length_error.

(** A call either returns, throws, or runs into undefined behaviour (an
    unchecked [operator[]], [front()] or [back()] outside the container).
    [OutOfFuel] is the model's own answer when a loop was cut short. *)
Inductive outcome (A : Type) : Type :=
| Returns (a : A)
| Throws (e : exception)
| Undefined
| OutOfFuel.
Arguments Returns {A} a.
Arguments Throws {A} e.
Arguments Undefined {A}.
Arguments OutOfFuel {A}.

Definition outcome_bind {A B : Type} (f : A -> outcome B) (m : outcome A) : outcome B :=
  match m with
  | Returns a => f a
  | Throws e => Throws e
  | Undefined => Undefined
  | OutOfFuel => OutOfFuel
  end.

Notation "x <- m ;; k" := (outcome_bind (fun x => k) m)
  (at level 100, m at next level, right associativity, only parsing).

(** A [for] loop over the indices [l], threading the loop state. *)
Fixpoint foldM {A S : Type} (body : S -> A -> outcome S) (s : S) (l : list A) : outcome S :=
  match l with
  | [] => Returns s
  | a :: l' => s' <- body s a ;; foldM body s' l'
  end.

(** Unchecked element access [v[i]]. *)
Definition at_ {A : Type} (v : list A) (i : nat) : outcome A :=
  match v !! i with
  | Some a => Returns a
  | None => Undefined
  end.

(** [v[i] = a] through an unchecked [operator[]]. *)
Definition assign {A : Type} (v : list A) (i : nat) (a : A) : outcome (list A) :=
  if decide (i < length v)%nat then Returns (<[i := a]> v) else Undefined.

(** [v.back()]. *)
Definition back {A : Type} (v : list A) : outcome A :=
  match last v with
  | Some a => Returns a
  | None => Undefined
  end.

(** [v.front()]. *)
Definition front {A : Type} (v : list A) : outcome A := at_ v 0.

(** [v.resize(n)]: cut, or fill up with default-constructed elements. *)
Definition resize_ {A : Type} (n : nat) (d : A) (v : list A) : list A :=
  take n v ++ replicate (n - length v) d.

(** ** Scalars, vectors and matrices *)

Abbreviation scalar_t := Q.

(** [a < b] on scalars, as a test. *)
Definition Qltb (a b : Q) : bool := negb (Qle_bool b a).

(** Dense dynamic vectors and (row-major) matrices. *)
Abbreviation vector_t := (list Q).
Abbreviation matrix_t := (list (list Q)).
Abbreviation vector_array_t := (list vector_t).
Abbreviation matrix_array_t := (list matrix_t).

Definition Qsum (l : list Q) : Q := foldr Qplus 0 l.

Definition vadd (a b : vector_t) : vector_t := zip_with Qplus a b.
Definition vsub (a b : vector_t) : vector_t := zip_with Qminus a b.
Definition vscale (c : Q) (a : vector_t) : vector_t := map (Qmult c) a.
Definition dot (a b : vector_t) : Q := Qsum (zip_with Qmult a b).
Definition squaredNorm (a : vector_t) : Q := dot a a.

Definition madd (a b : matrix_t) : matrix_t := zip_with vadd a b.
Definition mvmul (m : matrix_t) (v : vector_t) : vector_t := map (fun row => dot row v) m.

(** Column [j] of a matrix. *)
Definition column (m : matrix_t) (j : nat) : vector_t :=
  map (fun row => default 0 (row !! j)) m.

Definition cols (m : matrix_t) : nat :=
  match m with
  | [] => O
  | row :: _ => length row
  end.

Definition mmul (a b : matrix_t) : matrix_t :=
  map (fun row => map (fun j => dot row (column b j)) (seq 0 (cols b))) a.

(** ** [Collection<T>] *)

Module Collection.
Section Collection.
Context {T : Type}.

(** [terms_] holds the terms in insertion order, [termNameMap_] maps a
    name to the index of its term. *)
Record t : Type := mk {
  terms_ : list T;
  termNameMap_ : gmap string nat
}.

(** The default-constructed collection. *)
Definition new : t := {| terms_ := []; termNameMap_ := ∅ |}.

Definition empty (c : t) : bool :=
  match terms_ c with
  | [] => true
  | _ :: _ => false
  end.

Definition dquote : string := String (Ascii.ascii_of_nat 34) EmptyString.

(** [add(name, term)]: [emplace] inserts only when the key is new; the
    term is pushed in that case, otherwise the call throws and nothing
    was written. The collection after the call is returned next to the
    outcome. *)
Definition add (name : string) (term : T) (c : t) : outcome unit * t :=
  let nextIndex := length (terms_ c) in
  match termNameMap_ c !! name with
  | None =>
      (Returns (),
       {| terms_ := terms_ c ++ [term];
          termNameMap_ := <[name := nextIndex]> (termNameMap_ c) |})
  | Some _ =>
      (Throws (runtime_error
                 ("[Collection::add] Term with name " +:+ dquote +:+ name
                  +:+ dquote +:+ " already exists")), c)
  end.

(** [get<T>(name)]: [unordered_map::at] throws [std::out_of_range] on a
    missing key; the index is then used unchecked. *)
Definition get (name : string) (c : t) : outcome T :=
  match termNameMap_ c !! name with
  | None => Throws out_of_range
  | Some costIndex => at_ (terms_ c) costIndex
  end.

(** The collection obtained from [c] by a sequence of [add] calls; a call
    that throws leaves the collection as it was. *)
Definition add_all (l : list (string * T)) (c : t) : t :=
  foldl (fun acc nt => snd (add nt.1 nt.2 acc)) c l.

End Collection.
Arguments t T : clear implicits.
End Collection.

(** ** Data model *)

(** Modelled from the spec: the [PerformanceIndex] struct (its header is
    not part of the sources at hand). The fields are those the solver reads
    and writes; [operator+=] adds field by field. *)
Record PerformanceIndex : Type := {
  merit : scalar_t;
  totalCost : scalar_t;
  stateEqConstraintISE : scalar_t;
  stateInputEqConstraintISE : scalar_t;
  inequalityConstraintISE : scalar_t;
  inequalityConstraintPenalty : scalar_t
}.

(** [PerformanceIndex()] *)
Definition PerformanceIndex_zero : PerformanceIndex :=
  {| merit := 0; totalCost := 0; stateEqConstraintISE := 0;
     stateInputEqConstraintISE := 0; inequalityConstraintISE := 0;
     inequalityConstraintPenalty := 0 |}.

(** [lhs += rhs] *)
Definition PerformanceIndex_add (lhs rhs : PerformanceIndex) : PerformanceIndex :=
  {| merit := merit lhs + merit rhs;
     totalCost := totalCost lhs + totalCost rhs;
     stateEqConstraintISE := stateEqConstraintISE lhs + stateEqConstraintISE rhs;
     stateInputEqConstraintISE := stateInputEqConstraintISE lhs + stateInputEqConstraintISE rhs;
     inequalityConstraintISE := inequalityConstraintISE lhs + inequalityConstraintISE rhs;
     inequalityConstraintPenalty := inequalityConstraintPenalty lhs + inequalityConstraintPenalty rhs |}.

Definition set_merit (m : scalar_t) (p : PerformanceIndex) : PerformanceIndex :=
  {| merit := m;
     totalCost := totalCost p;
     stateEqConstraintISE := stateEqConstraintISE p;
     stateInputEqConstraintISE := stateInputEqConstraintISE p;
     inequalityConstraintISE := inequalityConstraintISE p;
     inequalityConstraintPenalty := inequalityConstraintPenalty p |}.

Definition add_stateEqConstraintISE (d : scalar_t) (p : PerformanceIndex) : PerformanceIndex :=
  {| merit := merit p;
     totalCost := totalCost p;
     stateEqConstraintISE := stateEqConstraintISE p + d;
     stateInputEqConstraintISE := stateInputEqConstraintISE p;
     inequalityConstraintISE := inequalityConstraintISE p;
     inequalityConstraintPenalty := inequalityConstraintPenalty p |}.

(** Modelled from the spec: [AnnotatedTime] and its [Event] tag (declared in
    [TimeDiscretization.h], which is not among the sources at hand). *)
Inductive Event : Type := Event_None | PreEvent | PostEvent.

#[global] Instance Event_eq_dec : EqDecision Event.
Proof. solve_decision. Defined.

Record AnnotatedTime : Type := {
  time : scalar_t;
  event : Event
}.

(** [ScalarFunctionQuadraticApproximation] of [Types.h]. *)
Record ScalarFunctionQuadraticApproximation : Type := {
  q_dfdxx : matrix_t;
  q_dfdux : matrix_t;
  q_dfduu : matrix_t;
  q_dfdx : vector_t;
  q_dfdu : vector_t;
  q_f : scalar_t
}.

Definition ScalarFunctionQuadraticApproximation_default : ScalarFunctionQuadraticApproximation :=
  {| q_dfdxx := []; q_dfdux := []; q_dfduu := []; q_dfdx := []; q_dfdu := []; q_f := 0 |}.

(** [VectorFunctionLinearApproximation] of [Types.h]. *)
Record VectorFunctionLinearApproximation : Type := {
  dfdx : matrix_t;
  dfdu : matrix_t;
  f : vector_t
}.

Definition VectorFunctionLinearApproximation_default : VectorFunctionLinearApproximation :=
  {| dfdx := []; dfdu := []; f := [] |}.

(** [VectorFunctionLinearApproximation::Zero(nv, nx, nu)] *)
Definition Zero (nv nx nu : nat) : VectorFunctionLinearApproximation :=
  {| dfdx := replicate nv (replicate nx 0);
     dfdu := replicate nv (replicate nu 0);
     f := replicate nv 0 |}.

(** Modelled from the spec: [ModeSchedule], event times and the modes
    between them. *)
Record ModeSchedule : Type := {
  eventTimes : list scalar_t;
  modeSequence : list nat
}.

Definition ModeSchedule_default : ModeSchedule :=
  {| eventTimes := []; modeSequence := [O] |}.

(** Modelled from the spec: the two controllers the solver hands out, each
    with the arguments of its constructor call. *)
Inductive Controller : Type :=
| LinearController (timeStamp : list scalar_t) (bias : vector_array_t) (gain : matrix_array_t)
| FeedforwardController (timeStamp : list scalar_t) (uff : vector_array_t).

(** Modelled from the spec: [PrimalSolution]. *)
Record PrimalSolution : Type := {
  timeTrajectory_ : list scalar_t;
  stateTrajectory_ : vector_array_t;
  inputTrajectory_ : vector_array_t;
  modeSchedule_ : ModeSchedule;
  controllerPtr_ : option Controller
}.

(** [PrimalSolution()] *)
Definition PrimalSolution_default : PrimalSolution :=
  {| timeTrajectory_ := []; stateTrajectory_ := []; inputTrajectory_ := [];
     modeSchedule_ := ModeSchedule_default; controllerPtr_ := None |}.

(** Modelled from the spec: the settings of the SQP solver, those that the
    embedded code reads. *)
Record Settings : Type := {
  sqpIteration : nat;
  deltaTol : scalar_t;
  costTol : scalar_t;
  alpha_decay : scalar_t;
  alpha_min : scalar_t;
  gamma_c : scalar_t;
  g_max : scalar_t;
  g_min : scalar_t;
  armijoFactor : scalar_t;
  dt : scalar_t;
  useFeedbackPolicy : bool;
  projectStateInputEqualityConstraints : bool;
  printSolverStatus : bool;
  printSolverStatistics : bool;
  printLinesearch : bool;
  nThreads : nat
}.

Definition set_projectStateInputEqualityConstraints (b : bool) (s : Settings) : Settings :=
  {| sqpIteration := sqpIteration s; deltaTol := deltaTol s; costTol := costTol s;
     alpha_decay := alpha_decay s; alpha_min := alpha_min s; gamma_c := gamma_c s;
     g_max := g_max s; g_min := g_min s; armijoFactor := armijoFactor s; dt := dt s;
     useFeedbackPolicy := useFeedbackPolicy s;
     projectStateInputEqualityConstraints := b;
     printSolverStatus := printSolverStatus s;
     printSolverStatistics := printSolverStatistics s;
     printLinesearch := printLinesearch s; nThreads := nThreads s |}.

(** Modelled from the spec: the status that the structured QP solver
    reports. *)
Inductive hpipm_status : Type := SUCCESS | MAX_ITER | INFEASIBLE | NUMERICAL_FAILURE.

#[global] Instance hpipm_status_eq_dec : EqDecision hpipm_status.
Proof. solve_decision. Defined.

(** Modelled from the spec: what [setupIntermediateNode], [setupEventNode]
    and [setupTerminalNode] return; the event and terminal nodes leave the
    fields that they do not have at their defaults. *)
Record Transcription : Type := {
  performance : PerformanceIndex;
  dynamics : VectorFunctionLinearApproximation;
  cost : ScalarFunctionQuadraticApproximation;
  constraints : VectorFunctionLinearApproximation;
  constraintsProjection : VectorFunctionLinearApproximation
}.

(** [OcpSubproblemSolution], by the members that [getOCPSolution] fills. *)
Record OcpSubproblemSolution : Type := {
  deltaXSol : vector_array_t;
  deltaUSol : vector_array_t;
  armijoDescentMetric : scalar_t
}.

(** ** Collaborators *)

(** Which worker claimed which node index in one parallel sweep: node [i]
    is processed by worker [sched i mod nThreads]. The atomic counter hands
    out every index once and in increasing order, so a sweep is determined
    by this map. *)
Definition Schedule : Type := nat -> nat.

(** The parts of OCS2 that the solver calls and that are not part of the
    embedded sources. The discretizers selected in the constructor are
    folded into [setupIntermediateNode] and [computeIntermediatePerformance];
    resizing the HPIPM workspace is folded into [hpipm_solve]. *)
Class Collaborators : Type := {
  OptimalControlProblem : Type;
  StateInputConstraint : Type;
  equalityConstraintPtr : OptimalControlProblem -> Collection.t StateInputConstraint;
  HpipmInterface : Type;
  (** [std::sqrt] *)
  sqrt : scalar_t -> scalar_t;
  (** [TimeDiscretization.h] *)
  getIntervalStart : AnnotatedTime -> scalar_t;
  getIntervalEnd : AnnotatedTime -> scalar_t;
  getIntervalDuration : AnnotatedTime -> AnnotatedTime -> scalar_t;
  timeDiscretizationWithEvents :
    scalar_t -> scalar_t -> scalar_t -> list scalar_t -> list AnnotatedTime;
  (** [MultipleShootingTranscription.h] *)
  setupEventNode :
    OptimalControlProblem -> scalar_t -> vector_t -> vector_t -> Transcription;
  setupIntermediateNode :
    OptimalControlProblem -> bool -> scalar_t -> scalar_t ->
    vector_t -> vector_t -> vector_t -> Transcription;
  setupTerminalNode : OptimalControlProblem -> scalar_t -> vector_t -> Transcription;
  computeEventPerformance :
    OptimalControlProblem -> scalar_t -> vector_t -> vector_t -> PerformanceIndex;
  computeIntermediatePerformance :
    OptimalControlProblem -> scalar_t -> scalar_t ->
    vector_t -> vector_t -> vector_t -> PerformanceIndex;
  computeTerminalPerformance :
    OptimalControlProblem -> scalar_t -> vector_t -> PerformanceIndex;
  (** [MultipleShootingInitialization.h] *)
  initializeEventNode : scalar_t -> vector_t -> vector_t;
  initializeIntermediateNode_primal :
    PrimalSolution -> scalar_t -> scalar_t -> vector_t -> bool -> vector_t * vector_t;
  initializeIntermediateNode_initializer :
    scalar_t -> scalar_t -> vector_t -> vector_t * vector_t;
  (** [HpipmInterface] *)
  hpipm_solve :
    HpipmInterface -> vector_t ->
    list VectorFunctionLinearApproximation ->
    list ScalarFunctionQuadraticApproximation ->
    option (list VectorFunctionLinearApproximation) ->
    HpipmInterface * hpipm_status * vector_array_t * vector_array_t;
  getRiccatiFeedback :
    HpipmInterface -> VectorFunctionLinearApproximation ->
    ScalarFunctionQuadraticApproximation -> matrix_array_t
}.

(** ** The solver *)

Section Solver.
Context `{Collaborators}.

(** The members of [MultipleShootingSolver] (timers and the thread pool
    left out); [referenceManager_] is the mode schedule that the reference
    manager hands out. *)
Record MultipleShootingSolver : Type := {
  settings_ : Settings;
  hpipmInterface_ : HpipmInterface;
  ocpDefinitions_ : list OptimalControlProblem;
  primalSolution_ : PrimalSolution;
  performanceIndeces_ : list PerformanceIndex;
  totalNumIterations_ : nat;
  dynamics_ : list VectorFunctionLinearApproximation;
  cost_ : list ScalarFunctionQuadraticApproximation;
  constraints_ : list VectorFunctionLinearApproximation;
  constraintsProjection_ : list VectorFunctionLinearApproximation;
  referenceManager_ : ModeSchedule
}.

(** The constructor. *)
Definition MultipleShootingSolver_new (settings : Settings)
    (optimalControlProblem : OptimalControlProblem)
    (hpipm : HpipmInterface) (referenceManager : ModeSchedule) : MultipleShootingSolver :=
  {| settings_ :=
       if Collection.empty (equalityConstraintPtr optimalControlProblem)
       then set_projectStateInputEqualityConstraints false settings
       else settings;
     hpipmInterface_ := hpipm;
     ocpDefinitions_ := replicate (nThreads settings) optimalControlProblem;
     primalSolution_ := PrimalSolution_default;
     performanceIndeces_ := [];
     totalNumIterations_ := O;
     dynamics_ := [];
     cost_ := [];
     constraints_ := [];
     constraintsProjection_ := [];
     referenceManager_ := referenceManager |}.

Definition reset (s : MultipleShootingSolver) : MultipleShootingSolver :=
  {| settings_ := settings_ s;
     hpipmInterface_ := hpipmInterface_ s;
     ocpDefinitions_ := ocpDefinitions_ s;
     primalSolution_ := PrimalSolution_default;
     performanceIndeces_ := [];
     totalNumIterations_ := O;
     dynamics_ := dynamics_ s;
     cost_ := cost_ s;
     constraints_ := constraints_ s;
     constraintsProjection_ := constraintsProjection_ s;
     referenceManager_ := referenceManager_ s |}.

Definition getIterationsLog (s : MultipleShootingSolver) : outcome (list PerformanceIndex) :=
  match performanceIndeces_ s with
  | [] => Throws (runtime_error
                    "[MultipleShootingSolver]: No performance log yet, no problem solved yet?")
  | _ :: _ => Returns (performanceIndeces_ s)
  end.

(** [ThreadPool::runParallel]: the workers write disjoint entries of the
    shared state, so they are run one after the other. *)
Definition runParallel {S : Type} (taskFunction : nat -> S -> outcome S) (n : nat) (s : S)
    : outcome S :=
  foldM (fun s workerId => taskFunction workerId s) s (seq 0 n).

(** The node indices that the counter hands out up to and including [N]. *)
Definition claimed (N : Z) : list nat := seq 0 (Z.to_nat (N + 1)).

(** Sum of the workers' results and the merit, at the end of both sweeps. *)
Definition totalPerformance (performance : list PerformanceIndex)
    (initState : vector_t) (x : vector_array_t) : outcome PerformanceIndex :=
  p0 <- front performance ;;
  x0 <- front x ;;
  let p0 := add_stateEqConstraintISE (squaredNorm (vsub initState x0)) p0 in
  let total := foldl PerformanceIndex_add p0 (tail performance) in
  Returns (set_merit (totalCost total + inequalityConstraintPenalty total) total).

Definition computePerformance (s : MultipleShootingSolver) (sched : Schedule)
    (timeDiscretization : list AnnotatedTime) (initState : vector_t)
    (x u : vector_array_t) : outcome PerformanceIndex :=
  let N := (Z.of_nat (length timeDiscretization) - 1)%Z in
  let performance := replicate (nThreads (settings_ s)) PerformanceIndex_zero in
  let parallelTask (workerId : nat) (performance : list PerformanceIndex) :=
    ocpDefinition <- at_ (ocpDefinitions_ s) workerId ;;
    workerPerformance <-
      foldM (fun workerPerformance i =>
        if decide (sched i mod nThreads (settings_ s) = workerId)%nat then
          if decide (Z.of_nat i < N)%Z then
            ti <- at_ timeDiscretization i ;;
            if decide (event ti = PreEvent) then
              xi <- at_ x i ;;
              xi1 <- at_ x (i + 1) ;;
              Returns (PerformanceIndex_add workerPerformance
                         (computeEventPerformance ocpDefinition (time ti) xi xi1))
            else
              ti1 <- at_ timeDiscretization (i + 1) ;;
              xi <- at_ x i ;;
              xi1 <- at_ x (i + 1) ;;
              ui <- at_ u i ;;
              Returns (PerformanceIndex_add workerPerformance
                         (computeIntermediatePerformance ocpDefinition
                            (getIntervalStart ti) (getIntervalDuration ti ti1) xi xi1 ui))
          else
            tN <- at_ timeDiscretization i ;;
            xN <- at_ x i ;;
            Returns (PerformanceIndex_add workerPerformance
                       (computeTerminalPerformance ocpDefinition (getIntervalStart tN) xN))
        else Returns workerPerformance)
        PerformanceIndex_zero (claimed N) ;;
    mine <- at_ performance workerId ;;
    assign performance workerId (PerformanceIndex_add mine workerPerformance)
  in
  performance <- runParallel parallelTask (nThreads (settings_ s)) performance ;;
  totalPerformance performance initState x.


(** The approximation buffers and the QP interface of [s] replaced. *)
Definition with_approximation
    (dyn : list VectorFunctionLinearApproximation)
    (cst : list ScalarFunctionQuadraticApproximation)
    (con proj : list VectorFunctionLinearApproximation)
    (s : MultipleShootingSolver) : MultipleShootingSolver :=
  {| settings_ := settings_ s;
     hpipmInterface_ := hpipmInterface_ s;
     ocpDefinitions_ := ocpDefinitions_ s;
     primalSolution_ := primalSolution_ s;
     performanceIndeces_ := performanceIndeces_ s;
     totalNumIterations_ := totalNumIterations_ s;
     dynamics_ := dyn;
     cost_ := cst;
     constraints_ := con;
     constraintsProjection_ := proj;
     referenceManager_ := referenceManager_ s |}.

Definition with_hpipmInterface (h : HpipmInterface)
    (s : MultipleShootingSolver) : MultipleShootingSolver :=
  {| settings_ := settings_ s;
     hpipmInterface_ := h;
     ocpDefinitions_ := ocpDefinitions_ s;
     primalSolution_ := primalSolution_ s;
     performanceIndeces_ := performanceIndeces_ s;
     totalNumIterations_ := totalNumIterations_ s;
     dynamics_ := dynamics_ s;
     cost_ := cost_ s;
     constraints_ := constraints_ s;
     constraintsProjection_ := constraintsProjection_ s;
     referenceManager_ := referenceManager_ s |}.

Definition with_primalSolution (p : PrimalSolution)
    (s : MultipleShootingSolver) : MultipleShootingSolver :=
  {| settings_ := settings_ s;
     hpipmInterface_ := hpipmInterface_ s;
     ocpDefinitions_ := ocpDefinitions_ s;
     primalSolution_ := p;
     performanceIndeces_ := performanceIndeces_ s;
     totalNumIterations_ := totalNumIterations_ s;
     dynamics_ := dynamics_ s;
     cost_ := cost_ s;
     constraints_ := constraints_ s;
     constraintsProjection_ := constraintsProjection_ s;
     referenceManager_ := referenceManager_ s |}.

Definition with_bookkeeping (log : list PerformanceIndex) (n : nat)
    (s : MultipleShootingSolver) : MultipleShootingSolver :=
  {| settings_ := settings_ s;
     hpipmInterface_ := hpipmInterface_ s;
     ocpDefinitions_ := ocpDefinitions_ s;
     primalSolution_ := primalSolution_ s;
     performanceIndeces_ := log;
     totalNumIterations_ := n;
     dynamics_ := dynamics_ s;
     cost_ := cost_ s;
     constraints_ := constraints_ s;
     constraintsProjection_ := constraintsProjection_ s;
     referenceManager_ := referenceManager_ s |}.

(** Writes the transcription of node [i] into the buffers. *)
Definition store_node (i : nat) (terminal : bool) (r : Transcription)
    (s : MultipleShootingSolver) : outcome MultipleShootingSolver :=
  cst <- assign (cost_ s) i (cost r) ;;
  con <- assign (constraints_ s) i (constraints r) ;;
  if terminal then
    Returns (with_approximation (dynamics_ s) cst con (constraintsProjection_ s) s)
  else
    dyn <- assign (dynamics_ s) i (dynamics r) ;;
    proj <- assign (constraintsProjection_ s) i (constraintsProjection r) ;;
    Returns (with_approximation dyn cst con proj s).

Definition setupQuadraticSubproblem (s : MultipleShootingSolver) (sched : Schedule)
    (timeDiscretization : list AnnotatedTime) (initState : vector_t)
    (x u : vector_array_t) : outcome (PerformanceIndex * MultipleShootingSolver) :=
  let N := (Z.of_nat (length timeDiscretization) - 1)%Z in
  let workers := replicate (nThreads (settings_ s)) PerformanceIndex_zero in
  if decide (N < 0)%Z then Throws length_error else
  let s :=
    with_approximation
      (resize_ (Z.to_nat N) VectorFunctionLinearApproximation_default (dynamics_ s))
      (resize_ (Z.to_nat (N + 1)) ScalarFunctionQuadraticApproximation_default (cost_ s))
      (resize_ (Z.to_nat (N + 1)) VectorFunctionLinearApproximation_default (constraints_ s))
      (resize_ (Z.to_nat N) VectorFunctionLinearApproximation_default (constraintsProjection_ s))
      s in
  let parallelTask (workerId : nat) (st : list PerformanceIndex * MultipleShootingSolver) :=
    ocpDefinition <- at_ (ocpDefinitions_ s) workerId ;;
    let projection := projectStateInputEqualityConstraints (settings_ s) in
    w <-
      foldM (fun (w : PerformanceIndex * MultipleShootingSolver) i =>
        if decide (sched i mod nThreads (settings_ s) = workerId)%nat then
          if decide (Z.of_nat i < N)%Z then
            ti <- at_ timeDiscretization i ;;
            if decide (event ti = PreEvent) then
              xi <- at_ x i ;;
              xi1 <- at_ x (i + 1) ;;
              let result := setupEventNode ocpDefinition (time ti) xi xi1 in
              s' <- store_node i false
                      {| performance := performance result;
                         dynamics := dynamics result;
                         cost := cost result;
                         constraints := constraints result;
                         constraintsProjection := Zero 0 (length xi) 0 |} w.2 ;;
              Returns (PerformanceIndex_add w.1 (performance result), s')
            else
              ti1 <- at_ timeDiscretization (i + 1) ;;
              xi <- at_ x i ;;
              xi1 <- at_ x (i + 1) ;;
              ui <- at_ u i ;;
              let result :=
                setupIntermediateNode ocpDefinition projection
                  (getIntervalStart ti) (getIntervalDuration ti ti1) xi xi1 ui in
              s' <- store_node i false result w.2 ;;
              Returns (PerformanceIndex_add w.1 (performance result), s')
          else
            tN <- at_ timeDiscretization i ;;
            xN <- at_ x i ;;
            let result := setupTerminalNode ocpDefinition (getIntervalStart tN) xN in
            s' <- store_node i true result w.2 ;;
            Returns (PerformanceIndex_add w.1 (performance result), s')
        else Returns w)
        (PerformanceIndex_zero, st.2) (claimed N) ;;
    mine <- at_ st.1 workerId ;;
    perf <- assign st.1 workerId (PerformanceIndex_add mine w.1) ;;
    Returns (perf, w.2)
  in
  st <- runParallel parallelTask (nThreads (settings_ s)) (workers, s) ;;
  total <- totalPerformance st.1 initState x ;;
  Returns (total, st.2).

Definition trajectoryNorm (v : vector_array_t) : scalar_t :=
  sqrt (foldl (fun norm vi => norm + squaredNorm vi) 0 v).

(** The lambda [constraintViolation] of [takeStep]. *)
Definition constraintViolation (performance : PerformanceIndex) : scalar_t :=
  sqrt (stateEqConstraintISE performance + stateInputEqConstraintISE performance
        + inequalityConstraintISE performance).

(** The lambda [stepAccepted] of [takeStep]. *)
Definition stepAccepted (settings : Settings) (baseline performanceNew : PerformanceIndex)
    (alpha armijoDescentMetric : scalar_t) : bool :=
  let baselineConstraintViolation := constraintViolation baseline in
  let newConstraintViolation := constraintViolation performanceNew in
  if Qltb (g_max settings) newConstraintViolation then false
  else if Qltb newConstraintViolation (g_min settings)
          && Qltb baselineConstraintViolation (g_min settings)
          && Qltb armijoDescentMetric 0
  then
    Qltb (merit performanceNew)
         (merit baseline + armijoFactor settings * alpha * armijoDescentMetric)
  else
    Qltb (merit performanceNew)
         (merit baseline - gamma_c settings * baselineConstraintViolation)
    || Qltb newConstraintViolation ((1 - gamma_c settings) * baselineConstraintViolation).

(** [alpha * deltaUnorm < deltaTol && alpha * deltaXnorm < deltaTol] *)
Definition stepSizeBelowTol (settings : Settings) (alpha deltaUnorm deltaXnorm : scalar_t) : bool :=
  Qltb (alpha * deltaUnorm) (deltaTol settings)
  && Qltb (alpha * deltaXnorm) (deltaTol settings).

(** [abs (baseline.merit - performanceNew.merit) < costTol &&
     newConstraintViolation < g_min] *)
Definition improvementBelowTol (settings : Settings)
    (baseline performanceNew : PerformanceIndex) : bool :=
  Qltb (Qabs (merit baseline - merit performanceNew)) (costTol settings)
  && Qltb (constraintViolation performanceNew) (g_min settings).

(** The candidate iterate for step length [alpha], written into the
    buffers [xNew] and [uNew] that live across the trials. *)
Definition computeStep (alpha : scalar_t) (x u dx du xNew uNew : vector_array_t)
    : outcome (vector_array_t * vector_array_t) :=
  uNew <- foldM (fun uNew i =>
            dui <- at_ du i ;;
            if decide (0 < length dui)%nat then
              ui <- at_ u i ;;
              assign uNew i (vadd ui (vscale alpha dui))
            else Returns uNew) uNew (seq 0 (length u)) ;;
  xNew <- foldM (fun xNew i =>
            xi <- at_ x i ;;
            dxi <- at_ dx i ;;
            assign xNew i (vadd xi (vscale alpha dxi))) xNew (seq 0 (length x)) ;;
  Returns (xNew, uNew).

(** What [takeStep] hands back: the return value and the iterate [(x, u)]
    that it updates in place. *)
Record StepInfo : Type := {
  converged : bool;
  stepPerformance : PerformanceIndex;
  x_out : vector_array_t;
  u_out : vector_array_t
}.

(** The [do ... while (alpha > alpha_min)] loop of [takeStep], entered with
    step length [alpha] for trial number [k]. *)
Fixpoint lineSearch (fuel : nat) (s : MultipleShootingSolver) (sched : nat -> Schedule)
    (baseline : PerformanceIndex) (timeDiscretization : list AnnotatedTime)
    (initState : vector_t) (subproblemSolution : OcpSubproblemSolution)
    (x u : vector_array_t) (k : nat) (alpha : scalar_t)
    (xNew uNew : vector_array_t) : outcome StepInfo :=
  match fuel with
  | O => OutOfFuel
  | S fuel =>
      let dx := deltaXSol subproblemSolution in
      let du := deltaUSol subproblemSolution in
      let deltaUnorm := trajectoryNorm du in
      let deltaXnorm := trajectoryNorm dx in
      new <- computeStep alpha x u dx du xNew uNew ;;
      performanceNew <- computePerformance s (sched k) timeDiscretization initState new.1 new.2 ;;
      if stepAccepted (settings_ s) baseline performanceNew alpha
                      (armijoDescentMetric subproblemSolution)
      then
        Returns {| converged := stepSizeBelowTol (settings_ s) alpha deltaUnorm deltaXnorm
                                || improvementBelowTol (settings_ s) baseline performanceNew;
                   stepPerformance := performanceNew;
                   x_out := new.1;
                   u_out := new.2 |}
      else if stepSizeBelowTol (settings_ s) alpha deltaUnorm deltaXnorm then
        Returns {| converged := true; stepPerformance := baseline; x_out := x; u_out := u |}
      else
        let alpha := alpha * alpha_decay (settings_ s) in
        if Qltb (alpha_min (settings_ s)) alpha then
          lineSearch fuel s sched baseline timeDiscretization initState subproblemSolution
                     x u (S k) alpha new.1 new.2
        else
          Returns {| converged := true; stepPerformance := baseline; x_out := x; u_out := u |}
  end.

Definition takeStep (fuel : nat) (s : MultipleShootingSolver) (sched : nat -> Schedule)
    (baseline : PerformanceIndex) (timeDiscretization : list AnnotatedTime)
    (initState : vector_t) (subproblemSolution : OcpSubproblemSolution)
    (x u : vector_array_t) : outcome StepInfo :=
  lineSearch fuel s sched baseline timeDiscretization initState subproblemSolution
             x u O 1 (replicate (length x) []) (replicate (length u) []).


(** [gradient(cost)' * [dx; du]] summed over the nodes of [cost_]. *)
Definition descentMetric (cst : list ScalarFunctionQuadraticApproximation)
    (deltaX deltaU : vector_array_t) : outcome scalar_t :=
  foldM (fun metric i =>
    ci <- at_ cst i ;;
    metric <- (if decide (0 < length (q_dfdx ci))%nat then
                 dxi <- at_ deltaX i ;; Returns (metric + dot (q_dfdx ci) dxi)
               else Returns metric) ;;
    if decide (0 < length (q_dfdu ci))%nat then
      dui <- at_ deltaU i ;; Returns (metric + dot (q_dfdu ci) dui)
    else Returns metric) 0 (seq 0 (length cst)).

(** "remap the tilde delta u to real delta u" *)
Definition remapProjectedInput (proj : list VectorFunctionLinearApproximation)
    (deltaX deltaU : vector_array_t) : outcome vector_array_t :=
  foldM (fun deltaU i =>
    pi <- at_ proj i ;;
    if decide (0 < length (f pi))%nat then
      dui <- at_ deltaU i ;;
      dxi <- at_ deltaX i ;;
      let tmp := mvmul (dfdu pi) dui in
      assign deltaU i (vadd (vadd tmp (f pi)) (mvmul (dfdx pi) dxi))
    else Returns deltaU) deltaU (seq 0 (length deltaU)).

(** "Solve the QP": with the constraints when there are some and they are
    not projected out, without them otherwise. *)
Definition solveQP (s : MultipleShootingSolver) (ocp0 : OptimalControlProblem)
    (delta_x0 : vector_t)
    : HpipmInterface * hpipm_status * vector_array_t * vector_array_t :=
  let hasStateInputConstraints := negb (Collection.empty (equalityConstraintPtr ocp0)) in
  if hasStateInputConstraints && negb (projectStateInputEqualityConstraints (settings_ s))
  then hpipm_solve (hpipmInterface_ s) delta_x0 (dynamics_ s) (cost_ s) (Some (constraints_ s))
  else hpipm_solve (hpipmInterface_ s) delta_x0 (dynamics_ s) (cost_ s) None.

Definition getOCPSolution (s : MultipleShootingSolver) (delta_x0 : vector_t)
    : outcome (OcpSubproblemSolution * MultipleShootingSolver) :=
  ocp0 <- front (ocpDefinitions_ s) ;;
  let '(h, status, deltaX, deltaU) := solveQP s ocp0 delta_x0 in
  if decide (status <> SUCCESS) then
    Throws (runtime_error "[MultipleShootingSolver] Failed to solve QP")
  else
    metric <- descentMetric (cost_ s) deltaX deltaU ;;
    deltaU <- (if projectStateInputEqualityConstraints (settings_ s)
               then remapProjectedInput (constraintsProjection_ s) deltaX deltaU
               else Returns deltaU) ;;
    Returns ({| deltaXSol := deltaX; deltaUSol := deltaU; armijoDescentMetric := metric |},
             with_hpipmInterface h s).

(** "Correct for missing inputs at PreEvents" *)
Definition repeatInputAtPreEvents (timeDiscretization : list AnnotatedTime)
    (u : vector_array_t) : outcome vector_array_t :=
  foldM (fun u i =>
    ti <- at_ timeDiscretization i ;;
    if decide (event ti = PreEvent /\ 0 < i)%nat then
      prev <- at_ u (i - 1) ;;
      assign u i prev
    else Returns u) u (seq 0 (length timeDiscretization)).

(** A projection whose [dfdx] was moved out. *)
Definition stolen (p : VectorFunctionLinearApproximation) : VectorFunctionLinearApproximation :=
  {| dfdx := []; dfdu := dfdu p; f := f p |}.

(** The feedback loop of [setPrimalSolution]: the state is
    [(uff, controllerGain, constraintsProjection_)]. *)
Definition feedbackLoop (timeDiscretization : list AnnotatedTime)
    (KMatrices : matrix_array_t) (x : vector_array_t)
    (st : vector_array_t * matrix_array_t * list VectorFunctionLinearApproximation)
    : outcome (vector_array_t * matrix_array_t * list VectorFunctionLinearApproximation) :=
  foldM (fun st i =>
    let '(uff, controllerGain, proj) := st in
    ti <- at_ timeDiscretization i ;;
    if decide (event ti = PreEvent /\ 0 < i)%nat then
      prev <- at_ uff (i - 1) ;;
      uff <- assign uff i prev ;;
      g <- back controllerGain ;;
      Returns (uff, controllerGain ++ [g], proj)
    else
      pi <- at_ proj i ;;
      Ki <- at_ KMatrices i ;;
      let g := if decide (0 < length (f pi))%nat
               then madd (dfdx pi) (mmul (dfdu pi) Ki) else Ki in
      proj' <- (if decide (0 < length (f pi))%nat
                then assign proj i (stolen pi) else Returns proj) ;;
      uffi <- at_ uff i ;;
      xi <- at_ x i ;;
      uff <- assign uff i (vsub uffi (mvmul g xi)) ;;
      Returns (uff, controllerGain ++ [g], proj'))
    st (seq 0 (length timeDiscretization - 1)).

Definition setPrimalSolution (s : MultipleShootingSolver)
    (timeDiscretization : list AnnotatedTime) (x u : vector_array_t)
    : outcome MultipleShootingSolver :=
  u <- repeatInputAtPreEvents timeDiscretization u ;;
  fb <- (if useFeedbackPolicy (settings_ s) then
           d0 <- at_ (dynamics_ s) 0 ;;
           c0 <- at_ (cost_ s) 0 ;;
           let KMatrices := getRiccatiFeedback (hpipmInterface_ s) d0 c0 in
           st <- feedbackLoop timeDiscretization KMatrices x
                   (u, [], constraintsProjection_ s) ;;
           let '(uff, controllerGain, proj) := st in
           lastUff <- back uff ;;
           lastGain <- back controllerGain ;;
           Returns (uff ++ [lastUff], controllerGain ++ [lastGain], proj)
         else Returns ([], [], constraintsProjection_ s)) ;;
  let '(uff, controllerGain, proj) := fb in
  lastU <- back u ;;
  let inputTrajectory := u ++ [lastU] in
  let timeTrajectory := map time timeDiscretization in
  Returns
    (with_primalSolution
       {| timeTrajectory_ := timeTrajectory;
          stateTrajectory_ := x;
          inputTrajectory_ := inputTrajectory;
          modeSchedule_ := referenceManager_ s;
          controllerPtr_ :=
            Some (if useFeedbackPolicy (settings_ s)
                  then LinearController timeTrajectory uff controllerGain
                  else FeedforwardController timeTrajectory inputTrajectory) |}
       (with_approximation (dynamics_ s) (cost_ s) (constraints_ s) proj s)).

Definition initializeStateInputTrajectories (s : MultipleShootingSolver)
    (initState : vector_t) (timeDiscretization : list AnnotatedTime)
    : outcome (vector_array_t * vector_array_t) :=
  let N := (Z.of_nat (length timeDiscretization) - 1)%Z in
  if decide (N < 0)%Z then Throws length_error else
  interpolateTill <-
    (if decide (0 < totalNumIterations_ s)%nat
     then back (timeTrajectory_ (primalSolution_ s))
     else t0 <- front timeDiscretization ;; Returns (time t0)) ;;
  foldM (fun (tr : vector_array_t * vector_array_t) i =>
    let '(stateTrajectory, inputTrajectory) := tr in
    ti <- at_ timeDiscretization i ;;
    lastState <- back stateTrajectory ;;
    if decide (event ti = PreEvent) then
      Returns (stateTrajectory ++ [initializeEventNode (time ti) lastState],
               inputTrajectory ++ [[]])
    else
      ti1 <- at_ timeDiscretization (i + 1) ;;
      let tStart := getIntervalStart ti in
      let nextTime := getIntervalEnd ti1 in
      let '(input, nextState) :=
        if Qltb tStart interpolateTill then
          let useController := bool_decide (i = 0)%nat in
          initializeIntermediateNode_primal (primalSolution_ s) tStart nextTime
                                            lastState useController
        else initializeIntermediateNode_initializer tStart nextTime lastState in
      Returns (stateTrajectory ++ [nextState], inputTrajectory ++ [input]))
    ([initState], []) (seq 0 (Z.to_nat N)).

(** The SQP loop of [runImpl], with [remaining] iterations to go;
    [sched iter 0] drives the approximation sweep of iteration [iter] and
    [sched iter (S k)] the sweep of its [k]-th line-search trial. *)
Fixpoint sqpLoop (remaining : nat) (fuel : nat) (sched : nat -> nat -> Schedule)
    (timeDiscretization : list AnnotatedTime) (initState : vector_t) (iter : nat)
    (s : MultipleShootingSolver) (x u : vector_array_t)
    : outcome (MultipleShootingSolver * vector_array_t * vector_array_t) :=
  match remaining with
  | O => Returns (s, x, u)
  | S remaining =>
      setup <- setupQuadraticSubproblem s (sched iter O) timeDiscretization initState x u ;;
      let '(baselinePerformance, s) := setup in
      x0 <- at_ x 0 ;;
      let delta_x0 := vsub initState x0 in
      qp <- getOCPSolution s delta_x0 ;;
      let '(deltaSolution, s) := qp in
      stepInfo <- takeStep fuel s (fun k => sched iter (S k)) baselinePerformance
                    timeDiscretization initState deltaSolution x u ;;
      let s := with_bookkeeping (performanceIndeces_ s ++ [stepPerformance stepInfo])
                                (S (totalNumIterations_ s)) s in
      if converged stepInfo then Returns (s, x_out stepInfo, u_out stepInfo)
      else sqpLoop remaining fuel sched timeDiscretization initState (S iter) s
                   (x_out stepInfo) (u_out stepInfo)
  end.

Definition runImpl (fuel : nat) (sched : nat -> nat -> Schedule)
    (s : MultipleShootingSolver) (initTime : scalar_t) (initState : vector_t)
    (finalTime : scalar_t) : outcome MultipleShootingSolver :=
  let timeDiscretization :=
    timeDiscretizationWithEvents initTime finalTime (dt (settings_ s))
                                 (eventTimes (referenceManager_ s)) in
  xu <- initializeStateInputTrajectories s initState timeDiscretization ;;
  let s := with_bookkeeping [] (totalNumIterations_ s) s in
  r <- sqpLoop (sqpIteration (settings_ s)) fuel sched timeDiscretization initState O
               s xu.1 xu.2 ;;
  let '(s, x, u) := r in
  setPrimalSolution s timeDiscretization x u.

End Solver.

(** ** The acceptance test on doubles *)

(** [scalar_t] is [double]. The lambdas [constraintViolation] and
    [stepAccepted] of [takeStep] once more, to the letter, over IEEE 754
    binary64 numbers: with the infinities, NaN, the signed zeros and the
    rounding to nearest of every operation. *)
Module Double.

Abbreviation double := SpecFloat.spec_float.

Definition prec : Z := 53%Z.
Definition emax : Z := 1024%Z.

Definition add : double -> double -> double := SpecFloat.SFadd prec emax.
Definition sub : double -> double -> double := SpecFloat.SFsub prec emax.
Definition mul : double -> double -> double := SpecFloat.SFmul prec emax.
Definition div : double -> double -> double := SpecFloat.SFdiv prec emax.
Definition sqrt : double -> double := SpecFloat.SFsqrt prec emax.

(** [a < b], [a > b] and [a <= b]: each is false as soon as an operand is
    NaN. *)
Definition lt (a b : double) : bool := SpecFloat.SFltb a b.
Definition gt (a b : double) : bool := SpecFloat.SFltb b a.
Definition le (a b : double) : bool := SpecFloat.SFleb a b.

Definition isnan (a : double) : bool :=
  match a with
  | SpecFloat.S754_nan => true
  | _ => false
  end.

Definition nan : double := SpecFloat.S754_nan.

(** The double of an integer literal: [0.0] is [of_Z 0], [1.0] is
    [of_Z 1]. *)
Definition of_Z (n : Z) : double := SpecFloat.binary_normalize prec emax n 0%Z false.

Record PerformanceIndex : Type := {
  merit : double;
  totalCost : double;
  stateEqConstraintISE : double;
  stateInputEqConstraintISE : double;
  inequalityConstraintISE : double;
  inequalityConstraintPenalty : double
}.

(** The settings that the test reads. *)
Record Settings : Type := {
  gamma_c : double;
  g_max : double;
  g_min : double;
  armijoFactor : double
}.

(** The lambda [constraintViolation] of [takeStep]. *)
Definition constraintViolation (performance : PerformanceIndex) : double :=
  sqrt (add (add (stateEqConstraintISE performance) (stateInputEqConstraintISE performance))
            (inequalityConstraintISE performance)).

(** The lambda [stepAccepted] of [takeStep]. *)
Definition stepAccepted (settings : Settings) (baseline performanceNew : PerformanceIndex)
    (alpha armijoDescentMetric : double) : bool :=
  let baselineConstraintViolation := constraintViolation baseline in
  let newConstraintViolation := constraintViolation performanceNew in
  if gt newConstraintViolation (g_max settings) then false
  else if lt newConstraintViolation (g_min settings)
          && lt baselineConstraintViolation (g_min settings)
          && lt armijoDescentMetric (of_Z 0)
  then
    lt (merit performanceNew)
       (add (merit baseline) (mul (mul (armijoFactor settings) alpha) armijoDescentMetric))
  else
    lt (merit performanceNew)
       (sub (merit baseline) (mul (gamma_c settings) baselineConstraintViolation))
    || lt newConstraintViolation
          (mul (sub (of_Z 1) (gamma_c settings)) baselineConstraintViolation).

(** *** A candidate whose violation is not a number *)

(** [g_max = 1e6], [g_min = 1e-6], [gamma_c = 1e-6], [armijoFactor = 1e-4]. *)
Definition defaults : Settings :=
  {| gamma_c := div (of_Z 1) (of_Z 1000000);
     g_max := of_Z 1000000;
     g_min := div (of_Z 1) (of_Z 1000000);
     armijoFactor := div (of_Z 1) (of_Z 10000) |}.

(** A feasible baseline of merit [2], a candidate of merit [0] whose
    state-equality violation is NaN, and one of merit [0] with
    [theta = 2e6]. *)
Definition feasible : PerformanceIndex :=
  {| merit := of_Z 2; totalCost := of_Z 2; stateEqConstraintISE := of_Z 0;
     stateInputEqConstraintISE := of_Z 0; inequalityConstraintISE := of_Z 0;
     inequalityConstraintPenalty := of_Z 0 |}.

Definition undetermined : PerformanceIndex :=
  {| merit := of_Z 0; totalCost := of_Z 0; stateEqConstraintISE := nan;
     stateInputEqConstraintISE := of_Z 0; inequalityConstraintISE := of_Z 0;
     inequalityConstraintPenalty := of_Z 0 |}.

Definition violating : PerformanceIndex :=
  {| merit := of_Z 0; totalCost := of_Z 0; stateEqConstraintISE := of_Z 4000000000000;
     stateInputEqConstraintISE := of_Z 0; inequalityConstraintISE := of_Z 0;
     inequalityConstraintPenalty := of_Z 0 |}.

End Double.

(** ** A small problem to run the solver on *)

(** A scalar integrator [x' = u] with running cost [x^2 + u^2], written as
    an instance of the collaborators: the problem is its collection of
    equality constraints, and the QP interface replays a prepared answer. *)
Module Example.

Record Replay : Type := {
  answer_status : hpipm_status;
  answer_x : vector_array_t;
  answer_u : vector_array_t;
  answer_K : matrix_array_t
}.

(** A square root that is exact on squares of rationals. *)
Definition Qsqrt (q : Q) : Q :=
  let r := Qred q in Z.sqrt (Qnum r) # Pos.sqrt (Qden r).

Definition perf (c e : Q) : PerformanceIndex :=
  {| merit := 0; totalCost := c; stateEqConstraintISE := e;
     stateInputEqConstraintISE := 0; inequalityConstraintISE := 0;
     inequalityConstraintPenalty := 0 |}.

Definition intermediatePerformance (h : Q) (x x1 u : vector_t) : PerformanceIndex :=
  perf (h * (squaredNorm x + squaredNorm u))
       (squaredNorm (vsub x1 (vadd x (vscale h u)))).

(** With [projection], the equality constraint [u = 1] is eliminated by
    [du = 1 * du_tilde + 0 * dx + (1 - u)]. *)
Definition intermediateNode (projection : bool) (h : Q) (x x1 u : vector_t) : Transcription :=
  {| performance := intermediatePerformance h x x1 u;
     dynamics := {| dfdx := [[1]]; dfdu := [[h]];
                    f := vsub (vadd x (vscale h u)) x1 |};
     cost := {| q_dfdxx := [[2 * h]]; q_dfdux := [[0]]; q_dfduu := [[2 * h]];
                q_dfdx := vscale (2 * h) x; q_dfdu := vscale (2 * h) u;
                q_f := h * (squaredNorm x + squaredNorm u) |};
     constraints := Zero 0 1 1;
     constraintsProjection :=
       if projection
       then {| dfdx := [[0]]; dfdu := [[1]]; f := vsub [1] u |}
       else Zero 0 1 1 |}.

Definition eventNode (x x1 : vector_t) : Transcription :=
  {| performance := perf 0 (squaredNorm (vsub x1 x));
     dynamics := {| dfdx := [[1]]; dfdu := []; f := vsub x x1 |};
     cost := ScalarFunctionQuadraticApproximation_default;
     constraints := Zero 0 1 0;
     constraintsProjection := Zero 0 1 0 |}.

Definition terminalNode (x : vector_t) : Transcription :=
  {| performance := perf (squaredNorm x) 0;
     dynamics := VectorFunctionLinearApproximation_default;
     cost := {| q_dfdxx := [[2]]; q_dfdux := []; q_dfduu := [];
                q_dfdx := vscale 2 x; q_dfdu := []; q_f := squaredNorm x |};
     constraints := Zero 0 1 0;
     constraintsProjection := Zero 0 1 0 |}.

#[global] Instance collaborators : Collaborators := {|
  OptimalControlProblem := Collection.t nat;
  StateInputConstraint := nat;
  equalityConstraintPtr := fun ocp => ocp;
  HpipmInterface := Replay;
  sqrt := Qsqrt;
  getIntervalStart := time;
  getIntervalEnd := time;
  getIntervalDuration := fun a b => time b - time a;
  timeDiscretizationWithEvents := fun t0 tf h _ =>
    [ {| time := t0; event := Event_None |}; {| time := tf; event := Event_None |} ];
  setupEventNode := fun _ _ x x1 => eventNode x x1;
  setupIntermediateNode := fun _ projection _ h x x1 u => intermediateNode projection h x x1 u;
  setupTerminalNode := fun _ _ x => terminalNode x;
  computeEventPerformance := fun _ _ x x1 => perf 0 (squaredNorm (vsub x1 x));
  computeIntermediatePerformance := fun _ _ h x x1 u => intermediatePerformance h x x1 u;
  computeTerminalPerformance := fun _ _ x => perf (squaredNorm x) 0;
  initializeEventNode := fun _ x => x;
  initializeIntermediateNode_primal := fun _ _ _ x _ => ([0], x);
  initializeIntermediateNode_initializer := fun _ _ x => ([0], x);
  hpipm_solve := fun h _ _ _ _ => (h, answer_status h, answer_x h, answer_u h);
  getRiccatiFeedback := fun h _ _ => answer_K h
|}.

Definition settings : Settings :=
  {| sqpIteration := 2; deltaTol := 1 # 1000; costTol := 1 # 1000;
     alpha_decay := 1 # 2; alpha_min := 1 # 10; gamma_c := 1 # 1000;
     g_max := 10; g_min := 1 # 1000; armijoFactor := 1 # 10; dt := 1;
     useFeedbackPolicy := true; projectStateInputEqualityConstraints := true;
     printSolverStatus := false; printSolverStatistics := false;
     printLinesearch := false; nThreads := 2 |}.

(** The problem without and with one equality constraint. *)
Definition unconstrained : Collection.t nat := Collection.new.
Definition constrained : Collection.t nat := (Collection.add "u_is_one" 7%nat Collection.new).2.

Definition replay : Replay :=
  {| answer_status := SUCCESS;
     answer_x := [[0]; [-1 # 2]];
     answer_u := [[-1 # 2]];
     answer_K := [[[-1 # 2]]] |}.

Definition noSchedule : ModeSchedule := ModeSchedule_default.

(** Node [i] goes to worker [i mod nThreads] in every sweep. *)
Definition roundRobin : nat -> nat -> Schedule := fun _ _ i => i.

(** A grid with an event at [t = 1]. *)
Definition grid : list AnnotatedTime :=
  [ {| time := 0; event := Event_None |}; {| time := 1; event := Event_None |} ].

Definition eventGrid : list AnnotatedTime :=
  [ {| time := 0; event := Event_None |}; {| time := 1; event := PreEvent |};
    {| time := 1; event := PostEvent |}; {| time := 2; event := Event_None |} ].

Definition solver (cfg : Settings) (ocp : Collection.t nat) (qp : Replay)
    : MultipleShootingSolver :=
  MultipleShootingSolver_new cfg ocp qp noSchedule.

(** The solver after the approximation sweep at the iterate [(x, u)]. *)
Definition approximated (cfg : Settings) (ocp : Collection.t nat) (qp : Replay)
    (timeDiscretization : list AnnotatedTime) (initState : vector_t)
    (x u : vector_array_t) : MultipleShootingSolver :=
  match setupQuadraticSubproblem (solver cfg ocp qp) (roundRobin O O)
                                 timeDiscretization initState x u with
  | Returns (_, s) => s
  | _ => solver cfg ocp qp
  end.

(** An iterate on [grid] and its performance. *)
Definition x0 : vector_array_t := [[1]; [1]].
Definition u0 : vector_array_t := [[0]].
Definition baseline0 : PerformanceIndex :=
  {| merit := 2; totalCost := 2; stateEqConstraintISE := 0;
     stateInputEqConstraintISE := 0; inequalityConstraintISE := 0;
     inequalityConstraintPenalty := 0 |}.

(** A step that raises the cost, and one that lowers it. *)
Definition uphill : OcpSubproblemSolution :=
  {| deltaXSol := [[0]; [3]]; deltaUSol := [[3]]; armijoDescentMetric := 1 |}.
Definition downhill : OcpSubproblemSolution :=
  {| deltaXSol := [[0]; [-3 # 5]]; deltaUSol := [[-3 # 5]]; armijoDescentMetric := -1 |}.

(** Settings with a coarse step tolerance, no cost tolerance and a high
    floor for the step length. *)
Definition coarse : Settings :=
  {| sqpIteration := 2; deltaTol := 1; costTol := 0;
     alpha_decay := 1 # 2; alpha_min := 3 # 10; gamma_c := 1 # 1000;
     g_max := 10; g_min := 1 # 1000; armijoFactor := 1 # 10; dt := 1;
     useFeedbackPolicy := true; projectStateInputEqualityConstraints := true;
     printSolverStatus := false; printSolverStatistics := false;
     printLinesearch := false; nThreads := 2 |}.

(** An iterate on [eventGrid] (no input at the event node), and the gains
    that the QP interface reports for it. *)
Definition xEvent : vector_array_t := [[1]; [1]; [1]; [1]].
Definition uEvent : vector_array_t := [[2]; []; [3]].
Definition replayEvent : Replay :=
  {| answer_status := SUCCESS;
     answer_x := [[0]; [-1 # 2]; [-1 # 2]; [-1]];
     answer_u := [[-1 # 2]; []; [-1 # 2]];
     answer_K := [[[-1 # 2]]; []; [[-1 # 3]]] |}.

(** The value that a call returned, [d] if it did not return. *)
Definition returned {A : Type} (d : A) (o : outcome A) : A :=
  match o with
  | Returns a => a
  | _ => d
  end.

(** The line search from [(x0, u0)] with the settings [coarse]: the second
    candidate of the step [uphill] and the first of the step [downhill],
    with their performances. *)
Definition searching : MultipleShootingSolver := solver coarse unconstrained replay.

Definition uphill1 : vector_array_t * vector_array_t :=
  returned ([], [])
    (computeStep (1 * (1 # 2)) x0 u0 (deltaXSol uphill) (deltaUSol uphill) [[1]; [4]] [[3]]).

Definition uphillPerformance1 : PerformanceIndex :=
  returned PerformanceIndex_zero
    (computePerformance searching (roundRobin O 1%nat) grid [1] uphill1.1 uphill1.2).

Definition downhill0 : vector_array_t * vector_array_t :=
  returned ([], [])
    (computeStep 1 x0 u0 (deltaXSol downhill) (deltaUSol downhill) [[]; []] [[]]).

Definition downhillPerformance0 : PerformanceIndex :=
  returned PerformanceIndex_zero
    (computePerformance searching (roundRobin O O) grid [1] downhill0.1 downhill0.2).

Definition downhillStep : StepInfo :=
  returned {| converged := false; stepPerformance := PerformanceIndex_zero;
              x_out := []; u_out := [] |}
    (takeStep 1 searching (roundRobin O) baseline0 grid [1] downhill x0 u0).

(** The constrained problem, approximated at [(x0, [[2]])] with the
    projection enabled, and the step that [getOCPSolution] returns there. *)
Definition projected : MultipleShootingSolver :=
  approximated settings constrained replay grid [1] x0 [[2]].

Definition projectedStep : OcpSubproblemSolution * MultipleShootingSolver :=
  returned ({| deltaXSol := []; deltaUSol := []; armijoDescentMetric := 0 |}, projected)
    (getOCPSolution projected [0]).

(** The problem on [eventGrid], approximated at [(xEvent, uEvent)], and the
    solver after [setPrimalSolution]. *)
Definition withEvent : MultipleShootingSolver :=
  approximated settings unconstrained replayEvent eventGrid [1] xEvent uEvent.

Definition assembled : MultipleShootingSolver :=
  returned withEvent (setPrimalSolution withEvent eventGrid xEvent uEvent).

End Example.

(** ** Vocabulary of the statements *)

Section Vocabulary.
Context `{Collaborators}.

(** [s'] has the iteration log and the iteration count of [s]. *)
Definition same_bookkeeping (s s' : MultipleShootingSolver) : Prop :=
  performanceIndeces_ s' = performanceIndeces_ s
  /\ totalNumIterations_ s' = totalNumIterations_ s
  /\ settings_ s' = settings_ s.

Definition no_log_yet : exception :=
  runtime_error "[MultipleShootingSolver]: No performance log yet, no problem solved yet?".

(** *** The trials of the line search *)

Section LineSearch.
Variables (s : MultipleShootingSolver) (sched : nat -> Schedule)
          (baseline : PerformanceIndex) (timeDiscretization : list AnnotatedTime)
          (initState : vector_t) (subproblemSolution : OcpSubproblemSolution)
          (x u : vector_array_t).

(** [Ready k alpha xNew uNew]: the loop of [takeStep] enters its [k]-th
    turn with step length [alpha] and the buffers [xNew], [uNew]; every
    earlier candidate was computed and rejected, and the loop went on. *)
Inductive Ready : nat -> scalar_t -> vector_array_t -> vector_array_t -> Prop :=
| Ready_first :
    Ready O 1 (replicate (length x) []) (replicate (length u) [])
| Ready_next k alpha xNew uNew new performanceNew :
    Ready k alpha xNew uNew ->
    computeStep alpha x u (deltaXSol subproblemSolution)
                (deltaUSol subproblemSolution) xNew uNew = Returns new ->
    computePerformance s (sched k) timeDiscretization initState new.1 new.2
      = Returns performanceNew ->
    stepAccepted (settings_ s) baseline performanceNew alpha
                 (armijoDescentMetric subproblemSolution) = false ->
    stepSizeBelowTol (settings_ s) alpha
                     (trajectoryNorm (deltaUSol subproblemSolution))
                     (trajectoryNorm (deltaXSol subproblemSolution)) = false ->
    Qltb (alpha_min (settings_ s)) (alpha * alpha_decay (settings_ s)) = true ->
    Ready (S k) (alpha * alpha_decay (settings_ s)) new.1 new.2.

(** The same by running the loop: the step length and the buffers with
    which the [k]-th turn is entered, if the loop gets that far. *)
Fixpoint readyAt (k : nat) : option (scalar_t * vector_array_t * vector_array_t) :=
  match k with
  | O => Some (1, replicate (length x) [], replicate (length u) [])
  | S k =>
      match readyAt k with
      | Some (alpha, xNew, uNew) =>
          match computeStep alpha x u (deltaXSol subproblemSolution)
                            (deltaUSol subproblemSolution) xNew uNew with
          | Returns new =>
              match computePerformance s (sched k) timeDiscretization initState
                                       new.1 new.2 with
              | Returns performanceNew =>
                  if negb (stepAccepted (settings_ s) baseline performanceNew alpha
                                        (armijoDescentMetric subproblemSolution))
                     && negb (stepSizeBelowTol (settings_ s) alpha
                                (trajectoryNorm (deltaUSol subproblemSolution))
                                (trajectoryNorm (deltaXSol subproblemSolution)))
                     && Qltb (alpha_min (settings_ s)) (alpha * alpha_decay (settings_ s))
                  then Some (alpha * alpha_decay (settings_ s), new.1, new.2)
                  else None
              | _ => None
              end
          | _ => None
          end
      | None => None
      end
  end.

(** [Trial k alpha xNew uNew performanceNew]: the [k]-th turn of the loop
    tries step length [alpha], the candidate iterate is [(xNew, uNew)]
    and its performance is [performanceNew]. *)
Definition Trial (k : nat) (alpha : scalar_t) (xNew uNew : vector_array_t)
    (performanceNew : PerformanceIndex) : Prop :=
  exists xBuffer uBuffer,
    Ready k alpha xBuffer uBuffer
    /\ computeStep alpha x u (deltaXSol subproblemSolution)
                   (deltaUSol subproblemSolution) xBuffer uBuffer
         = Returns (xNew, uNew)
    /\ computePerformance s (sched k) timeDiscretization initState xNew uNew
         = Returns performanceNew.

(** What [takeStep] hands back for an accepted candidate. *)
Definition accepted (alpha : scalar_t) (xNew uNew : vector_array_t)
    (performanceNew : PerformanceIndex) : StepInfo :=
  {| converged :=
       stepSizeBelowTol (settings_ s) alpha
                        (trajectoryNorm (deltaUSol subproblemSolution))
                        (trajectoryNorm (deltaXSol subproblemSolution))
       || improvementBelowTol (settings_ s) baseline performanceNew;
     stepPerformance := performanceNew;
     x_out := xNew;
     u_out := uNew |}.

(** What it hands back when it gives up: converged, the baseline, and
    the iterate as it was. *)
Definition stalled : StepInfo :=
  {| converged := true; stepPerformance := baseline; x_out := x; u_out := u |}.

End LineSearch.

(** The merit as the specification words it, for a penalty on the other
    (equality and state) violations:
    [totalCost + inequalityPenalty + penalties(other violations)]. *)
Definition merit_as_specified (penalties : PerformanceIndex -> scalar_t)
    (p : PerformanceIndex) : scalar_t :=
  totalCost p + inequalityConstraintPenalty p + penalties p.

(** [sum_i (dfdx_i . dx_i + dfdu_i . du_i)] over the nodes of [cst]; a
    missing step counts as the empty vector. *)
Definition gradientDotStep (cst : list ScalarFunctionQuadraticApproximation)
    (deltaX deltaU : vector_array_t) : scalar_t :=
  Qsum (map (fun i =>
               match cst !! i with
               | Some ci => dot (q_dfdx ci) (default [] (deltaX !! i))
                            + dot (q_dfdu ci) (default [] (deltaU !! i))
               | None => 0
               end) (seq 0 (length cst))).

(** [P_u * du_tilde + p0 + P_x * dx] for a projection [{P_x, P_u, p0}]. *)
Definition expandInput (p : VectorFunctionLinearApproximation)
    (deltaUtilde deltaX : vector_t) : vector_t :=
  vadd (vadd (mvmul (dfdu p) deltaUtilde) (f p)) (mvmul (dfdx p) deltaX).

(** The gain of a node in the original coordinates: [P_x + P_u * K] where
    the projection [{P_x, P_u, p0}] of the node is not empty, [K] itself
    where it is. *)
Definition nodeGain (p : VectorFunctionLinearApproximation) (K : matrix_t) : matrix_t :=
  if decide (0 < length (f p))%nat then madd (dfdx p) (mmul (dfdu p) K) else K.

(** The convergence test as the specification words it:
    [|merit_base - merit_new| < costTol /\ theta_new < g_min], or
    [alpha |du| + alpha |dx| < deltaTol]. *)
Definition converged_as_specified (settings : Settings)
    (baseline performanceNew : PerformanceIndex)
    (alpha deltaUnorm deltaXnorm : scalar_t) : bool :=
  Qltb (Qabs (merit baseline - merit performanceNew)) (costTol settings)
  && Qltb (constraintViolation performanceNew) (g_min settings)
  || Qltb (alpha * deltaUnorm + alpha * deltaXnorm) (deltaTol settings).

End Vocabulary.


(** ** Further definitions *)

(** The copy constructor [Collection(const Collection& other)]: the name
    map is copied as it is, the terms are cloned one by one, in order;
    [clone] is the [clone()] of the terms. *)
Definition Collection_copy {T : Type} (clone : T -> T) (other : Collection.t T)
    : Collection.t T :=
  {| Collection.terms_ := map clone (Collection.terms_ other);
     Collection.termNameMap_ := Collection.termNameMap_ other |}.

(** [appendVectorToVectorByMoving(v1, v2)]: [v1] afterwards. *)
Definition appendVectorToVectorByMoving {A : Type} (v1 v2 : list A) : list A :=
  v1 ++ v2.

(** The term of the first pair of [l] that carries [name]. *)
Fixpoint firstAdded {T : Type} (name : string) (l : list (string * T)) : option T :=
  match l with
  | [] => None
  | (n, term) :: l => if decide (n = name) then Some term else firstAdded name l
  end.

(** The pairs of [l] whose name occurs neither in [seen] nor earlier
    in [l]. *)
Fixpoint firstOccurrences {T : Type} (seen : list string) (l : list (string * T))
    : list (string * T) :=
  match l with
  | [] => []
  | (n, term) :: l =>
      if decide (n ∈ seen) then firstOccurrences seen l
      else (n, term) :: firstOccurrences (n :: seen) l
  end.

(** Every index in the name map points into the term sequence. *)
Definition indexed {T : Type} (c : Collection.t T) : Prop :=
  forall name i, Collection.termNameMap_ c !! name = Some i ->
                 (i < length (Collection.terms_ c))%nat.

(** The step length of the [k]-th trial of the line search: [alpha] starts
    at [1] and is multiplied by [alpha_decay] after every rejected trial. *)
Definition stepLength (alpha_decay : scalar_t) (k : nat) : scalar_t :=
  Nat.iter k (fun alpha => alpha * alpha_decay) 1.

(** An iterate [(x, u)] on a time grid: a state per node, an input per
    node but the last. *)
Definition aligned (timeDiscretization : list AnnotatedTime) (x u : vector_array_t) : Prop :=
  length x = length timeDiscretization
  /\ (length u + 1)%nat = length timeDiscretization.

(** The law that the sweeps give the merit. *)
Definition merit_is_cost_plus_penalty (p : PerformanceIndex) : Prop :=
  merit p = totalCost p + inequalityConstraintPenalty p.

(** A field [g] of the performance index that [+=] adds up. *)
Definition additive (g : PerformanceIndex -> scalar_t) : Prop :=
  g PerformanceIndex_zero = 0
  /\ forall a b, g (PerformanceIndex_add a b) = g a + g b.

(** A call that may return or run into undefined behaviour, but raises no
    exception. *)
Definition never_throws {A : Type} (m : outcome A) : Prop :=
  forall e, m <> Throws e.

(** What [getOCPSolution] throws. *)
Definition qp_failed : exception :=
  runtime_error "[MultipleShootingSolver] Failed to solve QP".

Section FurtherSolverDefinitions.
Context `{Collaborators}.

(** What the approximation sweep computes for node [i] of the grid with
    the problem clone [ocp]: the transcription of an event node (with an
    empty projection), of an intermediate node, or of the terminal node. *)
Definition transcription (ocp : OptimalControlProblem) (projection : bool)
    (timeDiscretization : list AnnotatedTime) (x u : vector_array_t) (i : nat)
    : option Transcription :=
  match timeDiscretization !! i, x !! i with
  | Some ti, Some xi =>
      if decide (i + 1 < length timeDiscretization)%nat then
        match x !! (i + 1)%nat with
        | Some xi1 =>
            if decide (event ti = PreEvent) then
              let result := setupEventNode ocp (time ti) xi xi1 in
              Some {| performance := performance result;
                      dynamics := dynamics result;
                      cost := cost result;
                      constraints := constraints result;
                      constraintsProjection := Zero 0 (length xi) 0 |}
            else
              match timeDiscretization !! (i + 1)%nat, u !! i with
              | Some ti1, Some ui =>
                  Some (setupIntermediateNode ocp projection (getIntervalStart ti)
                          (getIntervalDuration ti ti1) xi xi1 ui)
              | _, _ => None
              end
        | None => None
        end
      else Some (setupTerminalNode ocp (getIntervalStart ti) xi)
  | _, _ => None
  end.

(** The buffers of [s] hold the transcription [r] at node [i]; the
    terminal node has no dynamics and no projection. *)
Definition stored_at (s : MultipleShootingSolver) (i : nat) (terminal : bool)
    (r : Transcription) : Prop :=
  cost_ s !! i = Some (cost r)
  /\ constraints_ s !! i = Some (constraints r)
  /\ (terminal = false ->
      dynamics_ s !! i = Some (dynamics r)
      /\ constraintsProjection_ s !! i = Some (constraintsProjection r)).

(** What the performance sweep adds for node [i] of the grid with the
    problem clone [ocp]: the performance of an event node, of an
    intermediate node, or of the terminal node. *)
Definition nodePerformance (ocp : OptimalControlProblem)
    (timeDiscretization : list AnnotatedTime) (x u : vector_array_t) (i : nat)
    : option PerformanceIndex :=
  match timeDiscretization !! i, x !! i with
  | Some ti, Some xi =>
      if decide (i + 1 < length timeDiscretization)%nat then
        match x !! (i + 1)%nat with
        | Some xi1 =>
            if decide (event ti = PreEvent) then
              Some (computeEventPerformance ocp (time ti) xi xi1)
            else
              match timeDiscretization !! (i + 1)%nat, u !! i with
              | Some ti1, Some ui =>
                  Some (computeIntermediatePerformance ocp
                          (getIntervalStart ti) (getIntervalDuration ti ti1) xi xi1 ui)
              | _, _ => None
              end
        | None => None
        end
      else Some (computeTerminalPerformance ocp (getIntervalStart ti) xi)
  | _, _ => None
  end.

End FurtherSolverDefinitions.

(** ** Runs and sweeps of the small problem *)

Module Runs.
Import Example.

(** The solver after a run over [[0, 1]] from the state [1]. *)
Definition finished : MultipleShootingSolver :=
  returned (solver settings unconstrained replay)
    (runImpl 10 roundRobin (solver settings unconstrained replay) 0 [1] 1).

(** A QP interface that reports a failure. *)
Definition failing : Replay :=
  {| answer_status := MAX_ITER; answer_x := []; answer_u := []; answer_K := [] |}.

(** The approximation sweep and the performance sweep on [eventGrid] at
    [(xEvent, uEvent)]. *)
Definition swept : PerformanceIndex * MultipleShootingSolver :=
  returned (PerformanceIndex_zero, solver settings unconstrained replayEvent)
    (setupQuadraticSubproblem (solver settings unconstrained replayEvent)
       (roundRobin O O) eventGrid [1] xEvent uEvent).

Definition sweptPerformance : PerformanceIndex :=
  returned PerformanceIndex_zero
    (computePerformance (solver settings unconstrained replayEvent)
       (roundRobin O O) eventGrid [1] xEvent uEvent).

(** Settings that ask for the feedback policy and for no iteration. *)
Definition idle : Settings :=
  {| sqpIteration := 0; deltaTol := 1 # 1000; costTol := 1 # 1000;
     alpha_decay := 1 # 2; alpha_min := 1 # 10; gamma_c := 1 # 1000;
     g_max := 10; g_min := 1 # 1000; armijoFactor := 1 # 10; dt := 1;
     useFeedbackPolicy := true; projectStateInputEqualityConstraints := true;
     printSolverStatus := false; printSolverStatistics := false;
     printLinesearch := false; nThreads := 2 |}.

End Runs.

(** ** What the solver expects of the QP interface and of the transcription *)

Section Contracts.
Context `{Collaborators}.

(** A solved QP has a state step per cost node and an input step per
    dynamics node, and its interface then hands out one Riccati gain per
    dynamics node. *)
Definition qp_sized : Prop :=
  forall h delta_x0 dyn cst con h' deltaX deltaU,
    hpipm_solve h delta_x0 dyn cst con = (h', SUCCESS, deltaX, deltaU) ->
    length deltaX = length cst
    /\ length deltaU = length dyn
    /\ forall d0 c0, length (getRiccatiFeedback h' d0 c0) = length dyn.

(** The cost of the terminal node has no input gradient. *)
Definition terminal_cost_without_input : Prop :=
  forall ocp t x, q_dfdu (cost (setupTerminalNode ocp t x)) = [].

(** The buffers of [s] and its QP interface fit the grid. *)
Definition solved_on (timeDiscretization : list AnnotatedTime)
    (s : MultipleShootingSolver) : Prop :=
  (length (dynamics_ s) + 1)%nat = length timeDiscretization
  /\ length (cost_ s) = length timeDiscretization
  /\ (length (constraintsProjection_ s) + 1)%nat = length timeDiscretization
  /\ forall d0 c0,
       (length (getRiccatiFeedback (hpipmInterface_ s) d0 c0) + 1)%nat
       = length timeDiscretization.

End Contracts.

(** The small problem with a QP interface that answers with the zero step
    of the right size and remembers the horizon. *)
Module Sized.
Import Example.

#[local] Instance collaborators : Collaborators := {|
  OptimalControlProblem := Collection.t nat;
  StateInputConstraint := nat;
  equalityConstraintPtr := fun ocp => ocp;
  HpipmInterface := nat;
  sqrt := Qsqrt;
  getIntervalStart := time;
  getIntervalEnd := time;
  getIntervalDuration := fun a b => time b - time a;
  timeDiscretizationWithEvents := fun t0 tf h _ =>
    [ {| time := t0; event := Event_None |}; {| time := tf; event := Event_None |} ];
  setupEventNode := fun _ _ x x1 => eventNode x x1;
  setupIntermediateNode := fun _ projection _ h x x1 u => intermediateNode projection h x x1 u;
  setupTerminalNode := fun _ _ x => terminalNode x;
  computeEventPerformance := fun _ _ x x1 => perf 0 (squaredNorm (vsub x1 x));
  computeIntermediatePerformance := fun _ _ h x x1 u => intermediatePerformance h x x1 u;
  computeTerminalPerformance := fun _ _ x => perf (squaredNorm x) 0;
  initializeEventNode := fun _ x => x;
  initializeIntermediateNode_primal := fun _ _ _ x _ => ([0], x);
  initializeIntermediateNode_initializer := fun _ _ x => ([0], x);
  hpipm_solve := fun _ _ dyn cst _ =>
    (length dyn, SUCCESS, map (fun _ => [0]) cst, map (fun _ => [0]) dyn);
  getRiccatiFeedback := fun h _ _ => replicate h [[0]]
|}.

Definition solver : MultipleShootingSolver :=
  MultipleShootingSolver_new (H := collaborators) settings unconstrained O noSchedule.

End Sized.

(** * Properties *)

(** ** Outcomes and loops *)

Lemma bind_Returns {A B : Type} (f : A -> outcome B) (m : outcome A) (b : B) :
  outcome_bind f m = Returns b -> exists a, m = Returns a /\ f a = Returns b.
Proof.
  destruct m as [a| | |]; simpl; intros E; try discriminate.
  exists a. split; [reflexivity|exact E].
Qed.

Lemma at_Returns {A : Type} (v : list A) (i : nat) (a : A) :
  at_ v i = Returns a <-> v !! i = Some a.
Proof.
  unfold at_. destruct (v !! i); split; intros E; try discriminate; congruence.
Qed.

Lemma assign_Returns {A : Type} (v v' : list A) (i : nat) (a : A) :
  assign v i a = Returns v' <-> (i < length v)%nat /\ v' = <[i := a]> v.
Proof.
  unfold assign. destruct (decide (i < length v)%nat); split.
  - intros E. split; [assumption|congruence].
  - intros [_ ->]. reflexivity.
  - discriminate.
  - intros [Hlt _]. contradiction.
Qed.

Lemma back_Returns {A : Type} (v : list A) (a : A) :
  back v = Returns a <-> last v = Some a.
Proof.
  unfold back. destruct (last v); split; intros E; try discriminate; congruence.
Qed.

(** Splits a hypothesis [x <- m ;; k = Returns b] into its two steps, again
    and again. *)
Ltac inv_bind :=
  repeat match goal with
    | E : outcome_bind _ _ = Returns _ |- _ =>
        let a := fresh "a" in
        let Ea := fresh "E" a in
        apply bind_Returns in E; destruct E as (a & Ea & E)
    | E : Throws _ = Returns _ |- _ => discriminate E
    | E : Undefined = Returns _ |- _ => discriminate E
    | E : OutOfFuel = Returns _ |- _ => discriminate E
    end.

(** The same, going through the tests on the way. *)
Ltac inv_outcome :=
  inv_bind;
  repeat (match goal with
          | E : (if ?c then _ else _) = Returns _ |- _ => destruct c
          end; inv_bind).

(** A property that every turn of a loop keeps, holds when the loop is
    left. *)
Lemma foldM_invariant {A S : Type} (P : S -> Prop) (body : S -> A -> outcome S)
    (l : list A) (s s' : S) :
  P s ->
  (forall s1 a s2, P s1 -> a ∈ l -> body s1 a = Returns s2 -> P s2) ->
  foldM body s l = Returns s' ->
  P s'.
Proof.
  revert s. induction l as [|a l IH]; simpl; intros s Hs Hstep E.
  - injection E as <-. exact Hs.
  - apply bind_Returns in E. destruct E as (s1 & E1 & E).
    apply (IH s1); [| |exact E].
    + eapply Hstep; [exact Hs| |exact E1]. left.
    + intros s2 b s3 H2 Hb. apply Hstep; [exact H2|]. right. exact Hb.
Qed.

(** The same for a loop over the indices [from, from + n): the property may
    mention how far the loop has come. *)
Lemma foldM_seq_invariant {St : Type} (P : nat -> St -> Prop)
    (body : St -> nat -> outcome St) (from n : nat) (s s' : St) :
  P from s ->
  (forall s1 i s2, P i s1 -> (from <= i < from + n)%nat ->
                   body s1 i = Returns s2 -> P (S i) s2) ->
  foldM body s (seq from n) = Returns s' ->
  P (from + n)%nat s'.
Proof.
  revert from s. induction n as [|n IH]; simpl; intros from s Hs Hstep E.
  - injection E as <-. rewrite Nat.add_0_r. exact Hs.
  - apply bind_Returns in E. destruct E as (s1 & E1 & E).
    replace (from + S n)%nat with (S from + n)%nat by lia.
    apply (IH (S from) s1); [| |exact E].
    + apply (Hstep s from); [exact Hs|lia|exact E1].
    + intros s2 i s3 H2 Hi. apply Hstep; [exact H2|lia].
Qed.

(** ** Comparisons of scalars *)

Lemma Qltb_lt (a b : Q) : Qltb a b = true <-> a < b.
Proof.
  unfold Qltb. rewrite negb_true_iff. split.
  - intros E. apply Qnot_le_lt. intros Hle.
    apply Qle_bool_iff in Hle. congruence.
  - intros Hlt. destruct (Qle_bool b a) eqn:E; [|reflexivity].
    apply Qle_bool_iff in E. exfalso. exact (Qlt_not_le _ _ Hlt E).
Qed.

Lemma Qltb_ge (a b : Q) : Qltb a b = false <-> b <= a.
Proof.
  unfold Qltb. rewrite negb_false_iff. apply Qle_bool_iff.
Qed.

(** ** [Collection] *)

Section CollectionProperties.
Context {T : Type}.
Implicit Types (c : Collection.t T) (name : string) (term : T).

Lemma add_fresh c name term :
  Collection.termNameMap_ c !! name = None ->
  Collection.add name term c =
    (Returns (),
     {| Collection.terms_ := Collection.terms_ c ++ [term];
        Collection.termNameMap_ :=
          <[name := length (Collection.terms_ c)]> (Collection.termNameMap_ c) |}).
Proof. intros E. unfold Collection.add. rewrite E. reflexivity. Qed.

Lemma add_duplicate c name term i :
  Collection.termNameMap_ c !! name = Some i ->
  exists what, Collection.add name term c = (Throws (runtime_error what), c).
Proof. intros E. unfold Collection.add. rewrite E. eexists. reflexivity. Qed.

(** The names in the map of a collection are those that were added. *)
Lemma add_all_names (l : list (string * T)) c name :
  is_Some (Collection.termNameMap_ (Collection.add_all l c) !! name) <->
  is_Some (Collection.termNameMap_ c !! name) \/ name ∈ l.*1.
Proof.
  revert c. induction l as [|[n t] l IH]; intros c; simpl.
  - rewrite elem_of_nil. tauto.
  - rewrite IH, elem_of_cons. unfold Collection.add; simpl.
    destruct (Collection.termNameMap_ c !! n) as [i|] eqn:E; simpl.
    + split; [tauto|]. intros [Hc|[->|Hl]]; [tauto| |tauto].
      left. rewrite E. eauto.
    + destruct (decide (n = name)) as [->|Hne].
      * rewrite lookup_insert_eq. split; [tauto|]. intros _. eauto.
      * rewrite lookup_insert_ne by exact Hne. split; [tauto|].
        intros [Hc|[->|Hl]]; [tauto|congruence|tauto].
Qed.

Lemma add_all_fresh (l : list (string * T)) name :
  name ∉ l.*1 ->
  Collection.termNameMap_ (Collection.add_all l Collection.new) !! name = None.
Proof.
  intros Hn. apply eq_None_not_Some. rewrite add_all_names.
  intros [Hc|Hl]; [|contradiction].
  simpl in Hc. rewrite lookup_empty in Hc. destruct Hc as [? Hc]. discriminate.
Qed.

(** **** Claim C9.
    For a collection built by any sequence of [add] calls and any name:
    adding under a name that was added before throws and leaves the
    collection (its term sequence included) as it was; adding under a
    name that was not added before returns, appends the term at the end
    of the term sequence and makes [get] return it under that name; and
    [get] under a name that was never added throws. *)
Theorem Collection_add_get (l : list (string * T)) name term :
  let c := Collection.add_all l Collection.new in
  (name ∈ l.*1 ->
     exists what, Collection.add name term c = (Throws (runtime_error what), c))
  /\ (name ∉ l.*1 ->
     exists c', Collection.add name term c = (Returns (), c')
       /\ Collection.terms_ c' = Collection.terms_ c ++ [term]
       /\ Collection.get name c' = Returns term)
  /\ (name ∉ l.*1 -> Collection.get name c = Throws out_of_range).
Proof.
  intros c. split; [|split].
  - intros Hin.
    assert (is_Some (Collection.termNameMap_ c !! name)) as [i Hi].
    { apply add_all_names. right. exact Hin. }
    exact (add_duplicate c name term i Hi).
  - intros Hn. pose proof (add_all_fresh l name Hn) as E. fold c in E.
    eexists. split; [exact (add_fresh c name term E)|]. split; [reflexivity|].
    unfold Collection.get; simpl. rewrite lookup_insert_eq.
    apply at_Returns. rewrite lookup_app_r by lia.
    rewrite Nat.sub_diag. reflexivity.
  - intros Hn. pose proof (add_all_fresh l name Hn) as E. fold c in E.
    unfold Collection.get. rewrite E. reflexivity.
Qed.

End CollectionProperties.

(** ** Constructor, bookkeeping and the iteration log *)

Section SolverProperties.
Context `{Collaborators}.

(** **** Claim C8.
    A solver constructed from a problem whose equality-constraint
    collection is empty has [projectStateInputEqualityConstraints = false],
    whatever the settings passed in say. *)
Theorem constructor_disables_projection (settings : Settings)
    (optimalControlProblem : OptimalControlProblem)
    (hpipm : HpipmInterface) (referenceManager : ModeSchedule) :
  Collection.empty (equalityConstraintPtr optimalControlProblem) = true ->
  projectStateInputEqualityConstraints
    (settings_ (MultipleShootingSolver_new settings optimalControlProblem
                                           hpipm referenceManager)) = false.
Proof. intros E. simpl. rewrite E. reflexivity. Qed.

Lemma same_bookkeeping_trans s1 s2 s3 :
  same_bookkeeping s1 s2 -> same_bookkeeping s2 s3 -> same_bookkeeping s1 s3.
Proof.
  intros (A1 & A2 & A3) (B1 & B2 & B3). repeat split; congruence.
Qed.

Lemma store_node_bookkeeping i terminal r s s' :
  store_node i terminal r s = Returns s' -> same_bookkeeping s s'.
Proof.
  unfold store_node. intros E. inv_bind.
  destruct terminal; inv_bind; injection E as <-; repeat split.
Qed.

Lemma setupQuadraticSubproblem_bookkeeping s sched timeDiscretization initState x u p s' :
  setupQuadraticSubproblem s sched timeDiscretization initState x u = Returns (p, s') ->
  same_bookkeeping s s'.
Proof.
  unfold setupQuadraticSubproblem, runParallel.
  destruct (decide _); [discriminate|]. intros E. inv_bind.
  injection E as _ <-.
  match goal with
  | F : foldM _ _ _ = Returns _ |- _ =>
      refine (foldM_invariant (fun st => same_bookkeeping s st.2) _ _ _ _ _ _ F);
      clear F
  end.
  { repeat split. }
  intros st1 w st2 H1 _ E. simpl in E. inv_bind.
  injection E as <-. simpl.
  match goal with
  | F : foldM _ _ _ = Returns _ |- _ =>
      refine (foldM_invariant (fun st => same_bookkeeping s st.2) _ _ _ _ _ _ F);
      clear F
  end.
  { exact H1. }
  clear. intros w1 i w2 H1 _ E.
  inv_outcome; injection E as <-; simpl;
    try exact H1;
    (eapply same_bookkeeping_trans; [exact H1|]);
    eapply store_node_bookkeeping; eassumption.
Qed.

Lemma getOCPSolution_bookkeeping s delta_x0 sol s' :
  getOCPSolution s delta_x0 = Returns (sol, s') -> same_bookkeeping s s'.
Proof.
  unfold getOCPSolution. intros E. inv_bind.
  destruct (solveQP s a delta_x0) as [[[h status] deltaX] deltaU].
  inv_outcome; injection E as _ <-; repeat split.
Qed.

Lemma setPrimalSolution_bookkeeping s timeDiscretization x u s' :
  setPrimalSolution s timeDiscretization x u = Returns s' -> same_bookkeeping s s'.
Proof.
  unfold setPrimalSolution. intros E.
  apply bind_Returns in E as (u' & _ & E).
  apply bind_Returns in E as ([[uff controllerGain] proj] & _ & E).
  apply bind_Returns in E as (lastU & _ & E).
  injection E as <-. repeat split.
Qed.

(** The loop of [runImpl] appends one entry to the log per iteration that
    it performs and counts it. *)
Lemma sqpLoop_log remaining fuel sched timeDiscretization initState iter s x u s' x' u' :
  sqpLoop remaining fuel sched timeDiscretization initState iter s x u
    = Returns (s', x', u') ->
  exists log,
    performanceIndeces_ s' = performanceIndeces_ s ++ log
    /\ totalNumIterations_ s' = (totalNumIterations_ s + length log)%nat
    /\ settings_ s' = settings_ s
    /\ (length log <= remaining)%nat
    /\ (0 < remaining -> 0 < length log)%nat.
Proof.
  revert iter s x u. induction remaining as [|remaining IH]; simpl; intros iter s x u E.
  - injection E as <- <- <-. exists []. rewrite app_nil_r. simpl.
    repeat split; lia.
  - apply bind_Returns in E as ([baselinePerformance s1] & Hsetup & E).
    apply bind_Returns in E as (x0 & _ & E).
    apply bind_Returns in E as ([deltaSolution s2] & Hqp & E).
    apply bind_Returns in E as (stepInfo & _ & E).
    apply setupQuadraticSubproblem_bookkeeping in Hsetup as (A1 & A2 & A3).
    apply getOCPSolution_bookkeeping in Hqp as (B1 & B2 & B3).
    destruct (converged stepInfo).
    + injection E as <- <- <-. exists [stepPerformance stepInfo]. simpl.
      repeat split; try lia; congruence.
    + apply IH in E as (log & L1 & L2 & L3 & L4 & L5). simpl in *.
      exists (stepPerformance stepInfo :: log). simpl.
      rewrite L1, L2, L3, B1, B2, B3, A1, A2, A3, <- app_assoc. simpl.
      repeat split; lia.
Qed.

(** **** Claim C10.
    [getIterationsLog] throws whenever the stored log is empty, in
    particular on a freshly constructed solver and right after [reset];
    after a run that returned, the log holds exactly one entry per SQP
    iteration that the run performed (the increase of the iteration
    counter, at most [sqpIteration] and at least one when [sqpIteration]
    is positive), and [getIterationsLog] returns that list unless no
    iteration was performed. *)
Theorem getIterationsLog_spec :
  (forall s, performanceIndeces_ s = [] -> getIterationsLog s = Throws no_log_yet)
  /\ (forall settings ocp hpipm rm,
        getIterationsLog (MultipleShootingSolver_new settings ocp hpipm rm)
          = Throws no_log_yet)
  /\ (forall s, getIterationsLog (reset s) = Throws no_log_yet)
  /\ (forall fuel sched s initTime initState finalTime s',
        runImpl fuel sched s initTime initState finalTime = Returns s' ->
        let n := length (performanceIndeces_ s') in
        totalNumIterations_ s' = (totalNumIterations_ s + n)%nat
        /\ (n <= sqpIteration (settings_ s))%nat
        /\ (0 < sqpIteration (settings_ s) -> 0 < n)%nat
        /\ getIterationsLog s' =
             if decide (n = 0)%nat then Throws no_log_yet
             else Returns (performanceIndeces_ s')).
Proof.
  split; [|split; [|split]].
  - intros s E. unfold getIterationsLog. rewrite E. reflexivity.
  - reflexivity.
  - reflexivity.
  - intros fuel sched s initTime initState finalTime s' E n.
    unfold runImpl in E.
    apply bind_Returns in E as (xu & _ & E).
    apply bind_Returns in E as ([[s1 x] u] & Hloop & E).
    apply sqpLoop_log in Hloop as (log & L1 & L2 & L3 & L4 & L5).
    apply setPrimalSolution_bookkeeping in E as (P1 & P2 & P3).
    simpl in L1, L2, L3, L4, L5.
    assert (performanceIndeces_ s' = log) as Hlog by congruence.
    subst n. rewrite Hlog.
    split; [congruence|]. split; [exact L4|]. split; [exact L5|].
    unfold getIterationsLog. rewrite Hlog.
    destruct log; reflexivity.
Qed.

End SolverProperties.

(** ** The filter line search *)

Section LineSearchProperties.
Context `{Collaborators}.
Variables (s : MultipleShootingSolver) (sched : nat -> Schedule)
          (baseline : PerformanceIndex) (timeDiscretization : list AnnotatedTime)
          (initState : vector_t) (subproblemSolution : OcpSubproblemSolution)
          (x u : vector_array_t).

Local Abbreviation settings := (settings_ s).
Local Abbreviation dx := (deltaXSol subproblemSolution).
Local Abbreviation du := (deltaUSol subproblemSolution).
Local Abbreviation m := (armijoDescentMetric subproblemSolution).
Local Abbreviation loop fuel :=
  (lineSearch fuel s sched baseline timeDiscretization initState subproblemSolution x u).
Local Abbreviation ready := (Ready s sched baseline timeDiscretization initState
                               subproblemSolution x u).
Local Abbreviation trial := (Trial s sched baseline timeDiscretization initState
                               subproblemSolution x u).
Local Abbreviation accepted_ := (accepted s baseline subproblemSolution).
Local Abbreviation stalled_ := (stalled baseline x u).
Local Abbreviation belowTol alpha :=
  (stepSizeBelowTol settings alpha (trajectoryNorm du) (trajectoryNorm dx)).

(** One turn of the loop, once the candidate and its performance are
    known. *)
Lemma lineSearch_turn fuel k alpha xBuffer uBuffer new performanceNew :
  computeStep alpha x u dx du xBuffer uBuffer = Returns new ->
  computePerformance s (sched k) timeDiscretization initState new.1 new.2
    = Returns performanceNew ->
  loop (S fuel) k alpha xBuffer uBuffer =
    if stepAccepted settings baseline performanceNew alpha m
    then Returns (accepted_ alpha new.1 new.2 performanceNew)
    else if belowTol alpha then Returns stalled_
    else if Qltb (alpha_min settings) (alpha * alpha_decay settings)
         then loop fuel (S k) (alpha * alpha_decay settings) new.1 new.2
         else Returns stalled_.
Proof.
  intros E1 E2.
  cbn -[computeStep computePerformance stepAccepted stepSizeBelowTol
        improvementBelowTol trajectoryNorm Qltb Qmult].
  rewrite E1.
  cbn -[computeStep computePerformance stepAccepted stepSizeBelowTol
        improvementBelowTol trajectoryNorm Qltb Qmult].
  rewrite E2. reflexivity.
Qed.

(** A turn that the loop is ready for is where [takeStep] arrives. *)
Lemma takeStep_ready k alpha xBuffer uBuffer :
  ready k alpha xBuffer uBuffer ->
  forall fuel,
    takeStep (k + fuel) s sched baseline timeDiscretization initState
             subproblemSolution x u
    = loop fuel k alpha xBuffer uBuffer.
Proof.
  induction 1 as [|k alpha xBuffer uBuffer new performanceNew _ IH E1 E2 Hrej Htol Hmin];
    intros fuel.
  - reflexivity.
  - replace (S k + fuel)%nat with (k + S fuel)%nat by lia.
    rewrite IH, (lineSearch_turn _ _ _ _ _ _ _ E1 E2), Hrej, Htol, Hmin.
    reflexivity.
Qed.

(** The verdict of [takeStep] on a trial that it reaches. *)
Lemma takeStep_trial k alpha xNew uNew performanceNew fuel :
  trial k alpha xNew uNew performanceNew ->
  takeStep (k + S fuel) s sched baseline timeDiscretization initState
           subproblemSolution x u =
    if stepAccepted settings baseline performanceNew alpha m
    then Returns (accepted_ alpha xNew uNew performanceNew)
    else if belowTol alpha then Returns stalled_
    else if Qltb (alpha_min settings) (alpha * alpha_decay settings)
         then loop fuel (S k) (alpha * alpha_decay settings) xNew uNew
         else Returns stalled_.
Proof.
  intros (xBuffer & uBuffer & Hready & E1 & E2).
  rewrite (takeStep_ready _ _ _ _ Hready).
  exact (lineSearch_turn _ _ _ _ _ (xNew, uNew) _ E1 E2).
Qed.

(** Whatever the loop returns is the verdict on one of its trials:
    either that candidate was accepted, or it was rejected and the loop
    gave up there. *)
Lemma lineSearch_returns fuel k alpha xBuffer uBuffer r :
  ready k alpha xBuffer uBuffer ->
  loop fuel k alpha xBuffer uBuffer = Returns r ->
  exists k' alpha' xNew uNew performanceNew,
    trial k' alpha' xNew uNew performanceNew
    /\ (stepAccepted settings baseline performanceNew alpha' m = true
          /\ r = accepted_ alpha' xNew uNew performanceNew
        \/ stepAccepted settings baseline performanceNew alpha' m = false
          /\ (belowTol alpha' = true
              \/ Qltb (alpha_min settings) (alpha' * alpha_decay settings) = false)
          /\ r = stalled_).
Proof.
  revert k alpha xBuffer uBuffer.
  induction fuel as [|fuel IH]; intros k alpha xBuffer uBuffer Hready E.
  - discriminate.
  - destruct (computeStep alpha x u dx du xBuffer uBuffer) as [new| | |] eqn:E1;
      try (cbn -[computeStep] in E; rewrite E1 in E; discriminate).
    destruct (computePerformance s (sched k) timeDiscretization initState new.1 new.2)
      as [performanceNew| | |] eqn:E2;
      try (cbn -[computeStep computePerformance] in E; rewrite E1 in E;
           cbn -[computeStep computePerformance] in E; rewrite E2 in E; discriminate).
    rewrite (lineSearch_turn _ _ _ _ _ _ _ E1 E2) in E.
    assert (trial k alpha new.1 new.2 performanceNew) as Htrial.
    { exists xBuffer, uBuffer. destruct new. auto. }
    destruct (stepAccepted settings baseline performanceNew alpha m) eqn:Hacc.
    { injection E as <-. exists k, alpha, new.1, new.2, performanceNew. auto. }
    destruct (belowTol alpha) eqn:Htol.
    { injection E as <-. exists k, alpha, new.1, new.2, performanceNew.
      split; [assumption|]. right. auto. }
    destruct (Qltb (alpha_min settings) (alpha * alpha_decay settings)) eqn:Hmin.
    + apply (IH (S k) (alpha * alpha_decay settings) new.1 new.2); [|exact E].
      exact (Ready_next _ _ _ _ _ _ _ _ _ _ _ _ _ _ Hready E1 E2 Hacc Htol Hmin).
    + injection E as <-. exists k, alpha, new.1, new.2, performanceNew.
      split; [assumption|]. right. auto.
Qed.

Lemma readyAt_sound k alpha xBuffer uBuffer :
  readyAt s sched baseline timeDiscretization initState subproblemSolution x u k
    = Some (alpha, xBuffer, uBuffer) ->
  ready k alpha xBuffer uBuffer.
Proof.
  revert alpha xBuffer uBuffer. induction k as [|k IH]; intros alpha xBuffer uBuffer E.
  - injection E as <- <- <-. constructor.
  - cbn -[computeStep computePerformance stepAccepted stepSizeBelowTol Qltb Qmult] in E.
    destruct (readyAt _ _ _ _ _ _ _ _ k) as [[[alpha0 xb] ub]|]; [|discriminate].
    destruct (computeStep _ _ _ _ _ _ _) as [new| | |] eqn:E1; try discriminate.
    destruct (computePerformance _ _ _ _ _ _) as [p| | |] eqn:E2; try discriminate.
    destruct (stepAccepted _ _ _ _ _) eqn:Hacc; [discriminate|].
    destruct (stepSizeBelowTol _ _ _ _) eqn:Htol; [discriminate|].
    destruct (Qltb _ _) eqn:Hmin; [|discriminate].
    injection E as <- <- <-.
    exact (Ready_next _ _ _ _ _ _ _ _ _ _ _ _ _ _ (IH _ _ _ eq_refl) E1 E2 Hacc Htol Hmin).
Qed.

Lemma stepSizeBelowTol_lt settings0 alpha deltaUnorm deltaXnorm :
  stepSizeBelowTol settings0 alpha deltaUnorm deltaXnorm = true <->
  alpha * deltaUnorm < deltaTol settings0 /\ alpha * deltaXnorm < deltaTol settings0.
Proof.
  unfold stepSizeBelowTol. rewrite andb_true_iff, !Qltb_lt. reflexivity.
Qed.

Lemma improvementBelowTol_lt settings0 base new :
  improvementBelowTol settings0 base new = true <->
  Qabs (merit base - merit new) < costTol settings0
  /\ constraintViolation new < g_min settings0.
Proof.
  unfold improvementBelowTol. rewrite andb_true_iff, !Qltb_lt. reflexivity.
Qed.

(** Two doubles of which none is NaN compare, and the comparison
    read from the other side is the opposite one. *)
Lemma SFcompare_antisym (a b : Double.double) :
  SpecFloat.SFcompare b a = option_map CompOpp (SpecFloat.SFcompare a b).
Proof.
  destruct a as [sa|sa| |sa ma ea], b as [sb|sb| |sb mb eb]; simpl;
    try reflexivity; try (destruct sa; reflexivity); try (destruct sb; reflexivity);
    try (destruct sa, sb; reflexivity).
  assert (Pos.compare_cont Eq mb ma = CompOpp (Pos.compare_cont Eq ma mb)) as Hm.
  { symmetry. exact (Pos.compare_cont_antisym ma mb Eq). }
  destruct sa, sb; simpl; try reflexivity.
  - rewrite (Z.compare_antisym ea eb).
    destruct (ea ?= eb)%Z; simpl; try reflexivity.
    f_equal. f_equal. exact Hm.
  - rewrite (Z.compare_antisym ea eb).
    destruct (ea ?= eb)%Z; simpl; try reflexivity.
    f_equal. exact Hm.
Qed.

Lemma Double_not_gt_le (a b : Double.double) :
  Double.isnan a = false -> Double.isnan b = false ->
  (Double.gt a b = false <-> Double.le a b = true).
Proof.
  intros Ha Hb. unfold Double.gt, Double.le, SpecFloat.SFltb, SpecFloat.SFleb.
  rewrite (SFcompare_antisym a b).
  destruct a as [sa|sa| |sa ma ea], b as [sb|sb| |sb mb eb]; try discriminate;
    destruct (SpecFloat.SFcompare _ _) as [[| |]|] eqn:E; simpl;
    try (split; [reflexivity|reflexivity]);
    try (split; discriminate);
    simpl in E; try discriminate E.
Qed.

Lemma Double_nan_compare (a b : Double.double) :
  Double.isnan a = true ->
  Double.lt a b = false /\ Double.gt a b = false /\ Double.le a b = false.
Proof.
  destruct a; try discriminate. intros _.
  unfold Double.lt, Double.gt, Double.le, SpecFloat.SFltb, SpecFloat.SFleb.
  destruct b; simpl; auto.
Qed.


(** **** Claim C5.
    When the line search reaches a trial whose candidate is rejected --
    as every candidate before it was -- and stops there, because the
    scaled step is below [deltaTol] or because the next step length
    would not exceed [alpha_min], [takeStep] (given fuel for that many
    turns) returns converged with the baseline [PerformanceIndex], and
    the iterate [(x, u)] is the one it was given. *)
Theorem takeStep_stalled k alpha xNew uNew performanceNew fuel :
  trial k alpha xNew uNew performanceNew ->
  stepAccepted settings baseline performanceNew alpha m = false ->
  (alpha * trajectoryNorm du < deltaTol settings
     /\ alpha * trajectoryNorm dx < deltaTol settings)
  \/ alpha * alpha_decay settings <= alpha_min settings ->
  (k < fuel)%nat ->
  takeStep fuel s sched baseline timeDiscretization initState subproblemSolution x u
    = Returns {| converged := true; stepPerformance := baseline;
                 x_out := x; u_out := u |}.
Proof.
  intros Htrial Hrej Hstop Hfuel.
  replace fuel with (k + S (fuel - S k))%nat by lia.
  rewrite (takeStep_trial _ _ _ _ _ _ Htrial), Hrej.
  destruct (belowTol alpha) eqn:Htol; [reflexivity|].
  destruct Hstop as [Hbelow|Hmin].
  - apply stepSizeBelowTol_lt in Hbelow. congruence.
  - apply Qltb_ge in Hmin. rewrite Hmin. reflexivity.
Qed.

(** **** Claim C2 (as amended).
    Whatever [takeStep] returns is its verdict on one trial. If that
    candidate was accepted, the iteration is declared converged if and
    only if both [alpha * |du| < deltaTol] and [alpha * |dx| < deltaTol],
    or [|merit_base - merit_new| < costTol] and [theta_new < g_min]. If it
    was rejected, the search stopped there -- both scaled norms below
    [deltaTol], or the next step length not above [alpha_min] -- and the
    iteration is declared converged. And [takeStep] does return on every
    accepted trial that it reaches, with that verdict. *)
Theorem takeStep_converged :
  (forall fuel r,
     takeStep fuel s sched baseline timeDiscretization initState subproblemSolution x u
       = Returns r ->
     exists k alpha xNew uNew performanceNew,
       trial k alpha xNew uNew performanceNew
       /\ (stepAccepted settings baseline performanceNew alpha m = true
             /\ stepPerformance r = performanceNew /\ x_out r = xNew /\ u_out r = uNew
             /\ (converged r = true <->
                   (alpha * trajectoryNorm du < deltaTol settings
                      /\ alpha * trajectoryNorm dx < deltaTol settings)
                   \/ (Qabs (merit baseline - merit performanceNew) < costTol settings
                         /\ constraintViolation performanceNew < g_min settings))
           \/ stepAccepted settings baseline performanceNew alpha m = false
             /\ ((alpha * trajectoryNorm du < deltaTol settings
                    /\ alpha * trajectoryNorm dx < deltaTol settings)
                 \/ alpha * alpha_decay settings <= alpha_min settings)
             /\ r = stalled_ /\ converged r = true))
  /\ (forall k alpha xNew uNew performanceNew fuel,
        trial k alpha xNew uNew performanceNew ->
        stepAccepted settings baseline performanceNew alpha m = true ->
        exists r,
          takeStep (k + S fuel) s sched baseline timeDiscretization initState
                   subproblemSolution x u = Returns r
          /\ stepPerformance r = performanceNew /\ x_out r = xNew /\ u_out r = uNew
          /\ (converged r = true <->
                (alpha * trajectoryNorm du < deltaTol settings
                   /\ alpha * trajectoryNorm dx < deltaTol settings)
                \/ (Qabs (merit baseline - merit performanceNew) < costTol settings
                      /\ constraintViolation performanceNew < g_min settings))).
Proof.
  assert (forall alpha performanceNew,
            stepSizeBelowTol settings alpha (trajectoryNorm du) (trajectoryNorm dx)
            || improvementBelowTol settings baseline performanceNew = true <->
            (alpha * trajectoryNorm du < deltaTol settings
               /\ alpha * trajectoryNorm dx < deltaTol settings)
            \/ (Qabs (merit baseline - merit performanceNew) < costTol settings
                  /\ constraintViolation performanceNew < g_min settings)) as Hflag.
  { intros alpha performanceNew.
    rewrite orb_true_iff, stepSizeBelowTol_lt, improvementBelowTol_lt. reflexivity. }
  split.
  - intros fuel r E. unfold takeStep in E.
    apply (lineSearch_returns _ _ _ _ _ _ (Ready_first _ _ _ _ _ _ _ _)) in E
      as (k & alpha & xNew & uNew & performanceNew & Htrial & Hverdict).
    exists k, alpha, xNew, uNew, performanceNew. split; [exact Htrial|].
    destruct Hverdict as [[Hacc ->]|(Hrej & Hstop & ->)].
    + left. split; [exact Hacc|]. simpl. repeat split; try reflexivity; apply Hflag.
    + right. split; [exact Hrej|]. split; [|split; reflexivity].
      destruct Hstop as [Hc|Hc].
      * left. apply stepSizeBelowTol_lt. exact Hc.
      * right. apply Qltb_ge. exact Hc.
  - intros k alpha xNew uNew performanceNew fuel Htrial Hacc.
    exists (accepted_ alpha xNew uNew performanceNew).
    rewrite (takeStep_trial _ _ _ _ _ _ Htrial), Hacc. simpl.
    repeat split; try reflexivity; apply Hflag.
Qed.

End LineSearchProperties.

(** ** Performance sweeps and the QP step *)

Section SweepProperties.
Context `{Collaborators}.

Lemma totalPerformance_merit performance initState x p :
  totalPerformance performance initState x = Returns p ->
  merit p = totalCost p + inequalityConstraintPenalty p.
Proof.
  unfold totalPerformance. intros E. inv_bind. injection E as <-. reflexivity.
Qed.

(** **** Claim C4 (as amended).
    Every [PerformanceIndex] that [computePerformance] and
    [setupQuadraticSubproblem] return has
    [merit = totalCost + inequalityConstraintPenalty]: the violations of
    the equality and state constraints are reported in their own fields
    and add nothing to the merit. *)
Theorem merit_of_sweeps :
  (forall s sched timeDiscretization initState x u p,
     computePerformance s sched timeDiscretization initState x u = Returns p ->
     merit p = totalCost p + inequalityConstraintPenalty p)
  /\ (forall s sched timeDiscretization initState x u p s',
     setupQuadraticSubproblem s sched timeDiscretization initState x u = Returns (p, s') ->
     merit p = totalCost p + inequalityConstraintPenalty p).
Proof.
  split.
  - intros s sched timeDiscretization initState x u p E.
    unfold computePerformance in E.
    apply bind_Returns in E as (performance & _ & E).
    exact (totalPerformance_merit _ _ _ _ E).
  - intros s sched timeDiscretization initState x u p s' E.
    unfold setupQuadraticSubproblem in E.
    destruct (decide _); [discriminate|].
    apply bind_Returns in E as (st & _ & E).
    apply bind_Returns in E as (total & Htotal & E).
    injection E as <- _.
    exact (totalPerformance_merit _ _ _ _ Htotal).
Qed.

Lemma dot_nil_l (v : vector_t) : dot [] v = 0.
Proof. reflexivity. Qed.

Lemma descentMetric_from cst deltaX deltaU from n acc metric :
  (from + n <= length cst)%nat ->
  foldM (fun metric i =>
    ci <- at_ cst i ;;
    metric <- (if decide (0 < length (q_dfdx ci))%nat then
                 dxi <- at_ deltaX i ;; Returns (metric + dot (q_dfdx ci) dxi)
               else Returns metric) ;;
    if decide (0 < length (q_dfdu ci))%nat then
      dui <- at_ deltaU i ;; Returns (metric + dot (q_dfdu ci) dui)
    else Returns metric) acc (seq from n) = Returns metric ->
  metric == acc + Qsum (map (fun i =>
               match cst !! i with
               | Some ci => dot (q_dfdx ci) (default [] (deltaX !! i))
                            + dot (q_dfdu ci) (default [] (deltaU !! i))
               | None => 0
               end) (seq from n)).
Proof.
  revert from acc. induction n as [|n IH]; intros from acc Hlen E.
  - injection E as <-. simpl. ring.
  - cbn [seq foldM] in E. apply bind_Returns in E as (acc' & Hbody & E).
    apply IH in E; [|lia]. rewrite E. cbn [seq map Qsum foldr].
    assert (acc' == acc + match cst !! from with
                          | Some ci => dot (q_dfdx ci) (default [] (deltaX !! from))
                                       + dot (q_dfdu ci) (default [] (deltaU !! from))
                          | None => 0
                          end) as ->; [|unfold Qsum; ring].
    clear E IH.
    apply bind_Returns in Hbody as (ci & Hci & Hbody).
    apply at_Returns in Hci. rewrite Hci.
    apply bind_Returns in Hbody as (mid & Hmid & Hbody).
    assert (mid == acc + dot (q_dfdx ci) (default [] (deltaX !! from))) as Hx.
    { destruct (decide (0 < length (q_dfdx ci))%nat) as [Hpos|Hzero].
      - apply bind_Returns in Hmid as (dxi & Hdxi & Hmid).
        apply at_Returns in Hdxi. rewrite Hdxi. injection Hmid as <-. reflexivity.
      - injection Hmid as <-.
        destruct (q_dfdx ci); [|simpl in Hzero; lia]. rewrite dot_nil_l. ring. }
    assert (acc' == mid + dot (q_dfdu ci) (default [] (deltaU !! from))) as Hu.
    { destruct (decide (0 < length (q_dfdu ci))%nat) as [Hpos|Hzero].
      - apply bind_Returns in Hbody as (dui & Hdui & Hbody).
        apply at_Returns in Hdui. rewrite Hdui. injection Hbody as <-. reflexivity.
      - injection Hbody as <-.
        destruct (q_dfdu ci); [|simpl in Hzero; lia]. rewrite dot_nil_l. ring. }
    rewrite Hu, Hx. ring.
Qed.

Lemma descentMetric_sum cst deltaX deltaU metric :
  descentMetric cst deltaX deltaU = Returns metric ->
  metric == gradientDotStep cst deltaX deltaU.
Proof.
  intros E. apply descentMetric_from in E; [|simpl; lia].
  rewrite E. unfold gradientDotStep. ring.
Qed.

(** The inputs after the remap: expanded where the projection of the node
    is not empty, as the QP returned them elsewhere. *)
Lemma remapProjectedInput_spec proj deltaX deltaU deltaU' :
  remapProjectedInput proj deltaX deltaU = Returns deltaU' ->
  length deltaU' = length deltaU
  /\ forall i dui, deltaU !! i = Some dui ->
       exists pi, proj !! i = Some pi
         /\ deltaU' !! i =
              Some (if decide (0 < length (f pi))%nat
                    then expandInput pi dui (default [] (deltaX !! i)) else dui).
Proof.
  intros E. unfold remapProjectedInput in E.
  pose (P := fun (n : nat) (cur : vector_array_t) =>
    length cur = length deltaU
    /\ (forall j, (n <= j)%nat -> cur !! j = deltaU !! j)
    /\ (forall j dj, (j < n)%nat -> deltaU !! j = Some dj ->
          exists pj, proj !! j = Some pj
            /\ cur !! j =
                 Some (if decide (0 < length (f pj))%nat
                       then expandInput pj dj (default [] (deltaX !! j)) else dj))).
  assert (P (0 + length deltaU)%nat deltaU') as (Hlen & _ & Hdone).
  { refine (foldM_seq_invariant P _ 0 (length deltaU) deltaU deltaU' _ _ E).
    - split; [reflexivity|]. split; [reflexivity|]. intros j dj Hj. lia.
    - clear E. intros cur i cur' (Hl & Hrest & Hold) Hrange Hbody.
      apply bind_Returns in Hbody as (pi & Hpi & Hbody). apply at_Returns in Hpi.
      destruct (decide (0 < length (f pi))%nat) as [Hpos|Hzero].
      + apply bind_Returns in Hbody as (dui & Hdui & Hbody). apply at_Returns in Hdui.
        apply bind_Returns in Hbody as (dxi & Hdxi & Hbody). apply at_Returns in Hdxi.
        apply assign_Returns in Hbody as [Hlt ->].
        split; [rewrite length_insert; exact Hl|]. split.
        * intros j Hj. rewrite list_lookup_insert_ne by lia. apply Hrest. lia.
        * intros j dj Hj Hdj. destruct (decide (j = i)) as [->|Hne].
          -- exists pi. split; [exact Hpi|].
             rewrite list_lookup_insert_eq by exact Hlt.
             rewrite (Hrest i) in Hdui by lia.
             assert (dui = dj) as -> by congruence.
             rewrite Hdxi. destruct (decide _); [reflexivity|contradiction].
          -- rewrite list_lookup_insert_ne by congruence. apply Hold; [lia|exact Hdj].
      + injection Hbody as <-.
        split; [exact Hl|]. split.
        * intros j Hj. apply Hrest. lia.
        * intros j dj Hj Hdj. destruct (decide (j = i)) as [->|Hne].
          -- exists pi. split; [exact Hpi|].
             rewrite (Hrest i) by lia. rewrite Hdj.
             destruct (decide _); [contradiction|reflexivity].
          -- apply Hold; [lia|exact Hdj]. }
  split; [exact Hlen|]. intros i dui Hi. apply Hdone; [|exact Hi].
  apply lookup_lt_Some in Hi. lia.
Qed.

(** **** Claim C3 (as amended).
    [getOCPSolution] computes the Armijo descent metric as the sum over the
    nodes [i] of [cost_] of [dfdx_i . dx_i + dfdu_i . du_i], where [dx] and
    [du] are the steps exactly as the QP solver returned them. With
    [projectStateInputEqualityConstraints] the inputs are expanded
    afterwards, at every node with a non-empty projection, to
    [P_u * du_tilde + p0 + P_x * dx]; the metric is not computed again: it
    stays the one of the projected (tilde) inputs. *)
Theorem getOCPSolution_descent_metric s delta_x0 sol s' :
  getOCPSolution s delta_x0 = Returns (sol, s') ->
  exists ocp0 hpipm deltaX deltaUtilde,
    front (ocpDefinitions_ s) = Returns ocp0
    /\ solveQP s ocp0 delta_x0 = (hpipm, SUCCESS, deltaX, deltaUtilde)
    /\ deltaXSol sol = deltaX
    /\ armijoDescentMetric sol == gradientDotStep (cost_ s) deltaX deltaUtilde
    /\ (projectStateInputEqualityConstraints (settings_ s) = false ->
        deltaUSol sol = deltaUtilde)
    /\ (projectStateInputEqualityConstraints (settings_ s) = true ->
        length (deltaUSol sol) = length deltaUtilde
        /\ forall i dui, deltaUtilde !! i = Some dui ->
             exists pi, constraintsProjection_ s !! i = Some pi
               /\ deltaUSol sol !! i =
                    Some (if decide (0 < length (f pi))%nat
                          then expandInput pi dui (default [] (deltaX !! i))
                          else dui)).
Proof.
  unfold getOCPSolution. intros E.
  apply bind_Returns in E as (ocp0 & Hocp & E).
  destruct (solveQP s ocp0 delta_x0) as [[[hpipm status] deltaX] deltaUtilde] eqn:Hqp.
  destruct (decide (status <> SUCCESS)) as [|Hok]; [discriminate|].
  assert (status = SUCCESS) as ->
    by (destruct (decide (status = SUCCESS)); [assumption|contradiction]).
  apply bind_Returns in E as (metric & Hmetric & E).
  apply bind_Returns in E as (deltaU & Hremap & E).
  injection E as <- _. simpl.
  exists ocp0, hpipm, deltaX, deltaUtilde.
  split; [exact Hocp|]. split; [exact Hqp|]. split; [reflexivity|].
  split; [exact (descentMetric_sum _ _ _ _ Hmetric)|].
  destruct (projectStateInputEqualityConstraints (settings_ s)).
  - split; [discriminate|]. intros _. exact (remapProjectedInput_spec _ _ _ _ Hremap).
  - split; [|discriminate]. intros _. injection Hremap as <-. reflexivity.
Qed.

End SweepProperties.

(** ** The primal solution *)

Section PrimalSolutionProperties.
Context `{Collaborators}.

(** After the correction loop, an input at a pre-event node behind the
    first is the input before it; every other input is untouched. *)
Lemma repeatInputAtPreEvents_spec timeDiscretization (u u' : vector_array_t) :
  repeatInputAtPreEvents timeDiscretization u = Returns u' ->
  length u' = length u
  /\ forall i ti, timeDiscretization !! i = Some ti ->
       if decide (event ti = PreEvent /\ 0 < i)%nat
       then exists ui, u' !! i = Some ui /\ u' !! (i - 1)%nat = Some ui
       else u' !! i = u !! i.
Proof.
  intros E. unfold repeatInputAtPreEvents in E.
  pose (P := fun (n : nat) (cur : vector_array_t) =>
    length cur = length u
    /\ (forall j, (n <= j)%nat -> cur !! j = u !! j)
    /\ (forall j tj, (j < n)%nat -> timeDiscretization !! j = Some tj ->
          if decide (event tj = PreEvent /\ 0 < j)%nat
          then exists uj, cur !! j = Some uj /\ cur !! (j - 1)%nat = Some uj
          else cur !! j = u !! j)).
  assert (P (0 + length timeDiscretization)%nat u') as (Hlen & _ & Hdone).
  { refine (foldM_seq_invariant P _ 0 (length timeDiscretization) u u' _ _ E).
    - split; [reflexivity|]. split; [reflexivity|]. intros j tj Hj. lia.
    - clear E. intros cur i cur' (Hl & Hrest & Hold) Hrange Hbody.
      apply bind_Returns in Hbody as (ti & Hti & Hbody). apply at_Returns in Hti.
      destruct (decide (event ti = PreEvent /\ 0 < i)%nat) as [[Hpre Hpos]|Hno].
      + apply bind_Returns in Hbody as (prev & Hprev & Hbody). apply at_Returns in Hprev.
        apply assign_Returns in Hbody as [Hlt ->].
        split; [rewrite length_insert; exact Hl|]. split.
        * intros j Hj. rewrite list_lookup_insert_ne by lia. apply Hrest. lia.
        * intros j tj Hj Htj. destruct (decide (j = i)) as [->|Hne].
          -- assert (tj = ti) as -> by congruence.
             destruct (decide _) as [_|Hn]; [|exfalso; apply Hn; auto].
             exists prev. rewrite list_lookup_insert_eq by exact Hlt.
             rewrite list_lookup_insert_ne by lia. auto.
          -- specialize (Hold j tj ltac:(lia) Htj).
             destruct (decide _).
             ++ destruct Hold as (uj & H1 & H2). exists uj.
                rewrite !list_lookup_insert_ne by lia. auto.
             ++ rewrite list_lookup_insert_ne by lia. exact Hold.
      + injection Hbody as <-. split; [exact Hl|]. split.
        * intros j Hj. apply Hrest. lia.
        * intros j tj Hj Htj. destruct (decide (j = i)) as [->|Hne].
          -- assert (tj = ti) as -> by congruence.
             destruct (decide _) as [Hyes|_]; [contradiction|].
             apply Hrest. lia.
          -- apply Hold; [lia|exact Htj]. }
  split; [exact Hlen|]. intros i ti Hi. apply (Hdone i ti); [|exact Hi].
  apply lookup_lt_Some in Hi. lia.
Qed.


(** What the feedback loop leaves behind for the nodes [i] with
    [i + 1 < time.size()]. *)
Lemma feedbackLoop_spec timeDiscretization KMatrices x (u' : vector_array_t)
    (proj0 : list VectorFunctionLinearApproximation) uff controllerGain proj :
  feedbackLoop timeDiscretization KMatrices x (u', [], proj0)
    = Returns (uff, controllerGain, proj) ->
  length controllerGain = (length timeDiscretization - 1)%nat
  /\ length uff = length u'
  /\ forall i ti, (i + 1 < length timeDiscretization)%nat ->
       timeDiscretization !! i = Some ti ->
       if decide (event ti = PreEvent /\ 0 < i)%nat
       then (exists g, controllerGain !! i = Some g
                       /\ controllerGain !! (i - 1)%nat = Some g)
            /\ (exists b, uff !! i = Some b /\ uff !! (i - 1)%nat = Some b)
       else exists pi Ki ui xi,
              proj0 !! i = Some pi /\ KMatrices !! i = Some Ki
              /\ u' !! i = Some ui /\ x !! i = Some xi
              /\ controllerGain !! i = Some (nodeGain pi Ki)
              /\ uff !! i = Some (vsub ui (mvmul (nodeGain pi Ki) xi)).
Proof.
  intros E. unfold feedbackLoop in E.
  pose (P := fun (n : nat)
      (st : vector_array_t * matrix_array_t * list VectorFunctionLinearApproximation) =>
    let '(uff, gain, proj) := st in
    length gain = n
    /\ length uff = length u'
    /\ (forall j, (n <= j)%nat -> uff !! j = u' !! j /\ proj !! j = proj0 !! j)
    /\ (forall j tj, (j < n)%nat -> timeDiscretization !! j = Some tj ->
          if decide (event tj = PreEvent /\ 0 < j)%nat
          then (exists g, gain !! j = Some g /\ gain !! (j - 1)%nat = Some g)
               /\ (exists b, uff !! j = Some b /\ uff !! (j - 1)%nat = Some b)
          else exists pj Kj uj xj,
                 proj0 !! j = Some pj /\ KMatrices !! j = Some Kj
                 /\ u' !! j = Some uj /\ x !! j = Some xj
                 /\ gain !! j = Some (nodeGain pj Kj)
                 /\ uff !! j = Some (vsub uj (mvmul (nodeGain pj Kj) xj)))).
  assert (P (0 + (length timeDiscretization - 1))%nat (uff, controllerGain, proj))
    as (Hgain & Huff & _ & Hdone).
  { refine (foldM_seq_invariant P _ 0 _ _ _ _ _ E).
    - simpl. split; [reflexivity|]. split; [reflexivity|]. split; [auto|].
      intros j tj Hj. lia.
    - clear E. intros [[uff1 gain1] proj1] i [[uff2 gain2] proj2].
      intros (Hg & Hu & Hrest & Hold) Hrange Hbody.
      cbv beta iota in Hbody.
      apply bind_Returns in Hbody as (ti & Hti & Hbody). apply at_Returns in Hti.
      destruct (decide (event ti = PreEvent /\ 0 < i)%nat) as [[Hpre Hpos]|Hno].
      + apply bind_Returns in Hbody as (prev & Hprev & Hbody). apply at_Returns in Hprev.
        apply bind_Returns in Hbody as (uff' & Hassign & Hbody).
        apply assign_Returns in Hassign as [Hlt ->].
        apply bind_Returns in Hbody as (g & Hback & Hbody).
        apply back_Returns in Hback. rewrite last_lookup, Hg in Hback.
        replace (Init.Nat.pred i) with (i - 1)%nat in Hback by lia.
        injection Hbody as <- <- <-.
        split; [rewrite length_app; simpl; lia|].
        split; [rewrite length_insert; exact Hu|]. split.
        * intros j Hj. rewrite list_lookup_insert_ne by lia. apply Hrest. lia.
        * intros j tj Hj Htj. destruct (decide (j = i)) as [->|Hne].
          -- assert (tj = ti) as -> by congruence.
             destruct (decide (event ti = PreEvent /\ 0 < i)%nat) as [_|Hn];
               [|exfalso; apply Hn; auto]. split.
             ++ exists g. split.
                ** rewrite lookup_app_r by lia. rewrite Hg, Nat.sub_diag. reflexivity.
                ** rewrite lookup_app_l by lia. exact Hback.
             ++ exists prev. rewrite list_lookup_insert_eq by exact Hlt.
                rewrite list_lookup_insert_ne by lia. auto.
          -- specialize (Hold j tj ltac:(lia) Htj).
             destruct (decide (event tj = PreEvent /\ 0 < j)%nat).
             ++ destruct Hold as [(g' & G1 & G2) (b & B1 & B2)]. split.
                ** exists g'. rewrite !lookup_app_l by lia. auto.
                ** exists b. rewrite !list_lookup_insert_ne by lia. auto.
             ++ destruct Hold as (pj & Kj & uj & xj & A1 & A2 & A3 & A4 & A5 & A6).
                exists pj, Kj, uj, xj. rewrite lookup_app_l by lia.
                rewrite list_lookup_insert_ne by lia. auto 10.
      + apply bind_Returns in Hbody as (pi & Hpi & Hbody). apply at_Returns in Hpi.
        apply bind_Returns in Hbody as (Ki & HKi & Hbody). apply at_Returns in HKi.
        apply bind_Returns in Hbody as (proj' & Hproj & Hbody).
        apply bind_Returns in Hbody as (uffi & Huffi & Hbody). apply at_Returns in Huffi.
        apply bind_Returns in Hbody as (xi & Hxi & Hbody). apply at_Returns in Hxi.
        apply bind_Returns in Hbody as (uff' & Hassign & Hbody).
        apply assign_Returns in Hassign as [Hlt ->].
        injection Hbody as <- <- <-.
        fold (nodeGain pi Ki).
        destruct (Hrest i ltac:(lia)) as [Hui Hpi0].
        rewrite Hui in Huffi. rewrite Hpi0 in Hpi.
        split; [rewrite length_app; simpl; lia|].
        split; [rewrite length_insert; exact Hu|]. split.
        * intros j Hj. rewrite list_lookup_insert_ne by lia.
          destruct (Hrest j ltac:(lia)) as [R1 R2]. split; [exact R1|].
          destruct (decide (0 < length (f pi))%nat).
          -- apply assign_Returns in Hproj as [_ ->].
             rewrite list_lookup_insert_ne by lia. exact R2.
          -- injection Hproj as <-. exact R2.
        * intros j tj Hj Htj. destruct (decide (j = i)) as [->|Hne].
          -- assert (tj = ti) as -> by congruence.
             destruct (decide (event ti = PreEvent /\ 0 < i)%nat) as [Hyes|_];
               [exact (False_ind _ (Hno Hyes))|].
             exists pi, Ki, uffi, xi.
             rewrite lookup_app_r by lia. rewrite Hg, Nat.sub_diag.
             rewrite list_lookup_insert_eq by exact Hlt. auto 10.
          -- specialize (Hold j tj ltac:(lia) Htj).
             destruct (decide (event tj = PreEvent /\ 0 < j)%nat).
             ++ destruct Hold as [(g' & G1 & G2) (b & B1 & B2)]. split.
                ** exists g'. rewrite !lookup_app_l by lia. auto.
                ** exists b. rewrite !list_lookup_insert_ne by lia. auto.
             ++ destruct Hold as (pj & Kj & uj & xj & A1 & A2 & A3 & A4 & A5 & A6).
                exists pj, Kj, uj, xj. rewrite lookup_app_l by lia.
                rewrite list_lookup_insert_ne by lia. auto 10. }
  split; [exact Hgain|]. split; [exact Huff|].
  intros i ti Hi Hti. apply (Hdone i ti); [lia|exact Hti].
Qed.


End PrimalSolutionProperties.

(** ** The statements at work on the example *)

Section OnTheExample.
Import Example.

(** [add] and [get] on a collection with the names [a] and [b]. *)
Example Collection_add_get_example :
  let c := Collection.add_all [("a"%string, 1%nat); ("b"%string, 5%nat)] Collection.new in
  (Collection.add "b" 2%nat c).2 = c
  /\ Collection.terms_ (Collection.add "c" 2%nat c).2 = [1%nat; 5%nat; 2%nat]
  /\ Collection.get "c" (Collection.add "c" 2%nat c).2 = Returns 2%nat
  /\ Collection.get "c" c = Throws out_of_range.
Proof. vm_compute. auto. Qed.

(** A candidate whose violation [theta = 11] exceeds [g_max = 10] is
    rejected, however much lower its merit is. *)
Example stepAccepted_example :
  stepAccepted settings baseline0
    {| merit := -100; totalCost := -100; stateEqConstraintISE := 121;
       stateInputEqConstraintISE := 0; inequalityConstraintISE := 0;
       inequalityConstraintPenalty := 0 |} 1 (-1) = false
  /\ stepAccepted coarse baseline0 downhillPerformance0 1 (-1) = true.
Proof. split; vm_compute; reflexivity. Qed.

(** A run of two iterations logs two entries; a run of none logs nothing,
    and asking for the log then throws. *)
Example runImpl_log_example :
  outcome_bind (fun s' => Returns (length (performanceIndeces_ s'), totalNumIterations_ s'))
    (runImpl 10 roundRobin (solver settings unconstrained replay) 0 [1] 1)
    = Returns (2%nat, 2%nat)
  /\ outcome_bind getIterationsLog
       (runImpl 10 roundRobin
          (solver (set_projectStateInputEqualityConstraints false
                     {| sqpIteration := 0; deltaTol := 1; costTol := 0;
                        alpha_decay := 1 # 2; alpha_min := 3 # 10; gamma_c := 1 # 1000;
                        g_max := 10; g_min := 1 # 1000; armijoFactor := 1 # 10; dt := 1;
                        useFeedbackPolicy := false;
                        projectStateInputEqualityConstraints := false;
                        printSolverStatus := false; printSolverStatistics := false;
                        printLinesearch := false; nThreads := 1 |})
                  unconstrained replay) 0 [1] 1)
     = Throws no_log_yet.
Proof. split; vm_compute; reflexivity. Qed.

(** The settings ask for the projection, the problem has no equality
    constraint: the solver has the projection switched off. *)
Lemma constructor_disables_projection_witness :
  projectStateInputEqualityConstraints settings = true
  /\ projectStateInputEqualityConstraints
       (settings_ (MultipleShootingSolver_new settings unconstrained replay noSchedule))
     = false.
Proof.
  split; [reflexivity|].
  apply (constructor_disables_projection (H := collaborators)
           settings unconstrained replay noSchedule).
  reflexivity.
Defined.

Lemma uphill_trial1 :
  Trial searching (roundRobin O) baseline0 grid [1] uphill x0 u0
        1 (1 * (1 # 2)) uphill1.1 uphill1.2 uphillPerformance1.
Proof.
  exists [[1]; [4]], [[3]]. split; [|split].
  - apply readyAt_sound. vm_compute. reflexivity.
  - vm_compute. reflexivity.
  - vm_compute. reflexivity.
Qed.

(** The step [uphill] is rejected at step lengths [1] and [1/2]; the next
    one, [1/4], is below the floor [3/10]: the search gives up. *)
Lemma takeStep_stalled_witness :
  takeStep 2 searching (roundRobin O) baseline0 grid [1] uphill x0 u0
    = Returns {| converged := true; stepPerformance := baseline0;
                 x_out := x0; u_out := u0 |}.
Proof.
  apply (takeStep_stalled searching (roundRobin O) baseline0 grid [1] uphill x0 u0
           1 (1 * (1 # 2)) uphill1.1 uphill1.2 uphillPerformance1 2).
  - exact uphill_trial1.
  - vm_compute. reflexivity.
  - right. vm_compute. discriminate.
  - lia.
Defined.

(** The step [downhill] is accepted at step length [1]. *)
Lemma takeStep_converged_witness :
  exists k alpha xNew uNew performanceNew,
    Trial searching (roundRobin O) baseline0 grid [1] downhill x0 u0
          k alpha xNew uNew performanceNew
    /\ (stepAccepted coarse baseline0 performanceNew alpha (-1) = true
          /\ stepPerformance downhillStep = performanceNew
          /\ x_out downhillStep = xNew /\ u_out downhillStep = uNew
          /\ (converged downhillStep = true <->
                (alpha * trajectoryNorm (deltaUSol downhill) < 1
                   /\ alpha * trajectoryNorm (deltaXSol downhill) < 1)
                \/ (Qabs (merit baseline0 - merit performanceNew) < 0
                      /\ constraintViolation performanceNew < 1 # 1000))
        \/ stepAccepted coarse baseline0 performanceNew alpha (-1) = false
          /\ ((alpha * trajectoryNorm (deltaUSol downhill) < 1
                 /\ alpha * trajectoryNorm (deltaXSol downhill) < 1)
              \/ alpha * (1 # 2) <= 3 # 10)
          /\ downhillStep = stalled baseline0 x0 u0 /\ converged downhillStep = true).
Proof.
  apply (proj1 (takeStep_converged searching (roundRobin O) baseline0 grid [1] downhill
                  x0 u0) 1%nat downhillStep).
  vm_compute. reflexivity.
Defined.

(** Claim C2 as stated fails here: the step [downhill] is accepted at step
    length [1] and the iteration is declared converged, with
    [alpha |du| = alpha |dx| = 3/5] below [deltaTol = 1] each, although
    their sum [6/5] is not and the merit changed by more than [costTol]. *)
Lemma converged_though_sum_not_small :
  outcome_bind
    (fun r =>
       Returns (stepAccepted coarse baseline0 (stepPerformance r) 1
                             (armijoDescentMetric downhill),
                converged r,
                converged_as_specified coarse baseline0 (stepPerformance r) 1
                  (trajectoryNorm (deltaUSol downhill))
                  (trajectoryNorm (deltaXSol downhill))))
    (takeStep 1 searching (roundRobin O) baseline0 grid [1] downhill x0 u0)
  = Returns (true, true, false).
Proof. vm_compute. reflexivity. Qed.

(** The step that the QP interface returns for the projected problem. *)
Lemma getOCPSolution_descent_metric_witness :
  exists ocp0 hpipm deltaX deltaUtilde,
    front (ocpDefinitions_ projected) = Returns ocp0
    /\ solveQP projected ocp0 [0] = (hpipm, SUCCESS, deltaX, deltaUtilde)
    /\ deltaXSol projectedStep.1 = deltaX
    /\ armijoDescentMetric projectedStep.1
         == gradientDotStep (cost_ projected) deltaX deltaUtilde
    /\ (projectStateInputEqualityConstraints (settings_ projected) = false ->
        deltaUSol projectedStep.1 = deltaUtilde)
    /\ (projectStateInputEqualityConstraints (settings_ projected) = true ->
        length (deltaUSol projectedStep.1) = length deltaUtilde
        /\ forall i dui, deltaUtilde !! i = Some dui ->
             exists pi, constraintsProjection_ projected !! i = Some pi
               /\ deltaUSol projectedStep.1 !! i =
                    Some (if decide (0 < length (f pi))%nat
                          then expandInput pi dui (default [] (deltaX !! i))
                          else dui)).
Proof.
  apply (getOCPSolution_descent_metric projected [0] projectedStep.1 projectedStep.2).
  vm_compute. reflexivity.
Defined.

(** Claim C3 as stated fails here: with the projection enabled the metric
    that [getOCPSolution] returns is [-3], the one of the projected inputs;
    computed again from the expanded inputs it would be [-7]. *)
Lemma descent_metric_not_recomputed :
  projectStateInputEqualityConstraints (settings_ projected) = true
  /\ outcome_bind
       (fun r =>
          outcome_bind
            (fun again =>
               Returns (Qeq_bool (armijoDescentMetric r.1) again,
                        Qred (armijoDescentMetric r.1), Qred again))
            (descentMetric (cost_ projected) (deltaXSol r.1) (deltaUSol r.1)))
       (getOCPSolution projected [0])
     = Returns (false, -3, -7).
Proof. split; vm_compute; reflexivity. Qed.

(** Claim C4 as stated fails here: the sweep reports the violation
    [stateEqConstraintISE = 4] of the initial-state constraint, and the
    merit is the total cost all the same, so it holds no penalty for it. *)
Lemma merit_without_equality_penalty :
  ~ exists penalties : PerformanceIndex -> scalar_t,
      (forall p, 0 < stateEqConstraintISE p + stateInputEqConstraintISE p ->
                 0 < penalties p)
      /\ exists p,
           computePerformance searching (roundRobin O O) grid [3] x0 u0 = Returns p
           /\ merit p == merit_as_specified penalties p.
Proof.
  intros (penalties & Hpos & p & E & Hmerit).
  assert (computePerformance searching (roundRobin O O) grid [3] x0 u0
          = Returns {| merit := 2; totalCost := 2; stateEqConstraintISE := 4;
                       stateInputEqConstraintISE := 0; inequalityConstraintISE := 0;
                       inequalityConstraintPenalty := 0 |}) as E'
    by (vm_compute; reflexivity).
  rewrite E' in E. injection E as <-.
  match type of Hmerit with
  | _ == merit_as_specified _ ?p =>
      assert (0 < penalties p) as Hpenalty by (apply Hpos; reflexivity)
  end.
  unfold merit_as_specified in Hmerit. simpl in Hmerit. lra.
Qed.




(** The test on doubles: a candidate of merit [0] against a feasible
    baseline of merit [2] passes with no violation, and fails with the
    violation [2e6 > g_max = 1e6]. *)
Example stepAccepted_double_example :
  Double.stepAccepted Double.defaults Double.feasible
    {| Double.merit := Double.of_Z 0; Double.totalCost := Double.of_Z 0;
       Double.stateEqConstraintISE := Double.of_Z 0;
       Double.stateInputEqConstraintISE := Double.of_Z 0;
       Double.inequalityConstraintISE := Double.of_Z 0;
       Double.inequalityConstraintPenalty := Double.of_Z 0 |}
    (Double.of_Z 1) (Double.of_Z (-1)) = true
  /\ Double.constraintViolation Double.violating = Double.of_Z 2000000
  /\ Double.stepAccepted Double.defaults Double.feasible Double.violating
       (Double.of_Z 1) (Double.of_Z (-1)) = false.
Proof. vm_compute. auto. Qed.


End OnTheExample.

(** * Further properties *)

(** ** [Collection]: lookups after many insertions, and copies *)

Section CollectionLookup.
Context {T : Type}.
Implicit Types (c : Collection.t T) (name : string) (term : T).

Lemma indexed_add c name term :
  indexed c -> indexed (Collection.add name term c).2.
Proof.
  intros Hc. unfold Collection.add.
  destruct (Collection.termNameMap_ c !! name) as [i|] eqn:E; simpl; [exact Hc|].
  intros n j. simpl. rewrite length_app. simpl.
  destruct (decide (name = n)) as [->|Hne].
  - rewrite lookup_insert_eq. intros [= <-]. lia.
  - rewrite lookup_insert_ne by exact Hne. intros Hj. apply Hc in Hj. lia.
Qed.

Lemma get_add_all (l : list (string * T)) c name :
  indexed c ->
  Collection.get name (Collection.add_all l c) =
    match Collection.termNameMap_ c !! name with
    | Some _ => Collection.get name c
    | None =>
        match firstAdded name l with
        | Some term => Returns term
        | None => Throws out_of_range
        end
    end.
Proof.
  revert c. induction l as [|[n t] l IH]; intros c Hc.
  - simpl. unfold Collection.get.
    destruct (Collection.termNameMap_ c !! name); reflexivity.
  - cbn [Collection.add_all foldl fst snd]. 
    change (foldl _ ?c0 l) with (Collection.add_all l c0).
    rewrite (IH _ (indexed_add c n t Hc)). clear IH.
    unfold Collection.add.
    destruct (Collection.termNameMap_ c !! n) as [i|] eqn:En; simpl.
    + destruct (Collection.termNameMap_ c !! name) as [j|] eqn:Ename; [reflexivity|].
      destruct (decide (n = name)) as [->|Hne]; [congruence|reflexivity].
    + destruct (decide (n = name)) as [->|Hne].
      * rewrite lookup_insert_eq, En. unfold Collection.get. simpl.
        rewrite lookup_insert_eq. apply at_Returns.
        rewrite lookup_app_r by lia. rewrite Nat.sub_diag. reflexivity.
      * rewrite lookup_insert_ne by exact Hne.
        destruct (Collection.termNameMap_ c !! name) as [j|] eqn:Ename; [|reflexivity].
        unfold Collection.get. simpl.
        rewrite lookup_insert_ne by exact Hne. rewrite Ename.
        unfold at_. rewrite lookup_app_l by exact (Hc _ _ Ename). reflexivity.
Qed.

(** **** X1. After any sequence of [add] calls on an empty collection,
    [get(name)] returns the term of the first call that used that name:
    later calls under the same name were refused and did not replace it,
    and calls under other names did not disturb it; for a name that no call
    used, [get] throws [std::out_of_range]. It never reads outside the
    term sequence. *)
Theorem Collection_get_first_added (l : list (string * T)) name :
  Collection.get name (Collection.add_all l Collection.new) =
    match firstAdded name l with
    | Some term => Returns term
    | None => Throws out_of_range
    end.
Proof.
  rewrite get_add_all.
  - simpl. rewrite lookup_empty. reflexivity.
  - intros n i. simpl. rewrite lookup_empty. discriminate.
Qed.

Lemma terms_add_all (l : list (string * T)) c (seen : list string) :
  (forall n, n ∈ seen <-> is_Some (Collection.termNameMap_ c !! n)) ->
  Collection.terms_ (Collection.add_all l c)
    = Collection.terms_ c ++ (firstOccurrences seen l).*2.
Proof.
  revert c seen. induction l as [|[n t] l IH]; intros c seen Hseen.
  - simpl. rewrite app_nil_r. reflexivity.
  - cbn [Collection.add_all foldl fst snd firstOccurrences].
    change (foldl _ ?c0 l) with (Collection.add_all l c0).
    unfold Collection.add.
    destruct (Collection.termNameMap_ c !! n) as [i|] eqn:En; simpl.
    + destruct (decide (n ∈ seen)) as [_|Hn].
      * apply IH. exact Hseen.
      * exfalso. apply Hn, Hseen. eauto.
    + destruct (decide (n ∈ seen)) as [Hin|_].
      * apply Hseen in Hin as [? Hin]. congruence.
      * rewrite (IH _ (n :: seen)).
        -- simpl. rewrite <- app_assoc. reflexivity.
        -- intros m. simpl. rewrite elem_of_cons, Hseen.
           destruct (decide (n = m)) as [->|Hne].
           ++ rewrite lookup_insert_eq. split; [eauto|]. intros _. left. reflexivity.
           ++ rewrite lookup_insert_ne by exact Hne. split; [|tauto].
              intros [->|Hm]; [congruence|exact Hm].
Qed.

(** **** X2. The term sequence of a collection holds one term per distinct
    name, in the order in which the names were first added: the terms of
    refused duplicates are not in it. So the collection is [empty()] only
    if no [add] was ever made. *)
Theorem Collection_terms_in_insertion_order (l : list (string * T)) :
  Collection.terms_ (Collection.add_all l Collection.new) = (firstOccurrences [] l).*2
  /\ (Collection.empty (Collection.add_all l Collection.new) = true <-> l = []).
Proof.
  assert (Collection.terms_ (Collection.add_all l Collection.new)
          = (firstOccurrences [] l).*2) as Hterms.
  { rewrite (terms_add_all l Collection.new []); [reflexivity|].
    intros n. simpl. rewrite lookup_empty, elem_of_nil.
    split; [tauto|]. intros [? E]. discriminate. }
  split; [exact Hterms|].
  unfold Collection.empty. rewrite Hterms.
  destruct l as [|[n t] l]; simpl.
  - tauto.
  - destruct (decide (n ∈ [])) as [Hin|_]; [apply elem_of_nil in Hin; tauto|].
    simpl. split; discriminate.
Qed.

(** **** X3. A copy of a collection answers [get(name)] with the clone of
    the term that the original holds under that name, and fails for
    exactly the names, and in the way, the original fails: the name map
    can be copied as it is because cloning keeps the order of the terms.
    A copy is empty if and only if the original is, and copying after an
    [add] gives the collection that adding the cloned term to the copy
    gives, with the same outcome of the call. *)
Theorem Collection_copy_get (clone : T -> T) c name term :
  Collection.get name (Collection_copy clone c)
    = outcome_bind (fun t => Returns (clone t)) (Collection.get name c)
  /\ Collection.empty (Collection_copy clone c) = Collection.empty c
  /\ Collection.add name (clone term) (Collection_copy clone c)
     = ((Collection.add name term c).1, Collection_copy clone (Collection.add name term c).2).
Proof.
  split; [|split].
  - unfold Collection.get, Collection_copy. simpl.
    destruct (Collection.termNameMap_ c !! name) as [i|]; [|reflexivity].
    unfold at_. rewrite list_lookup_fmap.
    destruct (Collection.terms_ c !! i); reflexivity.
  - unfold Collection.empty, Collection_copy. simpl.
    destruct (Collection.terms_ c); reflexivity.
  - unfold Collection.add, Collection_copy. simpl.
    destruct (Collection.termNameMap_ c !! name) as [i|]; simpl; [reflexivity|].
    rewrite map_app, length_map. reflexivity.
Qed.

End CollectionLookup.

(** ** Loops that stay in range *)

(** A loop returns when every turn does, and then keeps what the turns
    keep. *)
Lemma foldM_seq_returns {St : Type} (P : nat -> St -> Prop)
    (body : St -> nat -> outcome St) (from n : nat) (s : St) :
  P from s ->
  (forall s1 i, P i s1 -> (from <= i < from + n)%nat ->
                exists s2, body s1 i = Returns s2 /\ P (S i) s2) ->
  exists s', foldM body s (seq from n) = Returns s' /\ P (from + n)%nat s'.
Proof.
  revert from s. induction n as [|n IH]; intros from s Hs Hstep.
  - exists s. rewrite Nat.add_0_r. auto.
  - destruct (Hstep s from Hs ltac:(lia)) as (s1 & E1 & H1).
    destruct (IH (S from) s1 H1) as (s' & E & H').
    { intros s2 i H2 Hi. apply Hstep; [exact H2|lia]. }
    exists s'. cbn [seq foldM]. rewrite E1. simpl.
    replace (from + S n)%nat with (S from + n)%nat by lia. auto.
Qed.

(** ** The line search: its candidates, its step lengths and its end *)

Section CandidateProperties.

(** The candidate that [computeStep] writes: every state moved by
    [alpha * dx], every input moved by [alpha * du] where the input step
    is not empty, and the buffer left as it was where it is. *)
Lemma computeStep_returned alpha (x u dx du xBuffer uBuffer xNew uNew : vector_array_t) :
  computeStep alpha x u dx du xBuffer uBuffer = Returns (xNew, uNew) ->
  length xNew = length xBuffer
  /\ length uNew = length uBuffer
  /\ (length x <= length xBuffer)%nat
  /\ (forall i xi, x !! i = Some xi ->
        exists dxi, dx !! i = Some dxi
                    /\ xNew !! i = Some (vadd xi (vscale alpha dxi)))
  /\ (forall i ui, u !! i = Some ui ->
        exists dui, du !! i = Some dui
                    /\ uNew !! i = if decide (0 < length dui)%nat
                                   then Some (vadd ui (vscale alpha dui))
                                   else uBuffer !! i).
Proof.
  unfold computeStep. intros E.
  apply bind_Returns in E as (uN & Hu & E).
  apply bind_Returns in E as (xN & Hx & E).
  injection E as <- <-.
  pose (Pu := fun (n : nat) (cur : vector_array_t) =>
    length cur = length uBuffer
    /\ (forall j, (n <= j)%nat -> cur !! j = uBuffer !! j)
    /\ (forall j uj, (j < n)%nat -> u !! j = Some uj ->
          exists duj, du !! j = Some duj
                      /\ cur !! j = if decide (0 < length duj)%nat
                                    then Some (vadd uj (vscale alpha duj))
                                    else uBuffer !! j)).
  assert (Pu (0 + length u)%nat uN) as (Hul & _ & Hudone).
  { refine (foldM_seq_invariant Pu _ 0 (length u) uBuffer uN _ _ Hu).
    - split; [reflexivity|]. split; [reflexivity|]. intros j uj Hj. lia.
    - clear. intros cur i cur' (Hl & Hrest & Hold) Hrange Hbody.
      apply bind_Returns in Hbody as (dui & Hdui & Hbody). apply at_Returns in Hdui.
      destruct (decide (0 < length dui)%nat) as [Hpos|Hzero].
      + apply bind_Returns in Hbody as (ui & Hui & Hbody). apply at_Returns in Hui.
        apply assign_Returns in Hbody as [Hlt ->].
        split; [rewrite length_insert; exact Hl|]. split.
        * intros j Hj. rewrite list_lookup_insert_ne by lia. apply Hrest. lia.
        * intros j uj Hj Huj. destruct (decide (j = i)) as [->|Hne].
          -- exists dui. split; [exact Hdui|].
             destruct (decide (0 < length dui)%nat); [|contradiction].
             rewrite list_lookup_insert_eq by exact Hlt. congruence.
          -- rewrite list_lookup_insert_ne by congruence. apply Hold; [lia|exact Huj].
      + injection Hbody as <-. split; [exact Hl|]. split.
        * intros j Hj. apply Hrest. lia.
        * intros j uj Hj Huj. destruct (decide (j = i)) as [->|Hne].
          -- exists dui. split; [exact Hdui|].
             destruct (decide (0 < length dui)%nat); [contradiction|].
             apply Hrest. lia.
          -- apply Hold; [lia|exact Huj]. }
  pose (Px := fun (n : nat) (cur : vector_array_t) =>
    length cur = length xBuffer
    /\ (n <= length xBuffer)%nat
    /\ (forall j xj, (j < n)%nat -> x !! j = Some xj ->
          exists dxj, dx !! j = Some dxj
                      /\ cur !! j = Some (vadd xj (vscale alpha dxj)))).
  assert (Px (0 + length x)%nat xN) as (Hxl & Hxb & Hxdone).
  { refine (foldM_seq_invariant Px _ 0 (length x) xBuffer xN _ _ Hx).
    - split; [reflexivity|]. split; [lia|]. intros j xj Hj. lia.
    - clear. intros cur i cur' (Hl & Hb & Hold) Hrange Hbody.
      apply bind_Returns in Hbody as (xi & Hxi & Hbody). apply at_Returns in Hxi.
      apply bind_Returns in Hbody as (dxi & Hdxi & Hbody). apply at_Returns in Hdxi.
      apply assign_Returns in Hbody as [Hlt ->].
      split; [rewrite length_insert; exact Hl|]. split; [lia|].
      intros j xj Hj Hxj. destruct (decide (j = i)) as [->|Hne].
      + exists dxi. split; [exact Hdxi|].
        rewrite list_lookup_insert_eq by exact Hlt. congruence.
      + rewrite list_lookup_insert_ne by congruence. apply Hold; [lia|exact Hxj]. }
  split; [exact Hxl|]. split; [exact Hul|]. split; [exact Hxb|]. split.
  - intros i xi Hi. apply Hxdone; [|exact Hi]. apply lookup_lt_Some in Hi. lia.
  - intros i ui Hi. apply Hudone; [|exact Hi]. apply lookup_lt_Some in Hi. lia.
Qed.

(** [computeStep] stays in range when the steps cover the iterate and the
    buffers have the size of the iterate. *)
Lemma computeStep_returns alpha (x u dx du xBuffer uBuffer : vector_array_t) :
  (length x <= length dx)%nat -> (length u <= length du)%nat ->
  length xBuffer = length x -> length uBuffer = length u ->
  exists new, computeStep alpha x u dx du xBuffer uBuffer = Returns new.
Proof.
  intros Hdx Hdu Hxb Hub. unfold computeStep.
  destruct (foldM_seq_returns (fun _ (cur : vector_array_t) => length cur = length u)
              (fun uNew i =>
                 dui <- at_ du i ;;
                 if decide (0 < length dui)%nat then
                   ui <- at_ u i ;; assign uNew i (vadd ui (vscale alpha dui))
                 else Returns uNew) 0 (length u) uBuffer Hub) as (uN & -> & _).
  { intros cur i Hl Hi.
    destruct (lookup_lt_is_Some_2 du i ltac:(lia)) as [dui Hdui].
    destruct (lookup_lt_is_Some_2 u i ltac:(lia)) as [ui Hui].
    unfold at_. rewrite Hdui. simpl.
    destruct (decide (0 < length dui)%nat).
    - rewrite Hui. simpl. unfold assign.
      destruct (decide (i < length cur)%nat); [|lia].
      eexists. split; [reflexivity|]. rewrite length_insert. exact Hl.
    - eauto. }
  simpl.
  destruct (foldM_seq_returns (fun _ (cur : vector_array_t) => length cur = length x)
              (fun xNew i =>
                 xi <- at_ x i ;;
                 dxi <- at_ dx i ;;
                 assign xNew i (vadd xi (vscale alpha dxi))) 0 (length x) xBuffer Hxb)
    as (xN & -> & _).
  { intros cur i Hl Hi.
    destruct (lookup_lt_is_Some_2 dx i ltac:(lia)) as [dxi Hdxi].
    destruct (lookup_lt_is_Some_2 x i ltac:(lia)) as [xi Hxi].
    unfold at_. rewrite Hxi. simpl. rewrite Hdxi. simpl. unfold assign.
    destruct (decide (i < length cur)%nat); [|lia].
    eexists. split; [reflexivity|]. rewrite length_insert. exact Hl. }
  simpl. eauto.
Qed.

End CandidateProperties.

Section SweepInRange.
Context `{Collaborators}.

Lemma at_in_range {A : Type} (v : list A) (i : nat) :
  (i < length v)%nat -> exists a, at_ v i = Returns a /\ v !! i = Some a.
Proof.
  intros Hi. destruct (lookup_lt_is_Some_2 v i Hi) as [a Ha].
  exists a. split; [apply at_Returns|]; exact Ha.
Qed.

(** The performance sweep reads nothing out of range on an iterate that is
    aligned with a non-empty grid, in a solver with at least one worker
    and a problem clone for each. *)
Lemma computePerformance_returns s sched timeDiscretization initState x u :
  (0 < nThreads (settings_ s))%nat ->
  (nThreads (settings_ s) <= length (ocpDefinitions_ s))%nat ->
  timeDiscretization <> [] ->
  aligned timeDiscretization x u ->
  exists p, computePerformance s sched timeDiscretization initState x u = Returns p.
Proof.
  intros Hn Hocp Hgrid [Hx Hu].
  assert (0 < length timeDiscretization)%nat as Hpos.
  { destruct timeDiscretization; [congruence|simpl; lia]. }
  unfold computePerformance, runParallel, claimed.
  match goal with
  | |- exists p, outcome_bind _ (foldM ?body ?init _) = _ =>
      destruct (foldM_seq_returns
                  (fun _ (perf : list PerformanceIndex) =>
                     length perf = nThreads (settings_ s))
                  body 0 (nThreads (settings_ s)) init) as (perf & -> & Hperf)
  end.
  { apply length_replicate. }
  { intros perf w Hl Hw. cbv beta.
    destruct (at_in_range (ocpDefinitions_ s) w ltac:(lia)) as (ocp & -> & _). simpl.
    match goal with
    | |- exists s2, outcome_bind _ (foldM ?body ?init _) = _ /\ _ =>
        destruct (foldM_seq_returns (fun _ (_ : PerformanceIndex) => True)
                    body 0 (Z.to_nat (Z.of_nat (length timeDiscretization) - 1 + 1))
                    init I) as (wp & -> & _)
    end.
    { intros wp i _ Hi. cbv beta.
      destruct (decide (sched i mod nThreads (settings_ s) = w)%nat); [|eauto].
      destruct (at_in_range timeDiscretization i ltac:(lia)) as (ti & -> & _).
      destruct (at_in_range x i ltac:(lia)) as (xi & -> & _).
      destruct (decide (Z.of_nat i < Z.of_nat (length timeDiscretization) - 1)%Z).
      - destruct (at_in_range x (i + 1) ltac:(lia)) as (xi1 & -> & _).
        destruct (at_in_range timeDiscretization (i + 1) ltac:(lia)) as (ti1 & -> & _).
        destruct (at_in_range u i ltac:(lia)) as (ui & -> & _).
        simpl. destruct (decide (event ti = PreEvent)); simpl; eauto.
      - simpl. eauto. }
    simpl.
    destruct (at_in_range perf w ltac:(lia)) as (mine & -> & _). simpl.
    unfold assign. destruct (decide (w < length perf)%nat); [|lia].
    eexists. split; [reflexivity|]. rewrite length_insert. exact Hl. }
  simpl. unfold totalPerformance, front.
  destruct (at_in_range perf 0 ltac:(lia)) as (p0 & -> & _).
  destruct (at_in_range x 0 ltac:(lia)) as (x0 & -> & _).
  simpl. eauto.
Qed.

End SweepInRange.

Section LineSearchFurther.
Context `{Collaborators}.
Variables (s : MultipleShootingSolver) (sched : nat -> Schedule)
          (baseline : PerformanceIndex) (timeDiscretization : list AnnotatedTime)
          (initState : vector_t) (subproblemSolution : OcpSubproblemSolution)
          (x u : vector_array_t).

Local Abbreviation settings := (settings_ s).
Local Abbreviation dx := (deltaXSol subproblemSolution).
Local Abbreviation du := (deltaUSol subproblemSolution).
Local Abbreviation m := (armijoDescentMetric subproblemSolution).
Local Abbreviation loop fuel :=
  (lineSearch fuel s sched baseline timeDiscretization initState subproblemSolution x u).
Local Abbreviation ready := (Ready s sched baseline timeDiscretization initState
                                   subproblemSolution x u).
Local Abbreviation trial := (Trial s sched baseline timeDiscretization initState
                                   subproblemSolution x u).

Lemma stepLength_nonneg decay k : 0 <= decay -> 0 <= stepLength decay k.
Proof.
  intros Hd. induction k as [|k IH]; [discriminate|].
  change (stepLength decay (S k)) with (stepLength decay k * decay).
  apply Qmult_le_0_compat; assumption.
Qed.

(** What holds whenever the loop enters a turn: the step length is
    [alpha_decay ^ k], the buffers have the size of the iterate, and the
    input buffer is empty wherever the input step is. *)
Lemma Ready_shape k alpha xBuffer uBuffer :
  ready k alpha xBuffer uBuffer ->
  alpha = stepLength (alpha_decay settings) k
  /\ length xBuffer = length x
  /\ length uBuffer = length u
  /\ (forall i, (i < length u)%nat -> du !! i = Some [] -> uBuffer !! i = Some []).
Proof.
  induction 1 as [|k alpha xb ub new p _ (Ha & Hxl & Hul & Hempty) E1 E2 Hrej Htol Hmin].
  - split; [reflexivity|]. rewrite !length_replicate.
    split; [reflexivity|]. split; [reflexivity|].
    intros i Hi _. apply lookup_replicate_2. exact Hi.
  - destruct new as [xN uN].
    apply computeStep_returned in E1 as (Lx & Lu & _ & _ & Hu). simpl.
    split; [rewrite Ha; reflexivity|].
    split; [congruence|]. split; [congruence|].
    intros i Hi Hdui.
    destruct (lookup_lt_is_Some_2 u i Hi) as [ui Hui].
    destruct (Hu i ui Hui) as (dui & Hdui' & HuN).
    assert (dui = []) as -> by congruence.
    rewrite HuN. simpl. apply Hempty; assumption.
Qed.

(** The candidate of a trial, by its parts. *)
Lemma Trial_shape k alpha xNew uNew performanceNew :
  trial k alpha xNew uNew performanceNew ->
  alpha = stepLength (alpha_decay settings) k
  /\ length xNew = length x
  /\ length uNew = length u
  /\ (forall i xi, x !! i = Some xi ->
        exists dxi, dx !! i = Some dxi
                    /\ xNew !! i = Some (vadd xi (vscale alpha dxi)))
  /\ (forall i ui, u !! i = Some ui ->
        exists dui, du !! i = Some dui
                    /\ uNew !! i = Some (if decide (0 < length dui)%nat
                                         then vadd ui (vscale alpha dui) else [])).
Proof.
  intros (xb & ub & Hready & E1 & _).
  apply Ready_shape in Hready as (Ha & Hxl & Hul & Hempty).
  apply computeStep_returned in E1 as (Lx & Lu & _ & Hx & Hu).
  split; [exact Ha|]. split; [congruence|]. split; [congruence|].
  split; [exact Hx|].
  intros i ui Hui. destruct (Hu i ui Hui) as (dui & Hdui & HuN).
  exists dui. split; [exact Hdui|]. rewrite HuN.
  destruct (decide (0 < length dui)%nat) as [|Hzero]; [reflexivity|].
  apply Hempty; [apply lookup_lt_Some in Hui; exact Hui|].
  destruct dui; [exact Hdui|simpl in Hzero; lia].
Qed.

(** **** X4. The candidate of the [k]-th trial of the line search: its step
    length is [alpha_decay ^ k]; it has the sizes of the iterate; every
    state is [x_i + alpha * dx_i]; every input is [u_i + alpha * du_i]
    where the input step [du_i] is not empty and the empty vector where it
    is -- whatever [u_i] was. *)
Theorem trial_candidate k alpha xNew uNew performanceNew :
  trial k alpha xNew uNew performanceNew ->
  alpha = stepLength (alpha_decay settings) k
  /\ length xNew = length x
  /\ length uNew = length u
  /\ (forall i xi, x !! i = Some xi ->
        exists dxi, dx !! i = Some dxi
                    /\ xNew !! i = Some (vadd xi (vscale alpha dxi)))
  /\ (forall i ui, u !! i = Some ui ->
        exists dui, du !! i = Some dui
                    /\ uNew !! i = Some (if decide (0 < length dui)%nat
                                         then vadd ui (vscale alpha dui) else [])).
Proof. exact (Trial_shape k alpha xNew uNew performanceNew). Qed.

(** A candidate that passes the filter is strictly better than the
    baseline in merit or in violation. *)
Lemma stepAccepted_improves settings0 base new alpha metric :
  0 <= gamma_c settings0 -> 0 <= armijoFactor settings0 -> 0 <= alpha ->
  0 <= constraintViolation base ->
  stepAccepted settings0 base new alpha metric = true ->
  merit new < merit base \/ constraintViolation new < constraintViolation base.
Proof.
  intros Hg Ha Halpha Hbase. unfold stepAccepted.
  destruct (Qltb (g_max settings0) (constraintViolation new)); [discriminate|].
  destruct (Qltb (constraintViolation new) (g_min settings0)
            && Qltb (constraintViolation base) (g_min settings0)
            && Qltb metric 0) eqn:Hlow.
  - apply andb_true_iff in Hlow as [_ Hm]. apply Qltb_lt in Hm.
    rewrite Qltb_lt. intros Harmijo. left.
    assert (0 <= armijoFactor settings0 * alpha) as Hfa
      by (apply Qmult_le_0_compat; assumption).
    nra.
  - rewrite orb_true_iff, !Qltb_lt. intros [Hmerit|Hviolation]; [left|right]; nra.
Qed.

(** **** X5. Whatever [takeStep] returns has the sizes of the iterate it was
    given. With non-negative [alpha_decay], [gamma_c] and [armijoFactor]
    and a non-negative baseline violation, it is either the iterate
    unchanged, reported converged with the baseline performance, or an
    iterate whose merit or whose constraint violation is strictly below
    the baseline's. *)
Theorem takeStep_improves_or_stalls fuel r :
  0 <= alpha_decay settings -> 0 <= gamma_c settings -> 0 <= armijoFactor settings ->
  0 <= constraintViolation baseline ->
  takeStep fuel s sched baseline timeDiscretization initState subproblemSolution x u
    = Returns r ->
  length (x_out r) = length x
  /\ length (u_out r) = length u
  /\ (converged r = true /\ stepPerformance r = baseline /\ x_out r = x /\ u_out r = u
      \/ merit (stepPerformance r) < merit baseline
      \/ constraintViolation (stepPerformance r) < constraintViolation baseline).
Proof.
  intros Hd Hg Ha Hbase E. unfold takeStep in E.
  apply (lineSearch_returns _ _ _ _ _ _ _ _ _ _ _ _ _ _ (Ready_first _ _ _ _ _ _ _ _)) in E
    as (k & alpha & xNew & uNew & performanceNew & Htrial & Hverdict).
  destruct Hverdict as [[Hacc ->]|(_ & _ & ->)].
  - apply Trial_shape in Htrial as (Halpha & Lx & Lu & _). simpl.
    split; [exact Lx|]. split; [exact Lu|]. right.
    apply (stepAccepted_improves settings baseline performanceNew alpha m); try assumption.
    rewrite Halpha. apply stepLength_nonneg. exact Hd.
  - simpl. auto 10.
Qed.

End LineSearchFurther.

(** ** The line search ends *)

Lemma stepLength_le_1 d k : 0 <= d -> d <= 1 -> stepLength d k <= 1.
Proof.
  intros H0 H1. induction k as [|k IH]; [discriminate|].
  change (stepLength d (S k)) with (stepLength d k * d).
  pose proof (stepLength_nonneg d k H0). nra.
Qed.

Lemma stepLength_bound d k :
  0 <= d -> d <= 1 ->
  stepLength d k * (1 + inject_Z (Z.of_nat k) * (1 - d)) <= 1.
Proof.
  intros H0 H1. induction k as [|k IH].
  - change (stepLength d 0) with 1. change (inject_Z (Z.of_nat 0)) with 0. lra.
  - change (stepLength d (S k)) with (stepLength d k * d).
    rewrite Nat2Z.inj_succ. unfold Z.succ. rewrite inject_Z_plus.
    pose proof (stepLength_nonneg d k H0) as Ha0.
    pose proof (stepLength_le_1 d k H0 H1) as Ha1.
    change (inject_Z 1) with 1.
    set (a := stepLength d k) in *. set (n := inject_Z (Z.of_nat k)) in *.
    assert (a * d <= 1) as Had by nra.
    assert (a * d * (1 - d) <= 1 - d) as Hlast by nra.
    assert (d * (a * (1 + n * (1 - d))) <= d) as Hfirst by nra.
    nra.
Qed.

Lemma stepLength_antitone d k j :
  0 <= d -> d <= 1 -> stepLength d (k + j) <= stepLength d k.
Proof.
  intros H0 H1. induction j as [|j IH].
  - rewrite Nat.add_0_r. apply Qle_refl.
  - replace (k + S j)%nat with (S (k + j)) by lia.
    change (stepLength d (S (k + j))) with (stepLength d (k + j) * d).
    pose proof (stepLength_nonneg d (k + j) H0). nra.
Qed.

(** Below one, the step lengths fall below every positive floor. *)
Lemma stepLength_small d floor :
  0 <= d -> d < 1 -> 0 < floor ->
  exists K, forall k, (K <= k)%nat -> stepLength d k <= floor.
Proof.
  intros H0 H1 Hfloor.
  set (c := floor * (1 - d)).
  assert (0 < c) as Hc by (unfold c; nra).
  exists (Pos.to_nat (Qden c)). intros k Hk.
  apply Qle_trans with (stepLength d (Pos.to_nat (Qden c))).
  { replace k with (Pos.to_nat (Qden c) + (k - Pos.to_nat (Qden c)))%nat by lia.
    apply stepLength_antitone; [exact H0|lra]. }
  pose proof (stepLength_bound d (Pos.to_nat (Qden c)) H0 ltac:(lra)) as Hbound.
  rewrite positive_nat_Z in Hbound.
  assert (1 <= inject_Z (Zpos (Qden c)) * c) as Hone.
  { destruct c as [cn cd]. unfold Qlt in Hc. unfold Qle, Qmult, inject_Z. simpl in *. nia. }
  pose proof (stepLength_nonneg d (Pos.to_nat (Qden c)) H0) as Ha0.
  set (a := stepLength d (Pos.to_nat (Qden c))) in *.
  set (n := inject_Z (Zpos (Qden c))) in *.
  assert (0 <= n) as Hn.
  { unfold n, Qle, inject_Z. simpl. lia. }
  assert (n * c == floor * (n * (1 - d))) as Hnc by (unfold c; ring).
  assert (0 <= n * (1 - d)) as Hnd by nra.
  assert (a * (1 + n * (1 - d)) <= floor * (1 + n * (1 - d))) as Hcmp by nra.
  assert (0 < 1 + n * (1 - d)) as Hpos by nra.
  apply Qnot_lt_le. intros Hlt.
  assert (floor * (1 + n * (1 - d)) < a * (1 + n * (1 - d))) as Hcontra by nra.
  lra.
Qed.

Section LineSearchEnds.
Context `{Collaborators}.
Variables (s : MultipleShootingSolver) (sched : nat -> Schedule)
          (baseline : PerformanceIndex) (timeDiscretization : list AnnotatedTime)
          (initState : vector_t) (subproblemSolution : OcpSubproblemSolution)
          (x u : vector_array_t).

Lemma lineSearch_ends (K : nat) :
  (forall k, (K <= k)%nat ->
     stepLength (alpha_decay (settings_ s)) k <= alpha_min (settings_ s)) ->
  (0 < nThreads (settings_ s))%nat ->
  (nThreads (settings_ s) <= length (ocpDefinitions_ s))%nat ->
  timeDiscretization <> [] ->
  aligned timeDiscretization x u ->
  (length x <= length (deltaXSol subproblemSolution))%nat ->
  (length u <= length (deltaUSol subproblemSolution))%nat ->
  forall n k alpha xBuffer uBuffer fuel,
    Ready s sched baseline timeDiscretization initState subproblemSolution x u
          k alpha xBuffer uBuffer ->
    (K <= k + 1 + n)%nat -> (n < fuel)%nat ->
    exists r,
      lineSearch fuel s sched baseline timeDiscretization initState subproblemSolution
                 x u k alpha xBuffer uBuffer = Returns r.
Proof.
  intros Hsmall Hn Hocp Hgrid [Hx Hu] Hdx Hdu.
  induction n as [|n IH]; intros k alpha xb ub fuel Hready HK Hfuel.
  all: destruct fuel as [|fuel]; [lia|].
  all: pose proof (Ready_shape _ _ _ _ _ _ _ _ _ _ _ _ Hready) as (Ha & Lxb & Lub & _).
  all: destruct (computeStep_returns alpha x u _ _ xb ub Hdx Hdu Lxb Lub) as ([xN uN] & E1).
  all: pose proof (computeStep_returned _ _ _ _ _ _ _ _ _ E1) as (LxN & LuN & _).
  all: destruct (computePerformance_returns s (sched k) timeDiscretization initState xN uN
                   Hn Hocp Hgrid) as (p & E2); [split; congruence|].
  all: rewrite (lineSearch_turn _ _ _ _ _ _ _ _ _ _ _ _ _ (xN, uN) p E1 E2).
  all: destruct (stepAccepted _ _ _ _ _) eqn:Hacc; [eauto|].
  all: destruct (stepSizeBelowTol _ _ _ _) eqn:Htol; [eauto|].
  all: destruct (Qltb _ _) eqn:Hmin; [|eauto].
  - exfalso. apply Qltb_lt in Hmin.
    specialize (Hsmall (S k) ltac:(lia)).
    change (stepLength (alpha_decay (settings_ s)) (S k))
      with (stepLength (alpha_decay (settings_ s)) k * alpha_decay (settings_ s)) in Hsmall.
    rewrite <- Ha in Hsmall. exact (Qlt_not_le _ _ Hmin Hsmall).
  - apply (IH (S k)); [|lia|lia].
    exact (Ready_next _ _ _ _ _ _ _ _ _ _ _ _ (xN, uN) p Hready E1 E2 Hacc Htol Hmin).
Qed.

End LineSearchEnds.


(** ** A whole run *)

Section RunProperties.
Context `{Collaborators}.

Lemma computePerformance_merit s sched timeDiscretization initState x u p :
  computePerformance s sched timeDiscretization initState x u = Returns p ->
  merit_is_cost_plus_penalty p.
Proof.
  unfold computePerformance. intros E.
  apply bind_Returns in E as (performance & _ & E).
  exact (totalPerformance_merit _ _ _ _ E).
Qed.

Lemma setupQuadraticSubproblem_merit s sched timeDiscretization initState x u p s' :
  setupQuadraticSubproblem s sched timeDiscretization initState x u = Returns (p, s') ->
  merit_is_cost_plus_penalty p.
Proof.
  unfold setupQuadraticSubproblem. intros E.
  destruct (decide _); [discriminate|].
  apply bind_Returns in E as (st & _ & E).
  apply bind_Returns in E as (total & Htotal & E).
  injection E as <- _.
  exact (totalPerformance_merit _ _ _ _ Htotal).
Qed.

(** What [takeStep] returns has the sizes of the iterate, and its
    performance is the baseline or the result of a performance sweep. *)
Lemma takeStep_shape fuel s sched baseline timeDiscretization initState
    subproblemSolution x u r :
  takeStep fuel s sched baseline timeDiscretization initState subproblemSolution x u
    = Returns r ->
  length (x_out r) = length x
  /\ length (u_out r) = length u
  /\ (stepPerformance r = baseline
      \/ exists k xNew uNew,
           computePerformance s (sched k) timeDiscretization initState xNew uNew
             = Returns (stepPerformance r)).
Proof.
  intros E. unfold takeStep in E.
  apply (lineSearch_returns _ _ _ _ _ _ _ _ _ _ _ _ _ _ (Ready_first _ _ _ _ _ _ _ _)) in E
    as (k & alpha & xNew & uNew & performanceNew & Htrial & Hverdict).
  destruct Hverdict as [[Hacc ->]|(_ & _ & ->)].
  - pose proof (Trial_shape _ _ _ _ _ _ _ _ _ _ _ _ _ Htrial) as (_ & Lx & Lu & _).
    destruct Htrial as (xb & ub & _ & _ & E2). simpl.
    split; [exact Lx|]. split; [exact Lu|]. right. eauto.
  - simpl. auto.
Qed.

(** The loop of [runImpl] keeps the sizes of the iterate, and every entry
    that it adds to the log obeys the law of the merit. *)
Lemma sqpLoop_shape remaining fuel sched timeDiscretization initState iter s x u s' x' u' :
  sqpLoop remaining fuel sched timeDiscretization initState iter s x u
    = Returns (s', x', u') ->
  length x' = length x
  /\ length u' = length u
  /\ exists log,
       performanceIndeces_ s' = performanceIndeces_ s ++ log
       /\ Forall merit_is_cost_plus_penalty log.
Proof.
  revert iter s x u. induction remaining as [|remaining IH]; simpl; intros iter s x u E.
  - injection E as <- <- <-. split; [reflexivity|]. split; [reflexivity|].
    exists []. rewrite app_nil_r. auto.
  - apply bind_Returns in E as ([baselinePerformance s1] & Hsetup & E).
    apply bind_Returns in E as (x0 & _ & E).
    apply bind_Returns in E as ([deltaSolution s2] & Hqp & E).
    apply bind_Returns in E as (stepInfo & Hstep & E).
    pose proof (setupQuadraticSubproblem_merit _ _ _ _ _ _ _ _ Hsetup) as Hbase.
    apply setupQuadraticSubproblem_bookkeeping in Hsetup as (A1 & _ & _).
    apply getOCPSolution_bookkeeping in Hqp as (B1 & _ & _).
    apply takeStep_shape in Hstep as (Lx & Lu & Hperf).
    assert (merit_is_cost_plus_penalty (stepPerformance stepInfo)) as Hlaw.
    { destruct Hperf as [->|(k & xNew & uNew & Hsweep)]; [exact Hbase|].
      exact (computePerformance_merit _ _ _ _ _ _ _ Hsweep). }
    destruct (converged stepInfo).
    + injection E as <- <- <-. split; [exact Lx|]. split; [exact Lu|].
      exists [stepPerformance stepInfo]. simpl. split; [congruence|]. auto.
    + apply IH in E as (Lx' & Lu' & log & Hlog & Hall). simpl in Hlog.
      split; [congruence|]. split; [congruence|].
      exists (stepPerformance stepInfo :: log). split.
      * rewrite Hlog, B1, A1, <- app_assoc. reflexivity.
      * constructor; assumption.
Qed.

(** **** X7. Every entry of the iteration log that a run leaves behind has
    [merit = totalCost + inequalityConstraintPenalty]: each entry is the
    baseline of its iteration or the performance of the accepted
    candidate, and both come out of a sweep that sets the merit so. *)
Theorem runImpl_log_merit fuel sched s initTime initState finalTime s' :
  runImpl fuel sched s initTime initState finalTime = Returns s' ->
  Forall merit_is_cost_plus_penalty (performanceIndeces_ s').
Proof.
  unfold runImpl. intros E.
  apply bind_Returns in E as (xu & _ & E).
  apply bind_Returns in E as ([[s1 x] u] & Hloop & E).
  apply sqpLoop_shape in Hloop as (_ & _ & log & Hlog & Hall).
  apply setPrimalSolution_bookkeeping in E as (P1 & _ & _).
  simpl in Hlog. rewrite P1, Hlog. exact Hall.
Qed.

End RunProperties.

(** ** The initial iterate and the assembled solution *)

Section IterateProperties.
Context `{Collaborators}.

(** The loop of [initializeStateInputTrajectories], once the grid is not
    empty and [interpolateTill] is known. *)
Lemma initialize_loop s initState timeDiscretization interpolateTill :
  exists x u,
    foldM (fun (tr : vector_array_t * vector_array_t) i =>
      let '(stateTrajectory, inputTrajectory) := tr in
      ti <- at_ timeDiscretization i ;;
      lastState <- back stateTrajectory ;;
      if decide (event ti = PreEvent) then
        Returns (stateTrajectory ++ [initializeEventNode (time ti) lastState],
                 inputTrajectory ++ [[]])
      else
        ti1 <- at_ timeDiscretization (i + 1) ;;
        let tStart := getIntervalStart ti in
        let nextTime := getIntervalEnd ti1 in
        let '(input, nextState) :=
          if Qltb tStart interpolateTill then
            let useController := bool_decide (i = 0)%nat in
            initializeIntermediateNode_primal (primalSolution_ s) tStart nextTime
                                              lastState useController
          else initializeIntermediateNode_initializer tStart nextTime lastState in
        Returns (stateTrajectory ++ [nextState], inputTrajectory ++ [input]))
      ([initState], []) (seq 0 (length timeDiscretization - 1))
    = Returns (x, u)
    /\ length x = (length timeDiscretization - 1 + 1)%nat
    /\ length u = (length timeDiscretization - 1)%nat
    /\ x !! 0%nat = Some initState
    /\ forall i ti, timeDiscretization !! i = Some ti ->
         (i + 1 < length timeDiscretization)%nat -> event ti = PreEvent ->
         u !! i = Some []
         /\ exists xi, x !! i = Some xi
                       /\ x !! (i + 1)%nat = Some (initializeEventNode (time ti) xi).
Proof.
  pose (P := fun (n : nat) (tr : vector_array_t * vector_array_t) =>
    length tr.1 = (n + 1)%nat
    /\ length tr.2 = n
    /\ tr.1 !! 0%nat = Some initState
    /\ forall j tj, timeDiscretization !! j = Some tj -> (j < n)%nat ->
         event tj = PreEvent ->
         tr.2 !! j = Some []
         /\ exists xj, tr.1 !! j = Some xj
                       /\ tr.1 !! (j + 1)%nat = Some (initializeEventNode (time tj) xj)).
  match goal with
  | |- exists x u, foldM ?body ?init _ = _ /\ _ =>
      destruct (foldM_seq_returns P body 0 (length timeDiscretization - 1) init)
        as ([x u] & E & Lx & Lu & Hx0 & Hev)
  end.
  - split; [reflexivity|]. split; [reflexivity|]. split; [reflexivity|].
    intros j tj _ Hj. lia.
  - intros [xs us] i (Lx & Lu & Hx0 & Hev) Hi. simpl in Lx, Lu, Hx0, Hev.
    destruct (at_in_range timeDiscretization i ltac:(lia)) as (ti & -> & Hti).
    assert (exists lastState, xs !! i = Some lastState /\ back xs = Returns lastState)
      as (lastState & Hlast & ->).
    { destruct (lookup_lt_is_Some_2 xs i ltac:(lia)) as [a Ha]. exists a.
      split; [exact Ha|]. apply back_Returns. rewrite last_lookup, Lx.
      replace (Init.Nat.pred (i + 1)) with i by lia. exact Ha. }
    cbn [outcome_bind].
    assert (forall (a : vector_t) (b : vector_t),
              (event ti = PreEvent ->
               b = [] /\ a = initializeEventNode (time ti) lastState) ->
              P (S i) (xs ++ [a], us ++ [b])) as Hnext.
    { intros a b Hab. unfold P. simpl. rewrite !length_app. simpl.
      split; [lia|]. split; [lia|].
      split; [apply lookup_app_l_Some; exact Hx0|].
      intros j tj Htj Hj Hpre. destruct (decide (j = i)) as [->|Hne].
      - assert (tj = ti) as -> by congruence.
        destruct (Hab Hpre) as [-> ->]. split.
        + rewrite lookup_app_r by lia. rewrite Lu, Nat.sub_diag. reflexivity.
        + exists lastState. split; [apply lookup_app_l_Some; exact Hlast|].
          rewrite lookup_app_r by lia. rewrite Lx, Nat.sub_diag. reflexivity.
      - destruct (Hev j tj Htj ltac:(lia) Hpre) as (Hu & xj & Hxj & Hxj1).
        split; [apply lookup_app_l_Some; exact Hu|].
        exists xj. split; apply lookup_app_l_Some; assumption. }
    destruct (decide (event ti = PreEvent)) as [Hpre|Hno].
    + eexists. split; [reflexivity|]. apply Hnext. auto.
    + destruct (at_in_range timeDiscretization (i + 1) ltac:(lia)) as (ti1 & -> & _).
      cbn [outcome_bind].
      destruct (if Qltb (getIntervalStart ti) interpolateTill then _ else _)
        as [input nextState].
      eexists. split; [reflexivity|]. apply Hnext. intros Hpre. contradiction.
  - exists x, u. simpl in Lx, Lu, Hx0, Hev. split; [exact E|].
    split; [exact Lx|]. split; [exact Lu|]. split; [exact Hx0|].
    intros i ti Hti Hi Hpre. apply (Hev i ti Hti); [lia|exact Hpre].
Qed.

Lemma initialize_unfolded s initState timeDiscretization :
  timeDiscretization <> [] ->
  initializeStateInputTrajectories s initState timeDiscretization =
    outcome_bind (fun interpolateTill =>
      foldM (fun (tr : vector_array_t * vector_array_t) i =>
        let '(stateTrajectory, inputTrajectory) := tr in
        ti <- at_ timeDiscretization i ;;
        lastState <- back stateTrajectory ;;
        if decide (event ti = PreEvent) then
          Returns (stateTrajectory ++ [initializeEventNode (time ti) lastState],
                   inputTrajectory ++ [[]])
        else
          ti1 <- at_ timeDiscretization (i + 1) ;;
          let tStart := getIntervalStart ti in
          let nextTime := getIntervalEnd ti1 in
          let '(input, nextState) :=
            if Qltb tStart interpolateTill then
              let useController := bool_decide (i = 0)%nat in
              initializeIntermediateNode_primal (primalSolution_ s) tStart nextTime
                                                lastState useController
            else initializeIntermediateNode_initializer tStart nextTime lastState in
          Returns (stateTrajectory ++ [nextState], inputTrajectory ++ [input]))
        ([initState], []) (seq 0 (length timeDiscretization - 1)))
      (if decide (0 < totalNumIterations_ s)%nat
       then back (timeTrajectory_ (primalSolution_ s))
       else t0 <- front timeDiscretization ;; Returns (time t0)).
Proof.
  intros Hgrid. unfold initializeStateInputTrajectories.
  destruct (decide (Z.of_nat (length timeDiscretization) - 1 < 0)%Z) as [Hneg|_].
  { destruct timeDiscretization; [congruence|]. simpl in Hneg. lia. }
  replace (Z.to_nat (Z.of_nat (length timeDiscretization) - 1))
    with (length timeDiscretization - 1)%nat by lia.
  reflexivity.
Qed.

(** What a returned initial iterate looks like. *)
Lemma initialize_returned s initState timeDiscretization x u :
  initializeStateInputTrajectories s initState timeDiscretization = Returns (x, u) ->
  timeDiscretization <> []
  /\ aligned timeDiscretization x u
  /\ x !! 0%nat = Some initState
  /\ forall i ti, timeDiscretization !! i = Some ti ->
       (i + 1 < length timeDiscretization)%nat -> event ti = PreEvent ->
       u !! i = Some []
       /\ exists xi, x !! i = Some xi
                     /\ x !! (i + 1)%nat = Some (initializeEventNode (time ti) xi).
Proof.
  intros E.
  assert (timeDiscretization <> []) as Hgrid.
  { intros ->. discriminate E. }
  split; [exact Hgrid|].
  rewrite (initialize_unfolded _ _ _ Hgrid) in E.
  apply bind_Returns in E as (interpolateTill & _ & E).
  destruct (initialize_loop s initState timeDiscretization interpolateTill)
    as (x1 & u1 & E1 & Lx & Lu & Hx0 & Hev).
  rewrite E1 in E. injection E as <- <-.
  assert (0 < length timeDiscretization)%nat
    by (destruct timeDiscretization; [congruence|simpl; lia]).
  split; [split; lia|]. split; [exact Hx0|exact Hev].
Qed.

(** The initial iterate exists on a non-empty grid. *)
Lemma initialize_returns s initState timeDiscretization :
  timeDiscretization <> [] ->
  ((0 < totalNumIterations_ s)%nat -> timeTrajectory_ (primalSolution_ s) <> []) ->
  exists x u,
    initializeStateInputTrajectories s initState timeDiscretization = Returns (x, u).
Proof.
  intros Hgrid Hprev.
  assert (exists t, (if decide (0 < totalNumIterations_ s)%nat
                     then back (timeTrajectory_ (primalSolution_ s))
                     else t0 <- front timeDiscretization ;; Returns (time t0))
                    = Returns t) as (t & Ht).
  { destruct (decide (0 < totalNumIterations_ s)%nat) as [Hran|_].
    - specialize (Hprev Hran). unfold back.
      destruct (last (timeTrajectory_ (primalSolution_ s))) eqn:El; [eauto|].
      apply last_None in El. contradiction.
    - destruct timeDiscretization as [|t0 ?]; [congruence|]. simpl. eauto. }
  destruct (initialize_loop s initState timeDiscretization t) as (x & u & E & _).
  exists x, u. rewrite (initialize_unfolded _ _ _ Hgrid), Ht. exact E.
Qed.

(** **** X8. [initializeStateInputTrajectories] on an empty grid throws
    [std::length_error]. On a non-empty grid -- and, once the solver has
    run before, with a previous solution to interpolate from -- it returns
    an iterate with one state per node and one input per node but the
    last, whose first state is the initial state, and in which a pre-event
    node carries no input and hands its state to [initializeEventNode]
    for the node behind it. *)
Theorem initializeStateInputTrajectories_shape s initState timeDiscretization :
  (timeDiscretization = [] ->
   initializeStateInputTrajectories s initState timeDiscretization = Throws length_error)
  /\ (timeDiscretization <> [] ->
      ((0 < totalNumIterations_ s)%nat -> timeTrajectory_ (primalSolution_ s) <> []) ->
      exists x u,
        initializeStateInputTrajectories s initState timeDiscretization = Returns (x, u)
        /\ aligned timeDiscretization x u
        /\ x !! 0%nat = Some initState
        /\ forall i ti, timeDiscretization !! i = Some ti ->
             (i + 1 < length timeDiscretization)%nat -> event ti = PreEvent ->
             u !! i = Some []
             /\ exists xi, x !! i = Some xi
                           /\ x !! (i + 1)%nat = Some (initializeEventNode (time ti) xi)).
Proof.
  split.
  - intros ->. reflexivity.
  - intros Hgrid Hprev.
    destruct (initialize_returns s initState timeDiscretization Hgrid Hprev)
      as (x & u & Hret).
    exists x, u. split; [exact Hret|].
    apply initialize_returned in Hret as (_ & Hal & Hx0 & Hev). auto.
Qed.

End IterateProperties.

Section SolutionProperties.
Context `{Collaborators}.

Lemma at_cases {A : Type} (v : list A) (i : nat) :
  at_ v i = Undefined \/ exists a, at_ v i = Returns a.
Proof. unfold at_. destruct (v !! i); eauto. Qed.

Lemma repeatInputAtPreEvents_nil timeDiscretization :
  repeatInputAtPreEvents timeDiscretization [] = Undefined
  \/ repeatInputAtPreEvents timeDiscretization [] = Returns [].
Proof.
  unfold repeatInputAtPreEvents.
  generalize (seq 0 (length timeDiscretization)) as l.
  induction l as [|i l IH]; simpl; [auto|].
  destruct (at_cases timeDiscretization i) as [->|(ti & ->)]; simpl; [auto|].
  destruct (decide (event ti = PreEvent /\ 0 < i)%nat); simpl; [auto|exact IH].
Qed.

Lemma feedbackLoop_nil timeDiscretization KMatrices x proj0 :
  feedbackLoop timeDiscretization KMatrices x ([], [], proj0) = Undefined
  \/ feedbackLoop timeDiscretization KMatrices x ([], [], proj0) = Returns ([], [], proj0).
Proof.
  unfold feedbackLoop.
  destruct (seq 0 (length timeDiscretization - 1)) as [|i l]; simpl; [auto|]. left.
  destruct (at_cases timeDiscretization i) as [->|(ti & ->)]; simpl; [reflexivity|].
  destruct (decide (event ti = PreEvent /\ 0 < i)%nat); simpl; [reflexivity|].
  destruct (at_cases proj0 i) as [->|(pi & ->)]; simpl; [reflexivity|].
  destruct (at_cases KMatrices i) as [->|(Ki & ->)]; simpl; [reflexivity|].
  destruct (decide (0 < length (f pi))%nat); simpl; [|reflexivity].
  unfold assign. destruct (decide (i < length proj0)%nat); reflexivity.
Qed.

Lemma setPrimalSolution_nil s timeDiscretization x :
  setPrimalSolution s timeDiscretization x [] = Undefined.
Proof.
  unfold setPrimalSolution.
  destruct (repeatInputAtPreEvents_nil timeDiscretization) as [->| ->]; simpl;
    [reflexivity|].
  destruct (useFeedbackPolicy (settings_ s)); simpl; [|reflexivity].
  destruct (at_cases (dynamics_ s) 0) as [->|(d0 & ->)]; simpl; [reflexivity|].
  destruct (at_cases (cost_ s) 0) as [->|(c0 & ->)]; simpl; [reflexivity|].
  destruct (feedbackLoop_nil timeDiscretization
              (getRiccatiFeedback (hpipmInterface_ s) d0 c0) x (constraintsProjection_ s))
    as [->| ->]; reflexivity.
Qed.

(** **** X9. With an empty input trajectory -- the iterate of a grid with a
    single node -- [setPrimalSolution] does not return: whatever the
    settings and the buffers, it ends up taking [back()] of an empty vector
    or reading an element that is not there, which is undefined
    behaviour. It throws nothing. *)
Theorem setPrimalSolution_empty_input s timeDiscretization x :
  setPrimalSolution s timeDiscretization x [] = Undefined.
Proof. exact (setPrimalSolution_nil s timeDiscretization x). Qed.

(** The parts of an assembled solution. *)
Lemma setPrimalSolution_returned s timeDiscretization x u s' :
  setPrimalSolution s timeDiscretization x u = Returns s' ->
  exists u' lastU,
    repeatInputAtPreEvents timeDiscretization u = Returns u'
    /\ last u' = Some lastU
    /\ timeTrajectory_ (primalSolution_ s') = map time timeDiscretization
    /\ stateTrajectory_ (primalSolution_ s') = x
    /\ inputTrajectory_ (primalSolution_ s') = u' ++ [lastU]
    /\ modeSchedule_ (primalSolution_ s') = referenceManager_ s
    /\ (if useFeedbackPolicy (settings_ s)
        then exists uff controllerGain,
               controllerPtr_ (primalSolution_ s')
                 = Some (LinearController (map time timeDiscretization) uff controllerGain)
               /\ length uff = (length u + 1)%nat
               /\ length controllerGain = length timeDiscretization
        else controllerPtr_ (primalSolution_ s')
               = Some (FeedforwardController (map time timeDiscretization)
                                             (u' ++ [lastU]))).
Proof.
  unfold setPrimalSolution. intros E.
  apply bind_Returns in E as (u' & Hrepeat & E).
  apply bind_Returns in E as ([[uff controllerGain] proj] & Hfb & E).
  apply bind_Returns in E as (lastU & HlastU & E). apply back_Returns in HlastU.
  injection E as <-. simpl.
  exists u', lastU. split; [exact Hrepeat|]. split; [exact HlastU|].
  do 4 (split; [reflexivity|]).
  destruct (useFeedbackPolicy (settings_ s)); [|reflexivity].
  apply bind_Returns in Hfb as (d0 & _ & Hfb).
  apply bind_Returns in Hfb as (c0 & _ & Hfb).
  apply bind_Returns in Hfb as ([[uff0 gain0] proj0] & Hloop & Hfb).
  apply bind_Returns in Hfb as (lastUff & _ & Hfb).
  apply bind_Returns in Hfb as (lastGain & HlastGain & Hfb).
  injection Hfb as <- <- <-.
  apply back_Returns in HlastGain. rewrite last_lookup in HlastGain.
  apply lookup_lt_Some in HlastGain.
  apply feedbackLoop_spec in Hloop as (Lg & Lu & _).
  apply repeatInputAtPreEvents_spec in Hrepeat as [Lu' _].
  exists (uff0 ++ [lastUff]), (gain0 ++ [lastGain]).
  split; [reflexivity|]. rewrite !length_app. simpl. split; lia.
Qed.

(** **** X10. The solution that a returned run leaves behind: its time
    trajectory is the time grid of the run, which has at least two nodes;
    its state and input trajectories have one entry per node of the grid;
    and its controller is a linear (feedback) controller when
    [useFeedbackPolicy] is set and a feed-forward controller over the
    stored inputs otherwise, over that same time trajectory. *)
Theorem runImpl_solution fuel sched s initTime initState finalTime s' :
  runImpl fuel sched s initTime initState finalTime = Returns s' ->
  let timeDiscretization :=
    timeDiscretizationWithEvents initTime finalTime (dt (settings_ s))
                                 (eventTimes (referenceManager_ s)) in
  let solution := primalSolution_ s' in
  (2 <= length timeDiscretization)%nat
  /\ timeTrajectory_ solution = map time timeDiscretization
  /\ length (stateTrajectory_ solution) = length timeDiscretization
  /\ length (inputTrajectory_ solution) = length timeDiscretization
  /\ (if useFeedbackPolicy (settings_ s)
      then exists uff controllerGain,
             controllerPtr_ solution
               = Some (LinearController (timeTrajectory_ solution) uff controllerGain)
             /\ length uff = length timeDiscretization
             /\ length controllerGain = length timeDiscretization
      else controllerPtr_ solution
             = Some (FeedforwardController (timeTrajectory_ solution)
                                           (inputTrajectory_ solution))).
Proof.
  intros E timeDiscretization solution. unfold runImpl in E.
  fold timeDiscretization in E.
  apply bind_Returns in E as ([x0 u0] & Hinit & E).
  apply bind_Returns in E as ([[s1 x] u] & Hloop & E).
  apply initialize_returned in Hinit as (_ & [Lx0 Lu0] & _).
  pose proof (sqpLoop_log _ _ _ _ _ _ _ _ _ _ _ _ Hloop) as (_ & _ & _ & Hsettings & _).
  apply sqpLoop_shape in Hloop as (Lx & Lu & _).
  simpl in Lx, Lu, Hsettings.
  assert (u <> []) as Hu.
  { intros ->. rewrite setPrimalSolution_nil in E. discriminate. }
  apply setPrimalSolution_returned in E
    as (u' & lastU & Hrepeat & _ & Ht & Hx & Hin & _ & Hctrl).
  apply repeatInputAtPreEvents_spec in Hrepeat as [Lu' _].
  assert (0 < length u)%nat by (destruct u; [congruence|simpl; lia]).
  subst solution. rewrite Ht, Hx, Hin, length_app. simpl.
  split; [lia|]. split; [reflexivity|]. split; [congruence|]. split; [lia|].
  rewrite Hsettings in Hctrl.
  destruct (useFeedbackPolicy (settings_ s)); [|exact Hctrl].
  destruct Hctrl as (uff & gain & Hc & Luff & Lgain).
  exists uff, gain. split; [exact Hc|]. split; [lia|exact Lgain].
Qed.

End SolutionProperties.

(** ** The buffers of the approximation sweep *)

Section ApproximationBuffers.
Context `{Collaborators}.

Lemma store_node_returned i terminal r sc sc' :
  store_node i terminal r sc = Returns sc' ->
  ocpDefinitions_ sc' = ocpDefinitions_ sc
  /\ settings_ sc' = settings_ sc
  /\ (i < length (cost_ sc))%nat /\ cost_ sc' = <[i := cost r]> (cost_ sc)
  /\ (i < length (constraints_ sc))%nat
  /\ constraints_ sc' = <[i := constraints r]> (constraints_ sc)
  /\ (if terminal
      then dynamics_ sc' = dynamics_ sc
           /\ constraintsProjection_ sc' = constraintsProjection_ sc
      else (i < length (dynamics_ sc))%nat
           /\ dynamics_ sc' = <[i := dynamics r]> (dynamics_ sc)
           /\ (i < length (constraintsProjection_ sc))%nat
           /\ constraintsProjection_ sc'
              = <[i := constraintsProjection r]> (constraintsProjection_ sc)).
Proof.
  unfold store_node. intros E.
  apply bind_Returns in E as (cst & Hcst & E). apply assign_Returns in Hcst as [? ->].
  apply bind_Returns in E as (con & Hcon & E). apply assign_Returns in Hcon as [? ->].
  destruct terminal.
  - injection E as <-. simpl. auto 10.
  - apply bind_Returns in E as (dyn & Hdyn & E). apply assign_Returns in Hdyn as [? ->].
    apply bind_Returns in E as (proj & Hproj & E). apply assign_Returns in Hproj as [? ->].
    injection E as <-. simpl. auto 10.
Qed.

(** Storing node [i] leaves the other nodes as they were and puts [r] at
    node [i]. *)
Lemma store_node_stored i terminal r sc sc' :
  store_node i terminal r sc = Returns sc' ->
  stored_at sc' i terminal r
  /\ (forall j t rj, j <> i -> stored_at sc j t rj -> stored_at sc' j t rj)
  /\ length (dynamics_ sc') = length (dynamics_ sc)
  /\ length (cost_ sc') = length (cost_ sc)
  /\ length (constraints_ sc') = length (constraints_ sc)
  /\ length (constraintsProjection_ sc') = length (constraintsProjection_ sc).
Proof.
  intros E. apply store_node_returned in E
    as (_ & _ & Lc & Hc & Ln & Hn & Hrest).
  unfold stored_at. rewrite Hc, Hn, !length_insert.
  destruct terminal.
  - destruct Hrest as [-> ->].
    split; [|split; [|auto]].
    + rewrite !list_lookup_insert_eq by assumption.
      split; [reflexivity|]. split; [reflexivity|]. discriminate.
    + intros j t rj Hj. rewrite !list_lookup_insert_ne by congruence. auto.
  - destruct Hrest as (Ld & -> & Lp & ->). rewrite !length_insert.
    split; [|split; [|auto]].
    + rewrite !list_lookup_insert_eq by assumption. auto.
    + intros j t rj Hj. rewrite !list_lookup_insert_ne by congruence. auto.
Qed.

(** What a returned approximation sweep leaves in the buffers. *)
Lemma setupQuadraticSubproblem_stores s sched timeDiscretization initState x u p s' :
  setupQuadraticSubproblem s sched timeDiscretization initState x u = Returns (p, s') ->
  (length (dynamics_ s') + 1)%nat = length timeDiscretization
  /\ length (cost_ s') = length timeDiscretization
  /\ length (constraints_ s') = length timeDiscretization
  /\ (length (constraintsProjection_ s') + 1)%nat = length timeDiscretization
  /\ forall i, (i < length timeDiscretization)%nat ->
       exists ocp r,
         ocpDefinitions_ s !! (sched i mod nThreads (settings_ s))%nat = Some ocp
         /\ transcription ocp (projectStateInputEqualityConstraints (settings_ s))
                          timeDiscretization x u i = Some r
         /\ stored_at s' i (bool_decide (i + 1 = length timeDiscretization)%nat) r
         /\ (forall ti, timeDiscretization !! i = Some ti ->
               (i + 1 < length timeDiscretization)%nat -> event ti = PreEvent ->
               f (constraintsProjection r) = []).
Proof.
  unfold setupQuadraticSubproblem, runParallel, claimed.
  destruct (decide (Z.of_nat (length timeDiscretization) - 1 < 0)%Z) as [|Hlen];
    [discriminate|].
  intros E.
  apply bind_Returns in E as ([perf sc] & Hsweep & E).
  apply bind_Returns in E as (total & Htotal & E).
  injection E as _ <-. simpl.
  assert (nThreads (settings_ s) <> 0)%nat as Hn.
  { intros Hn0. simpl in Hsweep. rewrite Hn0 in Hsweep. simpl in Hsweep.
    injection Hsweep as <- _. discriminate Htotal. }
  set (len := length timeDiscretization) in *.
  set (n := nThreads (settings_ s)) in *.
  set (projection := projectStateInputEqualityConstraints (settings_ s)) in *.
  pose (ok := fun (sc : MultipleShootingSolver) (i : nat) =>
    exists ocp r,
      ocpDefinitions_ s !! (sched i mod n)%nat = Some ocp
      /\ transcription ocp projection timeDiscretization x u i = Some r
      /\ stored_at sc i (bool_decide (i + 1 = len)%nat) r
      /\ (forall ti, timeDiscretization !! i = Some ti ->
            (i + 1 < len)%nat -> event ti = PreEvent ->
            f (constraintsProjection r) = [])).
  pose (sizes := fun (sc : MultipleShootingSolver) =>
    (length (dynamics_ sc) + 1)%nat = len
    /\ length (cost_ sc) = len
    /\ length (constraints_ sc) = len
    /\ (length (constraintsProjection_ sc) + 1)%nat = len).
  pose (Outer := fun (w : nat) (st : list PerformanceIndex * MultipleShootingSolver) =>
    sizes st.2
    /\ forall i, (i < len)%nat -> (sched i mod n < w)%nat -> ok st.2 i).
  assert (Outer (0 + n)%nat (perf, sc)) as (Hsizes & Hall).
  { refine (foldM_seq_invariant Outer _ 0 n _ _ _ _ Hsweep).
    - split; [|intros i _ Hi; lia].
      unfold sizes. simpl. unfold resize_.
      rewrite !length_app, !length_take, !length_replicate. lia.
    - clear Hsweep Htotal perf sc.
      intros [perf sc] w [perf' sc'] (Hsizes & Hdone) Hw E.
      cbv beta in E. simpl in E.
      apply bind_Returns in E as (ocp & Hocp & E). apply at_Returns in Hocp.
      apply bind_Returns in E as ([wp sw] & Hnodes & E).
      apply bind_Returns in E as (mine & _ & E).
      apply bind_Returns in E as (perf1 & _ & E).
      injection E as _ <-. simpl in *.
      pose (Inner := fun (i' : nat) (st : PerformanceIndex * MultipleShootingSolver) =>
        sizes st.2
        /\ forall i, (i < len)%nat ->
             (sched i mod n < w)%nat \/ ((sched i mod n)%nat = w /\ (i < i')%nat) ->
             ok st.2 i).
      assert (Inner (0 + Z.to_nat (Z.of_nat len - 1 + 1))%nat (wp, sw)) as (Hs' & Hd').
      { refine (foldM_seq_invariant Inner _ 0 _ _ _ _ _ Hnodes).
        - split; [exact Hsizes|]. intros i Hi [Hlt|[_ Hlt]]; [auto|lia].
        - clear Hnodes wp sw. intros [wp sw] i [wp' sw'] (Hsz & Hold) Hi E.
          cbv beta in E. simpl in E, Hsz, Hold. fold n projection in E.
          assert (forall r terminal,
                    terminal = bool_decide (i + 1 = len)%nat ->
                    (sched i mod n)%nat = w ->
                    transcription ocp projection timeDiscretization x u i = Some r ->
                    (forall ti, timeDiscretization !! i = Some ti ->
                       (i + 1 < len)%nat -> event ti = PreEvent ->
                       f (constraintsProjection r) = []) ->
                    store_node i terminal r sw = Returns sw' ->
                    Inner (S i) (wp', sw')) as Hstore.
          { intros r terminal -> Hown Hr Hempty Hst.
            apply store_node_stored in Hst as (Hi' & Hothers & L1 & L2 & L3 & L4).
            split; [unfold sizes in *; simpl; lia|]. simpl.
            intros j Hj Hproc. destruct (decide (j = i)) as [->|Hne].
            - exists ocp, r. rewrite Hown. auto.
            - destruct (Hold j Hj) as (ocpj & rj & A1 & A2 & A3 & A4).
              { destruct Hproc as [?|[? ?]]; [auto|right; split; [assumption|lia]]. }
              exists ocpj, rj. split; [exact A1|]. split; [exact A2|].
              split; [|exact A4]. apply Hothers; assumption. }
          destruct (decide (sched i mod n = w)%nat) as [Hown|Hother].
          2:{ injection E as <- <-. split; [exact Hsz|]. simpl.
              intros j Hj [Hlt|[Hj1 Hj2]]; apply Hold; auto.
              right. split; [exact Hj1|].
              destruct (decide (j = i)) as [->|]; [contradiction|lia]. }
          destruct (decide (Z.of_nat i < Z.of_nat len - 1)%Z) as [Hinner|Hlast].
          + apply bind_Returns in E as (ti & Hti & E). apply at_Returns in Hti.
            destruct (decide (event ti = PreEvent)) as [Hpre|Hno].
            * apply bind_Returns in E as (xi & Hxi & E). apply at_Returns in Hxi.
              apply bind_Returns in E as (xi1 & Hxi1 & E). apply at_Returns in Hxi1.
              apply bind_Returns in E as (sw1 & Hst & E). injection E as _ <-.
              refine (Hstore _ false _ Hown _ _ Hst).
              -- symmetry. apply bool_decide_eq_false. lia.
              -- unfold transcription. rewrite Hti, Hxi.
                 destruct (decide (i + 1 < length timeDiscretization)%nat);
                   [|unfold len in *; lia].
                 rewrite Hxi1.
                 destruct (decide (event ti = PreEvent)); [reflexivity|contradiction].
              -- intros. reflexivity.
            * apply bind_Returns in E as (ti1 & Hti1 & E). apply at_Returns in Hti1.
              apply bind_Returns in E as (xi & Hxi & E). apply at_Returns in Hxi.
              apply bind_Returns in E as (xi1 & Hxi1 & E). apply at_Returns in Hxi1.
              apply bind_Returns in E as (ui & Hui & E). apply at_Returns in Hui.
              apply bind_Returns in E as (sw1 & Hst & E). injection E as _ <-.
              refine (Hstore _ false _ Hown _ _ Hst).
              -- symmetry. apply bool_decide_eq_false. lia.
              -- unfold transcription. rewrite Hti, Hxi.
                 destruct (decide (i + 1 < length timeDiscretization)%nat);
                   [|unfold len in *; lia].
                 rewrite Hxi1.
                 destruct (decide (event ti = PreEvent)); [contradiction|].
                 rewrite Hti1, Hui. reflexivity.
              -- intros ti' Hti' _ Hpre. congruence.
          + apply bind_Returns in E as (tN & HtN & E). apply at_Returns in HtN.
            apply bind_Returns in E as (xN & HxN & E). apply at_Returns in HxN.
            apply bind_Returns in E as (sw1 & Hst & E). injection E as _ <-.
            refine (Hstore _ true _ Hown _ _ Hst).
            * symmetry. apply bool_decide_eq_true. lia.
            * unfold transcription. rewrite HtN, HxN.
              destruct (decide (i + 1 < length timeDiscretization)%nat);
                [unfold len in *; lia|reflexivity].
            * intros ti' _ Hlt. lia. }
      split; [exact Hs'|].
      intros i Hi Hlt. apply Hd'; [exact Hi|].
      destruct (decide (sched i mod n < w)%nat); [auto|].
      right. split; lia. }
  destruct Hsizes as (S1 & S2 & S3 & S4).
  split; [exact S1|]. split; [exact S2|]. split; [exact S3|]. split; [exact S4|].
  intros i Hi. apply Hall; [exact Hi|].
  simpl. apply Nat.mod_upper_bound. exact Hn.
Qed.

(** **** X11. After the approximation sweep the buffers have the sizes of
    the grid -- [N] dynamics and projections, [N + 1] costs and
    constraints for a grid of [N + 1] nodes -- and the entry of every node
    is the transcription of that node, computed with the problem clone of
    the worker that claimed it: the arrays are indexed by node, whatever
    the order in which the workers finished. In particular the projection
    stored for an event node is empty. *)
Theorem setupQuadraticSubproblem_buffers s sched timeDiscretization initState x u p s' :
  setupQuadraticSubproblem s sched timeDiscretization initState x u = Returns (p, s') ->
  (length (dynamics_ s') + 1)%nat = length timeDiscretization
  /\ length (cost_ s') = length timeDiscretization
  /\ length (constraints_ s') = length timeDiscretization
  /\ (length (constraintsProjection_ s') + 1)%nat = length timeDiscretization
  /\ forall i, (i < length timeDiscretization)%nat ->
       exists ocp r,
         ocpDefinitions_ s !! (sched i mod nThreads (settings_ s))%nat = Some ocp
         /\ transcription ocp (projectStateInputEqualityConstraints (settings_ s))
                          timeDiscretization x u i = Some r
         /\ stored_at s' i (bool_decide (i + 1 = length timeDiscretization)%nat) r
         /\ (forall ti, timeDiscretization !! i = Some ti ->
               (i + 1 < length timeDiscretization)%nat -> event ti = PreEvent ->
               f (constraintsProjection r) = []).
Proof.
  exact (setupQuadraticSubproblem_stores s sched timeDiscretization initState x u p s').
Qed.

End ApproximationBuffers.

(** ** The sum of the performance sweep *)

Lemma Qsum_map_ext {A : Type} (g1 g2 : A -> Q) (l : list A) :
  (forall a, a ∈ l -> g1 a == g2 a) -> Qsum (map g1 l) == Qsum (map g2 l).
Proof.
  induction l as [|a l IH]; intros E; [reflexivity|].
  cbn [map Qsum foldr]. fold (Qsum (map g1 l)) (Qsum (map g2 l)).
  rewrite (E a), IH; [reflexivity| |left].
  intros b Hb. apply E. right. exact Hb.
Qed.

Lemma Qsum_map_plus {A : Type} (g1 g2 : A -> Q) (l : list A) :
  Qsum (map (fun a => g1 a + g2 a) l) == Qsum (map g1 l) + Qsum (map g2 l).
Proof.
  induction l as [|a l IH]; [reflexivity|].
  cbn [map Qsum foldr].
  fold (Qsum (map g1 l)) (Qsum (map g2 l)) (Qsum (map (fun a => g1 a + g2 a) l)).
  rewrite IH. ring.
Qed.

Lemma Qsum_map_zero {A : Type} (l : list A) : Qsum (map (fun _ => 0) l) == 0.
Proof.
  induction l as [|a l IH]; [reflexivity|].
  cbn [map Qsum foldr]. fold (Qsum (map (fun _ : A => 0) l)). rewrite IH. ring.
Qed.

(** Only the worker [k] of [seq from n] has the term [v]. *)
Lemma Qsum_one_worker (k : nat) (v : Q) (from n : nat) :
  Qsum (map (fun w => if decide (k = w) then v else 0) (seq from n))
  == if decide (from <= k < from + n)%nat then v else 0.
Proof.
  revert from. induction n as [|n IH]; intros from.
  - destruct (decide _); [lia|reflexivity].
  - cbn [seq map Qsum foldr].
    fold (Qsum (map (fun w => if decide (k = w) then v else 0) (seq (S from) n))).
    rewrite IH.
    destruct (decide (k = from)), (decide (S from <= k < S from + n)%nat),
             (decide (from <= k < from + S n)%nat); try lia; ring.
Qed.

(** Summing per worker the terms of the nodes that the worker owns, and
    then over the workers, is summing over the nodes. *)
Lemma Qsum_by_worker (owner : nat -> nat) (h : nat -> Q) (n : nat) (l : list nat) :
  (forall i, i ∈ l -> (owner i < n)%nat) ->
  Qsum (map (fun w => Qsum (map (fun i => if decide (owner i = w) then h i else 0) l))
            (seq 0 n))
  == Qsum (map h l).
Proof.
  induction l as [|a l IH]; intros Hown.
  - cbn [map Qsum foldr]. apply Qsum_map_zero.
  - cbn [map Qsum foldr].
    fold (Qsum (map h l)).
    rewrite <- IH by (intros i Hi; apply Hown; right; exact Hi).
    rewrite <- (Qsum_map_ext
                  (fun w => (if decide (owner a = w) then h a else 0)
                            + Qsum (map (fun i => if decide (owner i = w) then h i else 0) l)))
      by (intros; reflexivity).
    rewrite Qsum_map_plus, Qsum_one_worker.
    destruct (decide _) as [|Hout]; [reflexivity|].
    exfalso. apply Hout. split; [lia|]. apply Hown. left.
Qed.

Lemma Qsum_filter {A : Type} (P : A -> Prop) `{forall a, Decision (P a)}
    (h : A -> Q) (l : list A) :
  Qsum (map h (filter P l)) == Qsum (map (fun a => if decide (P a) then h a else 0) l).
Proof.
  induction l as [|a l IH]; [reflexivity|].
  cbn [map Qsum foldr].
  fold (Qsum (map (fun a => if decide (P a) then h a else 0) l)).
  rewrite <- IH.
  destruct (decide (P a)) as [Ha|Ha].
  - rewrite filter_cons_True by exact Ha. reflexivity.
  - rewrite filter_cons_False by exact Ha. ring.
Qed.

Section SweepSum.
Context `{Collaborators}.

Lemma foldl_add_sum g a l :
  additive g ->
  g (foldl PerformanceIndex_add a l) == g a + Qsum (map g l).
Proof.
  intros [_ Hadd]. revert a. induction l as [|b l IH]; intros a.
  - cbn. ring.
  - cbn [foldl map Qsum foldr]. fold (Qsum (map g l)).
    rewrite IH, Hadd. ring.
Qed.

(** The body of the sweep for the worker [w]: a node of another worker is
    skipped, a node of [w] adds its performance. *)
Lemma computePerformance_node (n : nat) (sched : Schedule) ocp timeDiscretization x u
    (w i : nat) (acc acc' : PerformanceIndex) :
  (if decide (sched i mod n = w)%nat then
     if decide (Z.of_nat i < Z.of_nat (length timeDiscretization) - 1)%Z then
       ti <- at_ timeDiscretization i ;;
       if decide (event ti = PreEvent) then
         xi <- at_ x i ;;
         xi1 <- at_ x (i + 1) ;;
         Returns (PerformanceIndex_add acc
                    (computeEventPerformance ocp (time ti) xi xi1))
       else
         ti1 <- at_ timeDiscretization (i + 1) ;;
         xi <- at_ x i ;;
         xi1 <- at_ x (i + 1) ;;
         ui <- at_ u i ;;
         Returns (PerformanceIndex_add acc
                    (computeIntermediatePerformance ocp
                       (getIntervalStart ti) (getIntervalDuration ti ti1) xi xi1 ui))
     else
       tN <- at_ timeDiscretization i ;;
       xN <- at_ x i ;;
       Returns (PerformanceIndex_add acc
                  (computeTerminalPerformance ocp (getIntervalStart tN) xN))
   else Returns acc) = Returns acc' ->
  ((sched i mod n)%nat <> w /\ acc' = acc)
  \/ ((sched i mod n)%nat = w
      /\ exists pi, nodePerformance ocp timeDiscretization x u i = Some pi
                    /\ acc' = PerformanceIndex_add acc pi).
Proof.
  intros E. destruct (decide (sched i mod n = w)%nat) as [Hown|Hother].
  2:{ left. injection E as <-. auto. }
  right. split; [exact Hown|]. unfold nodePerformance.
  destruct (decide (Z.of_nat i < Z.of_nat (length timeDiscretization) - 1)%Z).
  - apply bind_Returns in E as (ti & Hti & E). apply at_Returns in Hti.
    destruct (decide (i + 1 < length timeDiscretization)%nat); [|lia].
    destruct (decide (event ti = PreEvent)) as [Hpre|Hno].
    + apply bind_Returns in E as (xi & Hxi & E). apply at_Returns in Hxi.
      apply bind_Returns in E as (xi1 & Hxi1 & E). apply at_Returns in Hxi1.
      injection E as <-. rewrite Hti, Hxi, Hxi1.
      destruct (decide (event ti = PreEvent)); [eauto|contradiction].
    + apply bind_Returns in E as (ti1 & Hti1 & E). apply at_Returns in Hti1.
      apply bind_Returns in E as (xi & Hxi & E). apply at_Returns in Hxi.
      apply bind_Returns in E as (xi1 & Hxi1 & E). apply at_Returns in Hxi1.
      apply bind_Returns in E as (ui & Hui & E). apply at_Returns in Hui.
      injection E as <-. rewrite Hti, Hxi, Hxi1.
      destruct (decide (event ti = PreEvent)); [contradiction|].
      rewrite Hti1, Hui. eauto.
  - apply bind_Returns in E as (tN & HtN & E). apply at_Returns in HtN.
    apply bind_Returns in E as (xN & HxN & E). apply at_Returns in HxN.
    injection E as <-. rewrite HtN, HxN.
    destruct (decide (i + 1 < length timeDiscretization)%nat); [lia|eauto].
Qed.

(** **** X12. The performance sweep evaluates every node of the grid
    once, with the problem clone of the worker that claimed it, and what it
    returns is, field by field, the sum of the nodes' performance over the
    grid -- whatever the distribution of the nodes over the workers --
    with the squared distance of the first state from the initial state
    added to the state-equality violation. *)
Theorem computePerformance_sum s sched timeDiscretization initState x u p :
  computePerformance s sched timeDiscretization initState x u = Returns p ->
  exists nodes x0,
    x !! 0%nat = Some x0
    /\ Forall2 (fun i pi =>
                  exists ocp,
                    ocpDefinitions_ s !! (sched i mod nThreads (settings_ s))%nat = Some ocp
                    /\ nodePerformance ocp timeDiscretization x u i = Some pi)
               (seq 0 (length timeDiscretization)) nodes
    /\ totalCost p == Qsum (map totalCost nodes)
    /\ stateEqConstraintISE p
       == Qsum (map stateEqConstraintISE nodes) + squaredNorm (vsub initState x0)
    /\ stateInputEqConstraintISE p == Qsum (map stateInputEqConstraintISE nodes)
    /\ inequalityConstraintISE p == Qsum (map inequalityConstraintISE nodes)
    /\ inequalityConstraintPenalty p == Qsum (map inequalityConstraintPenalty nodes).
Proof.
  unfold computePerformance, runParallel, claimed. intros E.
  apply bind_Returns in E as (perf & Hsweep & E).
  set (len := length timeDiscretization) in *.
  set (n := nThreads (settings_ s)) in *.
  replace (Z.to_nat (Z.of_nat len - 1 + 1)) with len in Hsweep by lia.
  pose (owner := fun i => (sched i mod n)%nat).
  pose (val := fun i =>
    match ocpDefinitions_ s !! owner i with
    | Some ocp => default PerformanceIndex_zero (nodePerformance ocp timeDiscretization x u i)
    | None => PerformanceIndex_zero
    end).
  pose (ok := fun i =>
    exists ocp, ocpDefinitions_ s !! owner i = Some ocp
                /\ nodePerformance ocp timeDiscretization x u i = Some (val i)).
  pose (wsum := fun w =>
    foldl PerformanceIndex_add PerformanceIndex_zero
          (map val (filter (fun i => owner i = w) (seq 0 len)))).
  pose (Outer := fun (w' : nat) (perf : list PerformanceIndex) =>
    (forall i, (i < len)%nat -> (owner i < w')%nat -> ok i)
    /\ length perf = n
    /\ forall w, (w < n)%nat ->
         perf !! w = Some (if decide (w < w')%nat
                           then PerformanceIndex_add PerformanceIndex_zero (wsum w)
                           else PerformanceIndex_zero)).
  assert (Outer (0 + n)%nat perf) as (Hok & Hlen & Hperf).
  { refine (foldM_seq_invariant Outer _ 0 n _ _ _ _ Hsweep).
    - split; [intros; lia|]. split; [apply length_replicate|].
      intros w Hw. destruct (decide (w < 0)%nat); [lia|].
      apply lookup_replicate_2. exact Hw.
    - clear Hsweep E perf. intros perf w perf' (Hok & Hlen & Hperf) Hw E.
      cbv beta in E.
      apply bind_Returns in E as (ocp & Hocp & E). apply at_Returns in Hocp.
      apply bind_Returns in E as (wp & Hnodes & E).
      apply bind_Returns in E as (mine & Hmine & E). apply at_Returns in Hmine.
      apply assign_Returns in E as [_ ->].
      pose (Inner := fun (i' : nat) (acc : PerformanceIndex) =>
        (forall i, (i < i')%nat -> owner i = w -> ok i)
        /\ acc = foldl PerformanceIndex_add PerformanceIndex_zero
                       (map val (filter (fun i => owner i = w) (seq 0 i')))).
      assert (Inner (0 + len)%nat wp) as (Hmy & Hwp).
      { refine (foldM_seq_invariant Inner _ 0 len _ _ _ _ Hnodes).
        - split; [intros; lia|reflexivity].
        - clear Hnodes wp. intros acc i acc' (Hmy & Hacc) Hi E.
          apply computePerformance_node in E as [[Hother ->]|(Hown & pi & Hpi & ->)].
          + split.
            * intros j Hj Hjw. apply Hmy; [|exact Hjw].
              destruct (decide (j = i)) as [->|]; [contradiction|lia].
            * rewrite seq_S, filter_app, filter_cons_False, filter_nil, app_nil_r
                by exact Hother.
              exact Hacc.
          + assert (val i = pi) as Hval.
            { unfold val. fold (owner i) in Hown. rewrite Hown, Hocp, Hpi. reflexivity. }
            split.
            * intros j Hj Hjw. destruct (decide (j = i)) as [->|].
              -- exists ocp. rewrite Hjw, Hval. auto.
              -- apply Hmy; [lia|exact Hjw].
            * rewrite seq_S, filter_app, filter_cons_True, filter_nil, map_app, foldl_app
                by exact Hown.
              rewrite <- Hacc. simpl. rewrite Hval. reflexivity. }
      split; [|split].
      + intros i Hi Hlt. destruct (decide (owner i = w)) as [Hiw|].
        * apply Hmy; [lia|exact Hiw].
        * apply Hok; [exact Hi|lia].
      + rewrite length_insert. exact Hlen.
      + intros v Hv. destruct (decide (v = w)) as [->|Hne].
        * rewrite list_lookup_insert_eq by lia.
          destruct (decide (w < S w)%nat); [|lia].
          rewrite (Hperf w Hv) in Hmine.
          destruct (decide (w < w)%nat); [lia|].
          injection Hmine as <-. rewrite Hwp. reflexivity.
        * rewrite list_lookup_insert_ne by congruence.
          rewrite (Hperf v Hv).
          destruct (decide (v < w)%nat), (decide (v < S w)%nat); try lia; reflexivity. }
  simpl in Hok, Hperf.
  unfold totalPerformance, front in E.
  apply bind_Returns in E as (p0 & Hp0 & E). apply at_Returns in Hp0.
  apply bind_Returns in E as (x0 & Hx0 & E). apply at_Returns in Hx0.
  injection E as <-.
  assert (0 < n)%nat as Hn.
  { apply lookup_lt_Some in Hp0. lia. }
  assert (forall i, (i < len)%nat -> ok i) as Hall.
  { intros i Hi. apply Hok; [exact Hi|]. apply Nat.mod_upper_bound. lia. }
  assert (perf = map (fun w => PerformanceIndex_add PerformanceIndex_zero (wsum w))
                     (seq 0 n)) as Hmap.
  { apply list_eq. intros w. destruct (decide (w < n)%nat) as [Hw|Hw].
    - rewrite (Hperf w Hw). destruct (decide (w < n)%nat); [|lia].
      rewrite list_lookup_fmap, lookup_seq_lt by exact Hw. reflexivity.
    - rewrite !lookup_ge_None_2; [reflexivity| |lia].
      rewrite length_map, length_seq. lia. }
  assert (forall g, additive g ->
            g p0 + Qsum (map g (tail perf)) == Qsum (map (fun i => g (val i)) (seq 0 len)))
    as Htotal.
  { intros g Hg.
    assert (perf = p0 :: tail perf) as Hcons.
    { destruct perf; [discriminate|]. injection Hp0 as ->. reflexivity. }
    change (g p0 + Qsum (map g (tail perf))) with (Qsum (map g (p0 :: tail perf))).
    rewrite <- Hcons, Hmap, map_map.
    rewrite <- (Qsum_by_worker owner (fun i => g (val i)) n (seq 0 len)).
    2:{ intros i _. apply Nat.mod_upper_bound. lia. }
    apply Qsum_map_ext. intros w _.
    destruct Hg as [Hzero Hadd] eqn:Hg'. clear Hg'.
    rewrite Hadd, Hzero. unfold wsum.
    rewrite (foldl_add_sum g _ _ (conj Hzero Hadd)), Hzero, map_map.
    rewrite (Qsum_filter (fun i => owner i = w) (fun i => g (val i))). ring. }
  exists (map val (seq 0 len)), x0.
  split; [exact Hx0|]. split.
  { apply Forall2_fmap_r, Forall_Forall2_diag, Forall_forall.
    intros i Hi. apply elem_of_seq in Hi. apply Hall. lia. }
  assert (additive totalCost) as G1 by (split; reflexivity).
  assert (additive stateEqConstraintISE) as G2 by (split; reflexivity).
  assert (additive stateInputEqConstraintISE) as G3 by (split; reflexivity).
  assert (additive inequalityConstraintISE) as G4 by (split; reflexivity).
  assert (additive inequalityConstraintPenalty) as G5 by (split; reflexivity).
  rewrite !map_map. cbn [set_merit totalCost stateEqConstraintISE
    stateInputEqConstraintISE inequalityConstraintISE inequalityConstraintPenalty].
  rewrite (foldl_add_sum totalCost _ _ G1), (foldl_add_sum stateEqConstraintISE _ _ G2),
    (foldl_add_sum stateInputEqConstraintISE _ _ G3),
    (foldl_add_sum inequalityConstraintISE _ _ G4),
    (foldl_add_sum inequalityConstraintPenalty _ _ G5).
  cbn [add_stateEqConstraintISE totalCost stateEqConstraintISE
    stateInputEqConstraintISE inequalityConstraintISE inequalityConstraintPenalty].
  rewrite <- (Htotal _ G1), <- (Htotal _ G2), <- (Htotal _ G3), <- (Htotal _ G4),
    <- (Htotal _ G5).
  repeat split; ring.
Qed.

End SweepSum.

(** ** The exceptions of a run *)

Lemma bind_Throws {A B : Type} (k : A -> outcome B) (m : outcome A) (e : exception) :
  outcome_bind k m = Throws e ->
  m = Throws e \/ exists a, m = Returns a /\ k a = Throws e.
Proof.
  destruct m as [a| | |]; simpl; intros E; try discriminate.
  - right. exists a. auto.
  - left. injection E as ->. reflexivity.
Qed.

Lemma never_throws_bind {A B : Type} (k : A -> outcome B) (m : outcome A) :
  never_throws m -> (forall a, never_throws (k a)) -> never_throws (outcome_bind k m).
Proof.
  intros Hm Hk e E. apply bind_Throws in E as [E|(a & _ & E)].
  - exact (Hm e E).
  - exact (Hk a e E).
Qed.

Lemma never_throws_foldM {A S : Type} (body : S -> A -> outcome S) (s : S) (l : list A) :
  (forall s a, never_throws (body s a)) -> never_throws (foldM body s l).
Proof.
  intros Hbody. revert s. induction l as [|a l IH]; intros s.
  - intros e. discriminate.
  - cbn [foldM]. apply never_throws_bind; [apply Hbody|exact IH].
Qed.

Lemma never_throws_Returns {A : Type} (a : A) : never_throws (Returns a).
Proof. intros e. discriminate. Qed.

Lemma never_throws_at {A : Type} (v : list A) (i : nat) : never_throws (at_ v i).
Proof. intros e. unfold at_. destruct (v !! i); discriminate. Qed.

Lemma never_throws_front {A : Type} (v : list A) : never_throws (front v).
Proof. apply never_throws_at. Qed.

Lemma never_throws_back {A : Type} (v : list A) : never_throws (back v).
Proof. intros e. unfold back. destruct (last v); discriminate. Qed.

Lemma never_throws_assign {A : Type} (v : list A) (i : nat) (a : A) :
  never_throws (assign v i a).
Proof. intros e. unfold assign. destruct (decide _); discriminate. Qed.

Ltac quiet :=
  repeat
    (cbv beta;
     match goal with
     | |- never_throws (Returns _) => apply never_throws_Returns
     | |- never_throws (at_ _ _) => apply never_throws_at
     | |- never_throws (front _) => apply never_throws_front
     | |- never_throws (back _) => apply never_throws_back
     | |- never_throws (assign _ _ _) => apply never_throws_assign
     | |- never_throws (outcome_bind _ _) => apply never_throws_bind; [|intros ?]
     | |- never_throws (foldM _ _ _) => apply never_throws_foldM; intros ? ?
     | |- never_throws (if ?c then _ else _) => destruct c
     | |- never_throws (match ?x with _ => _ end) => destruct x
     | H : _ |- _ => exact H
     end).

Section RunExceptions.
Context `{Collaborators}.

Lemma never_throws_computeStep alpha x u dx du xNew uNew :
  never_throws (computeStep alpha x u dx du xNew uNew).
Proof. unfold computeStep. quiet. Qed.

Lemma never_throws_computePerformance s sched timeDiscretization initState x u :
  never_throws (computePerformance s sched timeDiscretization initState x u).
Proof. unfold computePerformance, runParallel, totalPerformance. quiet. Qed.

Lemma never_throws_lineSearch fuel s sched baseline timeDiscretization initState
    subproblemSolution x u k alpha xNew uNew :
  never_throws (lineSearch fuel s sched baseline timeDiscretization initState
                           subproblemSolution x u k alpha xNew uNew).
Proof.
  revert k alpha xNew uNew. induction fuel as [|fuel IH]; intros k alpha xNew uNew.
  - intros e. discriminate.
  - cbn [lineSearch].
    apply never_throws_bind; [apply never_throws_computeStep|intros new].
    apply never_throws_bind; [apply never_throws_computePerformance|intros performanceNew].
    quiet. apply IH.
Qed.

Lemma never_throws_setPrimalSolution s timeDiscretization x u :
  never_throws (setPrimalSolution s timeDiscretization x u).
Proof. unfold setPrimalSolution, repeatInputAtPreEvents, feedbackLoop. quiet. Qed.

Lemma never_throws_store_node i terminal r s : never_throws (store_node i terminal r s).
Proof. unfold store_node. quiet. Qed.

Lemma setupQuadraticSubproblem_Throws s sched timeDiscretization initState x u e :
  setupQuadraticSubproblem s sched timeDiscretization initState x u = Throws e ->
  timeDiscretization = [] /\ e = length_error.
Proof.
  unfold setupQuadraticSubproblem.
  destruct (decide _) as [Hempty|_].
  - intros E. injection E as <-. split; [|reflexivity].
    destruct timeDiscretization; [reflexivity|simpl in Hempty; lia].
  - intros E. exfalso. revert E.
    match goal with |- ?m = Throws e -> False => assert (never_throws m) as Hq end.
    { unfold runParallel, totalPerformance.
      repeat first [ apply never_throws_store_node | progress quiet ]. }
    apply Hq.
Qed.

Lemma initializeStateInputTrajectories_Throws s initState timeDiscretization e :
  initializeStateInputTrajectories s initState timeDiscretization = Throws e ->
  timeDiscretization = [] /\ e = length_error.
Proof.
  unfold initializeStateInputTrajectories.
  destruct (decide _) as [Hempty|_].
  - intros E. injection E as <-. split; [|reflexivity].
    destruct timeDiscretization; [reflexivity|simpl in Hempty; lia].
  - intros E. exfalso. revert E.
    match goal with |- ?m = Throws e -> False => assert (never_throws m) as Hq end.
    { quiet. }
    apply Hq.
Qed.

Lemma getOCPSolution_Throws s delta_x0 e :
  getOCPSolution s delta_x0 = Throws e -> e = qp_failed.
Proof.
  unfold getOCPSolution. intros E.
  apply bind_Throws in E as [E|(ocp0 & _ & E)].
  { exfalso. exact (never_throws_front _ _ E). }
  destruct (solveQP s ocp0 delta_x0) as [[[h status] deltaX] deltaU].
  destruct (decide (status <> SUCCESS)).
  - injection E as <-. reflexivity.
  - exfalso. revert E.
    match goal with |- ?m = Throws e -> False => assert (never_throws m) as Hq end.
    { unfold descentMetric, remapProjectedInput. quiet. }
    apply Hq.
Qed.

Lemma sqpLoop_Throws remaining fuel sched timeDiscretization initState iter s x u e :
  sqpLoop remaining fuel sched timeDiscretization initState iter s x u = Throws e ->
  (timeDiscretization = [] /\ e = length_error) \/ e = qp_failed.
Proof.
  revert iter s x u. induction remaining as [|remaining IH]; intros iter s x u E.
  - discriminate.
  - cbn [sqpLoop] in E.
    apply bind_Throws in E as [E|([baselinePerformance s1] & _ & E)].
    { left. exact (setupQuadraticSubproblem_Throws _ _ _ _ _ _ _ E). }
    apply bind_Throws in E as [E|(x0 & _ & E)].
    { exfalso. exact (never_throws_at _ _ _ E). }
    apply bind_Throws in E as [E|([deltaSolution s2] & _ & E)].
    { right. exact (getOCPSolution_Throws _ _ _ E). }
    apply bind_Throws in E as [E|(stepInfo & _ & E)].
    { exfalso. exact (never_throws_lineSearch _ _ _ _ _ _ _ _ _ _ _ _ _ _ E). }
    destruct (converged stepInfo); [discriminate|].
    exact (IH _ _ _ _ E).
Qed.

(** **** X13. The only exceptions that a run raises: a length error when
    the time grid is empty, and the runtime error of a failed QP
    otherwise.  The line search, the performance sweeps and the assembly of
    the solution raise none. *)
Theorem runImpl_exceptions fuel sched s initTime initState finalTime e :
  runImpl fuel sched s initTime initState finalTime = Throws e ->
  let timeDiscretization :=
    timeDiscretizationWithEvents initTime finalTime (dt (settings_ s))
                                 (eventTimes (referenceManager_ s)) in
  (timeDiscretization = [] /\ e = length_error)
  \/ (timeDiscretization <> [] /\ e = qp_failed).
Proof.
  intros E. cbv zeta. unfold runImpl in E.
  set (td := timeDiscretizationWithEvents initTime finalTime (dt (settings_ s))
                                          (eventTimes (referenceManager_ s))) in *.
  apply bind_Throws in E as [E|(xu & Hinit & E)].
  { left. exact (initializeStateInputTrajectories_Throws _ _ _ _ E). }
  assert (td <> []) as Hgrid.
  { intros Hnil. rewrite Hnil in Hinit. discriminate Hinit. }
  apply bind_Throws in E as [E|([[s1 x] u] & _ & E)].
  - apply sqpLoop_Throws in E as [[Hnil _]|Hqp]; [contradiction|].
    right. split; [exact Hgrid|exact Hqp].
  - exfalso. exact (never_throws_setPrimalSolution _ _ _ _ _ E).
Qed.

End RunExceptions.

(** ** Calls that stay in range *)

Section InRange.
Context `{Collaborators}.

Lemma store_node_returns i terminal r sc :
  (i < length (cost_ sc))%nat ->
  (i < length (constraints_ sc))%nat ->
  (terminal = false ->
   (i < length (dynamics_ sc))%nat /\ (i < length (constraintsProjection_ sc))%nat) ->
  exists sc', store_node i terminal r sc = Returns sc'.
Proof.
  intros Hc Hn Hrest. unfold store_node, assign.
  destruct (decide (i < length (cost_ sc))%nat); [|lia].
  destruct (decide (i < length (constraints_ sc))%nat); [|lia]. simpl.
  destruct terminal; [eauto|].
  destruct (Hrest eq_refl) as [Hd Hp].
  destruct (decide (i < length (dynamics_ sc))%nat); [|lia].
  destruct (decide (i < length (constraintsProjection_ sc))%nat); [|lia]. simpl.
  eauto.
Qed.

(** The approximation sweep stays in range on an aligned iterate. *)
Lemma setupQuadraticSubproblem_returns s sched timeDiscretization initState x u :
  (0 < nThreads (settings_ s))%nat ->
  (nThreads (settings_ s) <= length (ocpDefinitions_ s))%nat ->
  timeDiscretization <> [] ->
  aligned timeDiscretization x u ->
  exists p s',
    setupQuadraticSubproblem s sched timeDiscretization initState x u = Returns (p, s').
Proof.
  intros Hn Hocp Hgrid [Hx Hu].
  assert (0 < length timeDiscretization)%nat as Hpos.
  { destruct timeDiscretization; [congruence|simpl; lia]. }
  unfold setupQuadraticSubproblem, runParallel, claimed.
  destruct (decide _) as [|_]; [lia|].
  cbn [settings_ ocpDefinitions_ with_approximation].
  set (len := length timeDiscretization) in *.
  pose (sizes := fun (sc : MultipleShootingSolver) =>
    (length (dynamics_ sc) + 1)%nat = len
    /\ length (cost_ sc) = len
    /\ length (constraints_ sc) = len
    /\ (length (constraintsProjection_ sc) + 1)%nat = len).
  assert (forall i terminal r sc,
            (i < len)%nat -> (terminal = false -> i + 1 < len)%nat -> sizes sc ->
            exists sc', store_node i terminal r sc = Returns sc' /\ sizes sc') as Hstore.
  { intros i terminal r sc Hi Hterm (S1 & S2 & S3 & S4).
    destruct (store_node_returns i terminal r sc) as [sc' E]; [lia|lia| |].
    { intros Ht. specialize (Hterm Ht). lia. }
    exists sc'. split; [exact E|].
    apply store_node_stored in E as (_ & _ & L1 & L2 & L3 & L4).
    unfold sizes. lia. }
  match goal with
  | |- exists p s', outcome_bind _ (foldM ?body ?init _) = _ =>
      destruct (foldM_seq_returns
                  (fun _ (st : list PerformanceIndex * MultipleShootingSolver) =>
                     length st.1 = nThreads (settings_ s) /\ sizes st.2)
                  body 0 (nThreads (settings_ s)) init) as ([perf sc] & -> & Hperf & _)
  end.
  { split; [apply length_replicate|].
    unfold sizes. simpl. unfold resize_.
    rewrite !length_app, !length_take, !length_replicate. lia. }
  { intros [perf sc] w [Hl Hsz] Hw. cbv beta. simpl in Hl, Hsz.
    cbn [ocpDefinitions_ with_approximation].
    destruct (at_in_range (ocpDefinitions_ s) w ltac:(lia)) as (ocp & -> & _). simpl.
    match goal with
    | |- exists s2, outcome_bind _ (foldM ?body ?init _) = _ /\ _ =>
        destruct (foldM_seq_returns
                    (fun _ (st : PerformanceIndex * MultipleShootingSolver) => sizes st.2)
                    body 0 (Z.to_nat (Z.of_nat len - 1 + 1)) init Hsz)
          as ([wp sw] & -> & Hsw)
    end.
    { intros [wp sw] i Hsw Hi. cbv beta. simpl in Hsw.
      destruct (decide (sched i mod nThreads (settings_ s) = w)%nat); [|eauto].
      destruct (at_in_range timeDiscretization i ltac:(lia)) as (ti & -> & _).
      destruct (at_in_range x i ltac:(lia)) as (xi & -> & _).
      destruct (decide (Z.of_nat i < Z.of_nat len - 1)%Z).
      - destruct (at_in_range x (i + 1) ltac:(lia)) as (xi1 & -> & _).
        destruct (at_in_range timeDiscretization (i + 1) ltac:(lia)) as (ti1 & -> & _).
        destruct (at_in_range u i ltac:(lia)) as (ui & -> & _).
        simpl. destruct (decide (event ti = PreEvent)); simpl.
        + match goal with
          | |- context [store_node i false ?r sw] =>
              destruct (Hstore i false r sw) as (sw' & -> & Hsw'); [lia|lia|exact Hsw|]
          end.
          simpl. eauto.
        + match goal with
          | |- context [store_node i false ?r sw] =>
              destruct (Hstore i false r sw) as (sw' & -> & Hsw'); [lia|lia|exact Hsw|]
          end.
          simpl. eauto.
      - simpl.
        match goal with
        | |- context [store_node i true ?r sw] =>
            destruct (Hstore i true r sw) as (sw' & -> & Hsw'); [lia|discriminate|exact Hsw|]
        end.
        simpl. eauto. }
    simpl.
    destruct (at_in_range perf w ltac:(lia)) as (mine & -> & _). simpl.
    unfold assign. destruct (decide (w < length perf)%nat); [|lia]. simpl.
    eexists. split; [reflexivity|]. simpl. rewrite length_insert. auto. }
  simpl. unfold totalPerformance, front. simpl in Hperf.
  destruct (at_in_range perf 0 ltac:(lia)) as (p0 & -> & _).
  destruct (at_in_range x 0 ltac:(lia)) as (x0 & -> & _).
  simpl. eauto.
Qed.

(** **** X14. The approximation sweep on an empty grid throws
    [std::length_error] (from the [resize] to a negative size). On an
    iterate that is aligned with a non-empty grid, in a solver with at
    least one worker and a problem clone for each, it returns: no access
    leaves the grid, the iterate or the buffers, whatever the schedule. *)
Theorem setupQuadraticSubproblem_in_range s sched timeDiscretization initState x u :
  (timeDiscretization = [] ->
   setupQuadraticSubproblem s sched timeDiscretization initState x u = Throws length_error)
  /\ ((0 < nThreads (settings_ s))%nat ->
      (nThreads (settings_ s) <= length (ocpDefinitions_ s))%nat ->
      timeDiscretization <> [] ->
      aligned timeDiscretization x u ->
      exists p s',
        setupQuadraticSubproblem s sched timeDiscretization initState x u = Returns (p, s')).
Proof.
  split; [intros ->; reflexivity|].
  apply setupQuadraticSubproblem_returns.
Qed.

Lemma back_in_range {A : Type} (v : list A) :
  (0 < length v)%nat -> exists a, back v = Returns a.
Proof.
  intros Hv. unfold back. destruct (last v) eqn:E; [eauto|].
  apply last_None in E. subst v. simpl in Hv. lia.
Qed.

(** A grid of two nodes or more whose last node is no pre-event node has
    its pre-event nodes before the last. *)
Lemma pre_event_before_last (timeDiscretization : list AnnotatedTime) i ti :
  (forall tN, last timeDiscretization = Some tN -> event tN <> PreEvent) ->
  timeDiscretization !! i = Some ti -> event ti = PreEvent ->
  (i + 1 < length timeDiscretization)%nat.
Proof.
  intros Hlast Hti Hpre.
  pose proof (lookup_lt_Some _ _ _ Hti) as Hi.
  destruct (decide (i + 1 < length timeDiscretization)%nat) as [|Hend]; [assumption|].
  exfalso. apply (Hlast ti); [|exact Hpre].
  rewrite last_lookup. replace (pred (length timeDiscretization)) with i by lia.
  exact Hti.
Qed.

(** The assembly of the solution stays in range. *)
Lemma setPrimalSolution_returns s timeDiscretization x u :
  aligned timeDiscretization x u ->
  (2 <= length timeDiscretization)%nat ->
  (forall tN, last timeDiscretization = Some tN -> event tN <> PreEvent) ->
  (useFeedbackPolicy (settings_ s) = true ->
   exists d0 c0,
     dynamics_ s !! 0%nat = Some d0
     /\ cost_ s !! 0%nat = Some c0
     /\ (length timeDiscretization <= length (constraintsProjection_ s) + 1)%nat
     /\ (length timeDiscretization
         <= length (getRiccatiFeedback (hpipmInterface_ s) d0 c0) + 1)%nat) ->
  exists s', setPrimalSolution s timeDiscretization x u = Returns s'.
Proof.
  intros [Hx Hu] Hlen Hlast Hfb. unfold setPrimalSolution.
  assert (exists u', repeatInputAtPreEvents timeDiscretization u = Returns u'
                     /\ length u' = length u) as (u' & -> & Hu').
  { unfold repeatInputAtPreEvents.
    apply (foldM_seq_returns (fun _ (v : vector_array_t) => length v = length u));
      [reflexivity|].
    intros v i Hv Hi. cbv beta.
    destruct (at_in_range timeDiscretization i ltac:(lia)) as (ti & -> & Hti). simpl.
    destruct (decide (event ti = PreEvent /\ 0 < i)%nat) as [[Hpre Hpos]|]; [|eauto].
    pose proof (pre_event_before_last _ _ _ Hlast Hti Hpre).
    destruct (at_in_range v (i - 1) ltac:(lia)) as (prev & -> & _). simpl.
    unfold assign. destruct (decide (i < length v)%nat); [|lia].
    eexists. split; [reflexivity|]. rewrite length_insert. exact Hv. }
  cbn [outcome_bind].
  match goal with
  | |- exists s', outcome_bind _ ?m = _ =>
      assert (exists fb, m = Returns fb) as (fb & ->)
  end.
  { destruct (useFeedbackPolicy (settings_ s)); [|eauto].
    destruct (Hfb eq_refl) as (d0 & c0 & Hd0 & Hc0 & Hproj & HK).
    apply at_Returns in Hd0, Hc0. rewrite Hd0, Hc0. simpl.
    set (K := getRiccatiFeedback (hpipmInterface_ s) d0 c0) in *.
    unfold feedbackLoop.
    match goal with
    | |- exists fb, outcome_bind _ (foldM ?body ?init _) = _ =>
        destruct (foldM_seq_returns
                    (fun i (st : vector_array_t * matrix_array_t
                                 * list VectorFunctionLinearApproximation) =>
                       length st.1.1 = length u
                       /\ length st.1.2 = i
                       /\ length st.2 = length (constraintsProjection_ s))
                    body 0 (length timeDiscretization - 1) init)
          as ([[uff gain] proj] & -> & Huff & Hgain & _)
    end.
    { simpl. auto. }
    { intros [[uff gain] proj] i (Huff & Hgain & Hpr) Hi. cbv beta.
      simpl in Huff, Hgain, Hpr.
      destruct (at_in_range timeDiscretization i ltac:(lia)) as (ti & -> & Hti). simpl.
      destruct (decide (event ti = PreEvent /\ 0 < i)%nat) as [[Hpre Hpos]|].
      - destruct (at_in_range uff (i - 1) ltac:(lia)) as (prev & -> & _). simpl.
        unfold assign. destruct (decide (i < length uff)%nat); [|lia]. simpl.
        destruct (back_in_range gain ltac:(lia)) as (g & ->). simpl.
        eexists. split; [reflexivity|]. simpl.
        rewrite length_insert, length_app. simpl. split; [exact Huff|]. split; [lia|exact Hpr].
      - destruct (at_in_range proj i ltac:(lia)) as (pi & -> & _). simpl.
        destruct (at_in_range K i ltac:(lia)) as (Ki & -> & _). simpl.
        assert (exists proj',
                  (if decide (0 < length (f pi))%nat
                   then assign proj i (stolen pi) else Returns proj) = Returns proj'
                  /\ length proj' = length proj) as (proj' & -> & Hproj').
        { destruct (decide (0 < length (f pi))%nat); [|eauto].
          unfold assign. destruct (decide (i < length proj)%nat); [|lia].
          eexists. split; [reflexivity|]. apply length_insert. }
        simpl.
        destruct (at_in_range uff i ltac:(lia)) as (uffi & -> & _). simpl.
        destruct (at_in_range x i ltac:(lia)) as (xi & -> & _). simpl.
        unfold assign. destruct (decide (i < length uff)%nat); [|lia]. simpl.
        eexists. split; [reflexivity|]. simpl.
        rewrite length_insert, length_app. simpl.
        split; [exact Huff|]. split; [lia|congruence]. }
    simpl in Huff, Hgain. simpl.
    destruct (back_in_range uff ltac:(lia)) as (lastUff & ->). simpl.
    destruct (back_in_range gain ltac:(lia)) as (lastGain & ->). simpl.
    eauto. }
  simpl. destruct fb as [[uff controllerGain] proj].
  destruct (back_in_range u' ltac:(lia)) as (lastU & ->). simpl.
  eauto.
Qed.

(** **** X15. [setPrimalSolution] returns -- no access leaves a
    container -- on an iterate that is aligned with a grid of two nodes or
    more whose last node is no pre-event node, provided that, with the
    feedback policy, the buffers hold a first node and there are a
    projection and a Riccati gain for every node but the last. *)
Theorem setPrimalSolution_in_range s timeDiscretization x u :
  aligned timeDiscretization x u ->
  (2 <= length timeDiscretization)%nat ->
  (forall tN, last timeDiscretization = Some tN -> event tN <> PreEvent) ->
  (useFeedbackPolicy (settings_ s) = true ->
   exists d0 c0,
     dynamics_ s !! 0%nat = Some d0
     /\ cost_ s !! 0%nat = Some c0
     /\ (length timeDiscretization <= length (constraintsProjection_ s) + 1)%nat
     /\ (length timeDiscretization
         <= length (getRiccatiFeedback (hpipmInterface_ s) d0 c0) + 1)%nat) ->
  exists s', setPrimalSolution s timeDiscretization x u = Returns s'.
Proof.
  exact (setPrimalSolution_returns s timeDiscretization x u).
Qed.

(** The two outcomes of the QP step. *)
Lemma getOCPSolution_cases s delta_x0 ocp0 h status deltaX deltaU :
  ocpDefinitions_ s !! 0%nat = Some ocp0 ->
  solveQP s ocp0 delta_x0 = (h, status, deltaX, deltaU) ->
  (status <> SUCCESS -> getOCPSolution s delta_x0 = Throws qp_failed)
  /\ (status = SUCCESS ->
      (length (cost_ s) <= length deltaX)%nat ->
      (forall i ci, cost_ s !! i = Some ci -> q_dfdu ci <> [] -> (i < length deltaU)%nat) ->
      (projectStateInputEqualityConstraints (settings_ s) = true ->
       (length deltaU <= length (constraintsProjection_ s))%nat
       /\ (length deltaU <= length deltaX)%nat) ->
      exists sol,
        getOCPSolution s delta_x0 = Returns (sol, with_hpipmInterface h s)
        /\ deltaXSol sol = deltaX
        /\ length (deltaUSol sol) = length deltaU).
Proof.
  intros Hocp Hqp. unfold getOCPSolution, front.
  apply at_Returns in Hocp. rewrite Hocp. cbn [outcome_bind]. rewrite Hqp.
  split.
  - intros Hst. destruct (decide (status <> SUCCESS)); [reflexivity|contradiction].
  - intros -> HdX HdU Hproj.
    destruct (decide (SUCCESS <> SUCCESS)); [congruence|].
    assert (exists metric, descentMetric (cost_ s) deltaX deltaU = Returns metric)
      as (metric & ->).
    { unfold descentMetric.
      destruct (foldM_seq_returns (fun _ (_ : scalar_t) => True)
                  (fun metric i =>
                     ci <- at_ (cost_ s) i ;;
                     metric <- (if decide (0 < length (q_dfdx ci))%nat then
                                  dxi <- at_ deltaX i ;;
                                  Returns (metric + dot (q_dfdx ci) dxi)
                                else Returns metric) ;;
                     if decide (0 < length (q_dfdu ci))%nat then
                       dui <- at_ deltaU i ;; Returns (metric + dot (q_dfdu ci) dui)
                     else Returns metric)
                  0 (length (cost_ s)) 0 I) as (metric & E & _); [|eauto].
      intros metric i _ Hi. cbv beta.
      destruct (at_in_range (cost_ s) i ltac:(lia)) as (ci & -> & Hci). simpl.
      destruct (decide (0 < length (q_dfdx ci))%nat).
      + destruct (at_in_range deltaX i ltac:(lia)) as (dxi & -> & _). simpl.
        destruct (decide (0 < length (q_dfdu ci))%nat) as [Hne|]; [|eauto].
        assert (i < length deltaU)%nat as Hiu.
        { apply (HdU i ci Hci). intros E. rewrite E in Hne. simpl in Hne. lia. }
        destruct (at_in_range deltaU i Hiu) as (dui & -> & _). simpl. eauto.
      + simpl.
        destruct (decide (0 < length (q_dfdu ci))%nat) as [Hne|]; [|eauto].
        assert (i < length deltaU)%nat as Hiu.
        { apply (HdU i ci Hci). intros E. rewrite E in Hne. simpl in Hne. lia. }
        destruct (at_in_range deltaU i Hiu) as (dui & -> & _). simpl. eauto. }
    cbn [outcome_bind].
    assert (exists deltaU',
              (if projectStateInputEqualityConstraints (settings_ s)
               then remapProjectedInput (constraintsProjection_ s) deltaX deltaU
               else Returns deltaU) = Returns deltaU'
              /\ length deltaU' = length deltaU) as (deltaU' & -> & Hlen).
    { destruct (projectStateInputEqualityConstraints (settings_ s)); [|eauto].
      destruct (Hproj eq_refl) as [Hp Hx]. unfold remapProjectedInput.
      apply (foldM_seq_returns (fun _ (v : vector_array_t) => length v = length deltaU));
        [reflexivity|].
      intros v i Hv Hi. cbv beta.
      destruct (at_in_range (constraintsProjection_ s) i ltac:(lia)) as (pi & -> & _).
      simpl. destruct (decide (0 < length (f pi))%nat); [|eauto].
      destruct (at_in_range v i ltac:(lia)) as (dui & -> & _). simpl.
      destruct (at_in_range deltaX i ltac:(lia)) as (dxi & -> & _). simpl.
      unfold assign. destruct (decide (i < length v)%nat); [|lia].
      eexists. split; [reflexivity|]. rewrite length_insert. exact Hv. }
    cbn [outcome_bind]. eexists. split; [reflexivity|]. simpl. auto.
Qed.

(** **** X16. What [getOCPSolution] does with the answer of the QP
    solver: a status other than [SUCCESS] is the runtime error of a failed
    QP, whatever the sizes; on [SUCCESS], with a state step for every cost
    node, an input step wherever the cost has an input gradient and -- with
    the projection -- a projection and a state step for every input step,
    it returns the state step as it is, an input step of the same length,
    and a solver in which only the QP interface was replaced. *)
Theorem getOCPSolution_outcome s delta_x0 ocp0 h status deltaX deltaU :
  ocpDefinitions_ s !! 0%nat = Some ocp0 ->
  solveQP s ocp0 delta_x0 = (h, status, deltaX, deltaU) ->
  (status <> SUCCESS -> getOCPSolution s delta_x0 = Throws qp_failed)
  /\ (status = SUCCESS ->
      (length (cost_ s) <= length deltaX)%nat ->
      (forall i ci, cost_ s !! i = Some ci -> q_dfdu ci <> [] -> (i < length deltaU)%nat) ->
      (projectStateInputEqualityConstraints (settings_ s) = true ->
       (length deltaU <= length (constraintsProjection_ s))%nat
       /\ (length deltaU <= length deltaX)%nat) ->
      exists sol,
        getOCPSolution s delta_x0 = Returns (sol, with_hpipmInterface h s)
        /\ deltaXSol sol = deltaX
        /\ length (deltaUSol sol) = length deltaU).
Proof.
  exact (getOCPSolution_cases s delta_x0 ocp0 h status deltaX deltaU).
Qed.

End InRange.

(** ** A run stays in range *)

Section RunInRange.
Context `{Collaborators}.
Hypothesis Hqp : qp_sized.
Hypothesis Hterminal : terminal_cost_without_input.
Variables (cfg : Settings) (ocps : list OptimalControlProblem)
          (timeDiscretization : list AnnotatedTime) (initState : vector_t) (K : nat).
Hypothesis HK : forall k, (K <= k)%nat -> stepLength (alpha_decay cfg) k <= alpha_min cfg.
Hypothesis Hn : (0 < nThreads cfg)%nat.
Hypothesis Hocp : (nThreads cfg <= length ocps)%nat.
Hypothesis Hgrid : timeDiscretization <> [].

Lemma store_node_frame i terminal r sc sc' :
  store_node i terminal r sc = Returns sc' ->
  ocpDefinitions_ sc' = ocpDefinitions_ sc /\ hpipmInterface_ sc' = hpipmInterface_ sc.
Proof.
  unfold store_node. intros E.
  apply bind_Returns in E as (cst & _ & E).
  apply bind_Returns in E as (con & _ & E).
  destruct terminal.
  - injection E as <-. auto.
  - apply bind_Returns in E as (dyn & _ & E).
    apply bind_Returns in E as (proj & _ & E).
    injection E as <-. auto.
Qed.

(** The approximation sweep touches neither the problem clones nor the QP
    interface. *)
Lemma setupQuadraticSubproblem_frame s sched x u p s' :
  setupQuadraticSubproblem s sched timeDiscretization initState x u = Returns (p, s') ->
  ocpDefinitions_ s' = ocpDefinitions_ s /\ hpipmInterface_ s' = hpipmInterface_ s.
Proof.
  unfold setupQuadraticSubproblem, runParallel.
  destruct (decide _); [discriminate|]. intros E.
  apply bind_Returns in E as (st & Hsweep & E).
  apply bind_Returns in E as (total & _ & E).
  injection E as _ <-.
  refine (foldM_invariant
            (fun st : list PerformanceIndex * MultipleShootingSolver =>
               ocpDefinitions_ st.2 = ocpDefinitions_ s
               /\ hpipmInterface_ st.2 = hpipmInterface_ s) _ _ _ _ _ _ Hsweep).
  { auto. }
  clear Hsweep st. intros st1 w st2 H1 _ E. cbv beta in E.
  apply bind_Returns in E as (ocp & _ & E).
  apply bind_Returns in E as (wst & Hnodes & E).
  apply bind_Returns in E as (mine & _ & E).
  apply bind_Returns in E as (perf & _ & E).
  injection E as <-. simpl.
  refine (foldM_invariant
            (fun wst : PerformanceIndex * MultipleShootingSolver =>
               ocpDefinitions_ wst.2 = ocpDefinitions_ s
               /\ hpipmInterface_ wst.2 = hpipmInterface_ s) _ _ _ _ _ _ Hnodes).
  { exact H1. }
  clear. intros w1 i w2 [H1 H2] _ E. cbv beta in E.
  destruct (decide _); [|injection E as <-; auto].
  destruct (decide _).
  - apply bind_Returns in E as (ti & _ & E).
    destruct (decide _).
    + apply bind_Returns in E as (xi & _ & E).
      apply bind_Returns in E as (xi1 & _ & E).
      apply bind_Returns in E as (sn & Hst & E). injection E as <-. simpl.
      apply store_node_frame in Hst as [-> ->]. auto.
    + apply bind_Returns in E as (ti1 & _ & E).
      apply bind_Returns in E as (xi & _ & E).
      apply bind_Returns in E as (xi1 & _ & E).
      apply bind_Returns in E as (ui & _ & E).
      apply bind_Returns in E as (sn & Hst & E). injection E as <-. simpl.
      apply store_node_frame in Hst as [-> ->]. auto.
  - apply bind_Returns in E as (tN & _ & E).
    apply bind_Returns in E as (xN & _ & E).
    apply bind_Returns in E as (sn & Hst & E). injection E as <-. simpl.
    apply store_node_frame in Hst as [-> ->]. auto.
Qed.

(** The SQP loop on an aligned iterate either returns an aligned iterate
    -- and, if it made an iteration, a solver whose buffers and QP
    interface fit the grid -- or stops at a failed QP. *)
Lemma sqpLoop_in_range remaining fuel sched :
  (K < fuel)%nat ->
  forall iter s x u,
    settings_ s = cfg -> ocpDefinitions_ s = ocps -> aligned timeDiscretization x u ->
    (exists s' x' u',
       sqpLoop remaining fuel sched timeDiscretization initState iter s x u
         = Returns (s', x', u')
       /\ settings_ s' = cfg
       /\ aligned timeDiscretization x' u'
       /\ ((0 < remaining)%nat -> solved_on timeDiscretization s'))
    \/ sqpLoop remaining fuel sched timeDiscretization initState iter s x u
       = Throws qp_failed.
Proof.
  intros Hfuel.
  assert (0 < length timeDiscretization)%nat as Hpos.
  { destruct timeDiscretization; [congruence|simpl; lia]. }
  induction remaining as [|remaining IH]; intros iter s x u Hcfg Hocps Hal.
  { left. exists s, x, u. simpl. split; [reflexivity|]. split; [exact Hcfg|].
    split; [exact Hal|lia]. }
  cbn [sqpLoop].
  destruct (setupQuadraticSubproblem_returns s (sched iter O) timeDiscretization
              initState x u) as (p & s1 & Hsetup);
    [rewrite Hcfg; exact Hn|rewrite Hcfg, Hocps; exact Hocp|exact Hgrid|exact Hal|].
  rewrite Hsetup. cbn [outcome_bind].
  pose proof (setupQuadraticSubproblem_bookkeeping _ _ _ _ _ _ _ _ Hsetup) as (_ & _ & Hcfg1).
  pose proof (setupQuadraticSubproblem_frame _ _ _ _ _ _ Hsetup) as (Hocps1 & _).
  pose proof (setupQuadraticSubproblem_stores _ _ _ _ _ _ _ _ Hsetup)
    as (Ld & Lc & _ & Lp & Hnodes).
  rewrite Hcfg in Hcfg1. rewrite Hocps in Hocps1.
  destruct Hal as [Hx Hu].
  destruct (at_in_range x 0 ltac:(lia)) as (x0 & -> & _). cbn [outcome_bind].
  destruct (lookup_lt_is_Some_2 (ocpDefinitions_ s1) 0) as [ocp0 Hocp0];
    [rewrite Hocps1; lia|].
  destruct (solveQP s1 ocp0 (vsub initState x0)) as [[[h status] deltaX] deltaU] eqn:Hsolve.
  destruct (getOCPSolution_cases s1 (vsub initState x0) ocp0 h status deltaX deltaU
              Hocp0 Hsolve) as [Hfail Hsuccess].
  destruct (decide (status = SUCCESS)) as [->|Hstatus].
  2:{ right. rewrite (Hfail Hstatus). reflexivity. }
  assert (length deltaX = length (cost_ s1)
          /\ length deltaU = length (dynamics_ s1)
          /\ forall d0 c0, length (getRiccatiFeedback h d0 c0) = length (dynamics_ s1))
    as (LdX & LdU & LK).
  { unfold solveQP in Hsolve.
    destruct (_ && _); exact (Hqp _ _ _ _ _ _ _ _ Hsolve). }
  destruct Hsuccess as (sol & Hsol & HsolX & HsolU); [reflexivity|lia| |lia|].
  { intros i ci Hci Hgrad.
    pose proof (lookup_lt_Some _ _ _ Hci) as Hi.
    destruct (decide (i + 1 < length timeDiscretization)%nat) as [|Hlast]; [lia|].
    exfalso. apply Hgrad.
    destruct (Hnodes i ltac:(lia)) as (ocp & r & _ & Hr & (Hcost & _) & _).
    rewrite Hci in Hcost. injection Hcost as ->.
    unfold transcription in Hr.
    destruct (timeDiscretization !! i) as [ti|]; [|discriminate].
    destruct (x !! i) as [xi|]; [|discriminate].
    destruct (decide (i + 1 < length timeDiscretization)%nat); [lia|].
    injection Hr as <-. apply Hterminal. }
  rewrite Hsol. cbn [outcome_bind].
  set (s2 := with_hpipmInterface h s1) in *.
  destruct (lineSearch_ends s2 (fun k => sched iter (S k)) p timeDiscretization initState
              sol x u K) with (n := K) (k := O) (alpha := 1)
              (xBuffer := replicate (length x) ([] : vector_t))
              (uBuffer := replicate (length u) ([] : vector_t)) (fuel := fuel)
    as (r & Hstep).
  { simpl. rewrite Hcfg1. exact HK. }
  { simpl. rewrite Hcfg1. exact Hn. }
  { simpl. rewrite Hcfg1, Hocps1. exact Hocp. }
  { exact Hgrid. }
  { split; assumption. }
  { rewrite HsolX. lia. }
  { lia. }
  { constructor. }
  { lia. }
  { exact Hfuel. }
  fold (takeStep fuel s2 (fun k => sched iter (S k)) p timeDiscretization initState sol x u)
    in Hstep.
  rewrite Hstep. cbn [outcome_bind].
  pose proof (takeStep_shape _ _ _ _ _ _ _ _ _ _ Hstep) as (Lx' & Lu' & _).
  set (s3 := with_bookkeeping _ _ s2).
  assert (settings_ s3 = cfg) as Hcfg3 by exact Hcfg1.
  assert (ocpDefinitions_ s3 = ocps) as Hocps3 by exact Hocps1.
  assert (aligned timeDiscretization (x_out r) (u_out r)) as Hal3.
  { split; lia. }
  assert (solved_on timeDiscretization s3) as Hsolved3.
  { split; [exact Ld|]. split; [exact Lc|]. split; [exact Lp|].
    intros d0 c0. simpl. rewrite LK. exact Ld. }
  destruct (converged r).
  - left. exists s3, (x_out r), (u_out r). auto.
  - destruct (IH (S iter) s3 (x_out r) (u_out r) Hcfg3 Hocps3 Hal3)
      as [(s' & x' & u' & E & Hcfg' & Hal' & Hsolved')|E].
    + left. exists s', x', u'. split; [exact E|]. split; [exact Hcfg'|].
      split; [exact Hal'|]. intros _.
      destruct remaining as [|remaining']; [|apply Hsolved'; lia].
      simpl in E. injection E as <- _ _. exact Hsolved3.
    + right. exact E.
Qed.

End RunInRange.


(** **** X18. A run that is asked for the feedback policy and for no
    iteration, on a solver whose buffers are still empty -- a freshly
    constructed one, for instance -- never returns: [setPrimalSolution]
    asks for the Riccati gains of [dynamics_[0]], which is not there. *)
Theorem runImpl_without_iteration `{Collaborators} fuel sched s initTime initState finalTime :
  sqpIteration (settings_ s) = O ->
  useFeedbackPolicy (settings_ s) = true ->
  dynamics_ s = [] ->
  forall s', runImpl fuel sched s initTime initState finalTime <> Returns s'.
Proof.
  intros Hnone Hfb Hempty s' E. unfold runImpl in E.
  apply bind_Returns in E as (xu & _ & E).
  cbn [settings_ with_bookkeeping] in E. rewrite Hnone in E.
  cbn [sqpLoop outcome_bind] in E.
  unfold setPrimalSolution in E.
  apply bind_Returns in E as (u' & _ & E).
  apply bind_Returns in E as (fb & Hgain & _).
  cbn [settings_ with_bookkeeping] in Hgain. rewrite Hfb in Hgain.
  apply bind_Returns in Hgain as (d0 & Hd0 & _). apply at_Returns in Hd0.
  cbn [dynamics_ with_bookkeeping] in Hd0. rewrite Hempty in Hd0. discriminate.
Qed.

(** ** The further properties on the small problem *)

Section FurtherOnTheExample.
Import Example Runs.

(** The second candidate of the step [uphill]. *)
Lemma trial_candidate_witness :
  1 * (1 # 2) = stepLength (alpha_decay (settings_ searching)) 1
  /\ length uphill1.1 = length x0
  /\ length uphill1.2 = length u0
  /\ (forall i xi, x0 !! i = Some xi ->
        exists dxi, deltaXSol uphill !! i = Some dxi
                    /\ uphill1.1 !! i = Some (vadd xi (vscale (1 * (1 # 2)) dxi)))
  /\ (forall i ui, u0 !! i = Some ui ->
        exists dui, deltaUSol uphill !! i = Some dui
                    /\ uphill1.2 !! i = Some (if decide (0 < length dui)%nat
                                              then vadd ui (vscale (1 * (1 # 2)) dui)
                                              else [])).
Proof.
  apply (trial_candidate searching (roundRobin O) baseline0 grid [1] uphill x0 u0
           1 (1 * (1 # 2)) uphill1.1 uphill1.2 uphillPerformance1).
  exact uphill_trial1.
Defined.

(** The step [downhill] is accepted: the merit drops. *)
Lemma takeStep_improves_or_stalls_witness :
  length (x_out downhillStep) = length x0
  /\ length (u_out downhillStep) = length u0
  /\ (converged downhillStep = true /\ stepPerformance downhillStep = baseline0
      /\ x_out downhillStep = x0 /\ u_out downhillStep = u0
      \/ merit (stepPerformance downhillStep) < merit baseline0
      \/ constraintViolation (stepPerformance downhillStep) < constraintViolation baseline0).
Proof.
  apply (takeStep_improves_or_stalls searching (roundRobin O) baseline0 grid [1] downhill
           x0 u0 1 downhillStep).
  - vm_compute. discriminate.
  - vm_compute. discriminate.
  - vm_compute. discriminate.
  - vm_compute. discriminate.
  - vm_compute. reflexivity.
Defined.


(** The log of the run that [finished] comes from. *)
Lemma runImpl_log_merit_witness :
  Forall merit_is_cost_plus_penalty (performanceIndeces_ finished).
Proof.
  apply (runImpl_log_merit 10 roundRobin (solver settings unconstrained replay)
           0 [1] 1 finished).
  vm_compute. reflexivity.
Defined.

(** The solution of that run. *)
Lemma runImpl_solution_witness :
  let timeDiscretization :=
    timeDiscretizationWithEvents 0 1
      (dt (settings_ (solver settings unconstrained replay)))
      (eventTimes (referenceManager_ (solver settings unconstrained replay))) in
  let solution := primalSolution_ finished in
  (2 <= length timeDiscretization)%nat
  /\ timeTrajectory_ solution = map time timeDiscretization
  /\ length (stateTrajectory_ solution) = length timeDiscretization
  /\ length (inputTrajectory_ solution) = length timeDiscretization
  /\ (if useFeedbackPolicy (settings_ (solver settings unconstrained replay))
      then exists uff controllerGain,
             controllerPtr_ solution
               = Some (LinearController (timeTrajectory_ solution) uff controllerGain)
             /\ length uff = length timeDiscretization
             /\ length controllerGain = length timeDiscretization
      else controllerPtr_ solution
             = Some (FeedforwardController (timeTrajectory_ solution)
                                           (inputTrajectory_ solution))).
Proof.
  apply (runImpl_solution 10 roundRobin (solver settings unconstrained replay)
           0 [1] 1 finished).
  vm_compute. reflexivity.
Defined.

(** The buffers after the sweep on the grid with an event. *)
Lemma setupQuadraticSubproblem_buffers_witness :
  (length (dynamics_ swept.2) + 1)%nat = length eventGrid
  /\ length (cost_ swept.2) = length eventGrid
  /\ length (constraints_ swept.2) = length eventGrid
  /\ (length (constraintsProjection_ swept.2) + 1)%nat = length eventGrid
  /\ forall i, (i < length eventGrid)%nat ->
       exists ocp r,
         ocpDefinitions_ (solver settings unconstrained replayEvent)
           !! (roundRobin O O i
               mod nThreads (settings_ (solver settings unconstrained replayEvent)))%nat
           = Some ocp
         /\ transcription ocp
              (projectStateInputEqualityConstraints
                 (settings_ (solver settings unconstrained replayEvent)))
              eventGrid xEvent uEvent i = Some r
         /\ stored_at swept.2 i (bool_decide (i + 1 = length eventGrid)%nat) r
         /\ (forall ti, eventGrid !! i = Some ti ->
               (i + 1 < length eventGrid)%nat -> event ti = PreEvent ->
               f (constraintsProjection r) = []).
Proof.
  apply (setupQuadraticSubproblem_buffers (solver settings unconstrained replayEvent)
           (roundRobin O O) eventGrid [1] xEvent uEvent swept.1 swept.2).
  vm_compute. reflexivity.
Defined.

(** The performance of the iterate on the grid with an event. *)
Lemma computePerformance_sum_witness :
  exists nodes x0,
    xEvent !! 0%nat = Some x0
    /\ Forall2 (fun i pi =>
                  exists ocp,
                    ocpDefinitions_ (solver settings unconstrained replayEvent)
                      !! (roundRobin O O i
                          mod nThreads
                                (settings_ (solver settings unconstrained replayEvent)))%nat
                      = Some ocp
                    /\ nodePerformance ocp eventGrid xEvent uEvent i = Some pi)
               (seq 0 (length eventGrid)) nodes
    /\ totalCost sweptPerformance == Qsum (map totalCost nodes)
    /\ stateEqConstraintISE sweptPerformance
       == Qsum (map stateEqConstraintISE nodes) + squaredNorm (vsub [1] x0)
    /\ stateInputEqConstraintISE sweptPerformance
       == Qsum (map stateInputEqConstraintISE nodes)
    /\ inequalityConstraintISE sweptPerformance
       == Qsum (map inequalityConstraintISE nodes)
    /\ inequalityConstraintPenalty sweptPerformance
       == Qsum (map inequalityConstraintPenalty nodes).
Proof.
  apply (computePerformance_sum (solver settings unconstrained replayEvent)
           (roundRobin O O) eventGrid [1] xEvent uEvent sweptPerformance).
  vm_compute. reflexivity.
Defined.

(** A run whose QP interface reports a failure. *)
Lemma runImpl_exceptions_witness :
  let timeDiscretization :=
    timeDiscretizationWithEvents 0 1
      (dt (settings_ (solver settings unconstrained failing)))
      (eventTimes (referenceManager_ (solver settings unconstrained failing))) in
  (timeDiscretization = [] /\ qp_failed = length_error)
  \/ (timeDiscretization <> [] /\ qp_failed = qp_failed).
Proof.
  apply (runImpl_exceptions 10 roundRobin (solver settings unconstrained failing)
           0 [1] 1 qp_failed).
  vm_compute. reflexivity.
Defined.

(** The assembly of the solution on the grid with an event. *)
Lemma setPrimalSolution_in_range_witness :
  exists s', setPrimalSolution withEvent eventGrid xEvent uEvent = Returns s'.
Proof.
  apply (setPrimalSolution_in_range withEvent eventGrid xEvent uEvent).
  - split; reflexivity.
  - simpl. lia.
  - intros tN E. injection E as <-. discriminate.
  - intros _. eexists _, _.
    split; [vm_compute; reflexivity|]. split; [vm_compute; reflexivity|].
    split; vm_compute; lia.
Defined.

(** The QP step of the projected problem. *)
Lemma getOCPSolution_outcome_witness :
  exists sol,
    getOCPSolution projected [0] = Returns (sol, with_hpipmInterface replay projected)
    /\ deltaXSol sol = answer_x replay
    /\ length (deltaUSol sol) = length (answer_u replay).
Proof.
  refine (proj2 (getOCPSolution_outcome projected [0] constrained replay SUCCESS
                   (answer_x replay) (answer_u replay) _ _) _ _ _ _).
  - vm_compute. reflexivity.
  - vm_compute. reflexivity.
  - reflexivity.
  - vm_compute. lia.
  - intros [|[|i]] ci E Hne; simpl in E.
    + simpl. lia.
    + exfalso. injection E as <-. apply Hne. reflexivity.
    + discriminate.
  - intros _. vm_compute. lia.
Defined.

(** The initial iterate on the grid with an event. *)
Lemma initializeStateInputTrajectories_shape_witness :
  exists x u,
    initializeStateInputTrajectories (solver settings unconstrained replay) [1] eventGrid
      = Returns (x, u)
    /\ aligned eventGrid x u
    /\ x !! 0%nat = Some [1]
    /\ forall i ti, eventGrid !! i = Some ti ->
         (i + 1 < length eventGrid)%nat -> event ti = PreEvent ->
         u !! i = Some []
         /\ exists xi, x !! i = Some xi
                       /\ x !! (i + 1)%nat = Some (initializeEventNode (time ti) xi).
Proof.
  refine (proj2 (initializeStateInputTrajectories_shape
                   (solver settings unconstrained replay) [1] eventGrid) _ _).
  - discriminate.
  - simpl. lia.
Defined.

(** The approximation sweep on the grid with an event. *)
Lemma setupQuadraticSubproblem_in_range_witness :
  exists p s',
    setupQuadraticSubproblem (solver settings unconstrained replayEvent) (roundRobin O O)
                             eventGrid [1] xEvent uEvent = Returns (p, s').
Proof.
  refine (proj2 (setupQuadraticSubproblem_in_range
                   (solver settings unconstrained replayEvent) (roundRobin O O)
                   eventGrid [1] xEvent uEvent) _ _ _ _).
  - simpl. lia.
  - simpl. lia.
  - discriminate.
  - split; reflexivity.
Defined.


(** A freshly constructed solver that is asked for no iteration. *)
Lemma runImpl_without_iteration_witness :
  ~ exists s', runImpl 10 roundRobin (solver idle unconstrained replay) 0 [1] 1 = Returns s'.
Proof.
  intros [s' E].
  apply (runImpl_without_iteration 10 roundRobin (solver idle unconstrained replay) 0 [1] 1
           eq_refl eq_refl eq_refl s' E).
Defined.

End FurtherOnTheExample.
